(** * RSKernelUCBVI: representative-state model builder

    A shallow embedding of [rlberry/agents/kernel_based/rs_kernel_ucbvi.py].

    Numbers.  The Python code computes with IEEE doubles; here every
    double is an exact real ([R]).  [np.inf], the initial value of
    [dist_to_closest], is a constructor of its own ([Inf]); NaN has no
    counterpart, so the value of [np.sqrt] is only meaningful for a
    non-negative argument.

    Errors.  Python exceptions are values of [exn]; a function that can
    raise returns a [result].  Scalar float division by zero raises
    [ZeroDivisionError] (the functions are compiled by numba with its
    Python error model); indexing follows numpy: a negative index counts
    from the end, an index outside [-len, len) raises [IndexError].

    Arrays.  A numpy array is a list (of lists); an in-place update
    returns the updated list; the agent's attributes are threaded through
    the methods as a record. *)

From Stdlib Require Import Reals Lra Lia ZArith String.
From stdpp Require Import base list.

Local Open Scope R_scope.

(** ** Exceptions and the error monad *)

Inductive exn : Set :=
| ZeroDivisionError
| NotImplementedError
| IndexError
| ValueError
| AssertionError.

Inductive result (T : Type) : Type :=
| Ok (v : T)
| Raise (e : exn).

Arguments Ok {T} v.
Arguments Raise {T} e.

#[global] Instance result_ret : MRet result := fun _ v => Ok v.

#[global] Instance result_bind : MBind result := fun _ _ k c =>
  match c with
  | Ok v => k v
  | Raise e => Raise e
  end.

Definition raises {T : Type} (c : result T) : Prop :=
  exists e, c = Raise e.

(** [for ii in range(n): body]: the loop state is threaded through the
    iterations, an exception ends the loop. *)
Fixpoint for_loop {St : Type} (idx : list nat) (body : nat -> St -> result St)
    (s : St) : result St :=
  match idx with
  | [] => Ok s
  | i :: rest => s' ← body i s; for_loop rest body s'
  end.

Definition range (n : nat) : list nat := seq 0 n.

(** ** Floating-point operations, over the reals *)

Definition Rltb (a b : R) : bool := if Rlt_dec a b then true else false.
Definition Reqb (a b : R) : bool := if Req_dec_T a b then true else false.

(** [x / y] on two scalars. *)
Definition fdiv (x y : R) : result R :=
  if Reqb y 0 then Raise ZeroDivisionError else Ok (x / y).

(** A distance bound that starts at [np.inf]. *)
Inductive dist_bound : Set :=
| Inf
| Finite (d : R).

(** [d < b] *)
Definition lt_bound (d : R) (b : dist_bound) : bool :=
  match b with
  | Inf => true
  | Finite c => Rltb d c
  end.

(** [b > m] *)
Definition gt_bound (b : dist_bound) (m : R) : bool :=
  match b with
  | Inf => true
  | Finite c => Rltb m c
  end.

(** ** numpy arrays *)

Abbreviation vec := (list R).
Abbreviation mat := (list (list R)).
Abbreviation ten := (list (list (list R))).

(** numpy index normalisation on an axis of length [len]. *)
Definition np_index (len : nat) (i : Z) : result nat :=
  if (0 <=? i)%Z && (i <? Z.of_nat len)%Z then Ok (Z.to_nat i)
  else if (- Z.of_nat len <=? i)%Z && (i <? 0)%Z then Ok (Z.to_nat (Z.of_nat len + i))
  else Raise IndexError.

(** [a[i]] for a loop index or an action. *)
Definition get {T : Type} (a : list T) (i : nat) : result T :=
  match a !! i with
  | Some x => Ok x
  | None => Raise IndexError
  end.

(** [a[i]] for an index that may be negative. *)
Definition get_z {T : Type} (a : list T) (i : Z) : result T :=
  k ← np_index (length a) i; get a k.

(** [a[i] = x] *)
Definition set {T : Type} (a : list T) (i : nat) (x : T) : result (list T) :=
  if (i <? length a)%nat then Ok (<[i := x]> a) else Raise IndexError.

(** [a[i, j]] and [a[i, j] = x] *)
Definition get2 {T : Type} (a : list (list T)) (i j : nat) : result T :=
  row ← get a i; get row j.

Definition set2 {T : Type} (a : list (list T)) (i j : nat) (x : T)
    : result (list (list T)) :=
  row ← get a i; row' ← set row j x; set a i row'.

(** [np.zeros(n)], [np.zeros((n, m))], [np.zeros((n, m, k))] and
    [c * np.ones((n, m))]. *)
Definition zeros (n : nat) : vec := replicate n 0.
Definition zeros2 (n m : nat) : mat := replicate n (zeros m).
Definition zeros3 (n m k : nat) : ten := replicate n (zeros2 m k).
Definition full2 (n m : nat) (c : R) : mat := replicate n (replicate m c).

(** [a.sum()] *)
Definition sum (a : vec) : R := foldr Rplus 0 a.

(** [a.argmax()]: the first index of the maximum; an empty array raises. *)
Fixpoint argmax_from (best : R) (besti i : nat) (a : vec) : nat :=
  match a with
  | [] => besti
  | x :: rest =>
      if Rltb best x then argmax_from x i (S i) rest
      else argmax_from best besti (S i) rest
  end.

Definition argmax (a : vec) : result nat :=
  match a with
  | [] => Raise ValueError
  | x :: rest => Ok (argmax_from x 0 1 rest)
  end.

(** ** compute_bonus *)

Definition compute_bonus (sum_weights beta bonus_scale_factor v_max : R)
    (bonus_type : string) : result R :=
  let n := beta + sum_weights in
  if String.eqb bonus_type "simplified_bernstein" then
    q ← fdiv 1 n;
    t ← fdiv ((1 + beta) * v_max) n;
    Ok (bonus_scale_factor * sqrt q + t)
  else Raise NotImplementedError.

Section Model.

(** The helpers imported from the rest of the package:
    [rlberry.agents.utils.metrics.metric_lp] and
    [rlberry.agents.kernel_based.kernels.kernel_func]. *)
Variable metric_lp : vec -> vec -> Z -> vec -> R.
Variable kernel_func : R -> string -> result R.

(** ** map_to_representative

    [scan_step] is the body of the loop, on the loop state
    [(dist_to_closest, argmin)].  [map_to_representative] returns the
    index and the array [representative_states] as the call leaves it;
    [state] has the length of a row of the array. *)
Definition scan_step (state : vec) (lp_metric : Z)
    (representative_states : list vec) (scaling : vec)
    (ii : nat) (acc : dist_bound * Z) : result (dist_bound * Z) :=
  let '(dist_to_closest, argmin) := acc in
  row ← get representative_states ii;
  let dist := metric_lp state row lp_metric scaling in
  if lt_bound dist dist_to_closest
  then Ok (Finite dist, Z.of_nat ii)
  else Ok (dist_to_closest, argmin).

Definition map_to_representative (state : vec) (lp_metric : Z)
    (representative_states : list vec) (n_representatives : nat)
    (min_dist : R) (scaling : vec) (accept_new_repr : bool)
    : result (Z * list vec) :=
  '(dist_to_closest, argmin) ←
    for_loop (range n_representatives)
      (scan_step state lp_metric representative_states scaling)
      (Inf, (-1)%Z);
  let max_representatives := length representative_states in
  if gt_bound dist_to_closest min_dist
     && (n_representatives <? max_representatives)%nat
     && accept_new_repr
  then
    let new_index := n_representatives in
    Ok (Z.of_nat new_index, <[new_index := state]> representative_states)
  else Ok (argmin, representative_states).

(** ** update_model

    [update_step] is the body of the loop, on the loop state
    [(N_sa, B_sa, P_hat, R_hat)].  [update_model] returns the four
    tables as the call leaves them. *)
Definition update_step (repr_state : Z) (action : nat) (reward : R)
    (n_representatives : nat) (repr_states : list vec)
    (lp_metric : Z) (scaling : vec) (bandwidth : R)
    (bonus_scale_factor beta v_max : R) (bonus_type kernel_type : string)
    (dirac_next_s : vec)
    (u_repr_state : nat) (tables : mat * mat * ten * mat)
    : result (mat * mat * ten * mat) :=
  let '(N_sa, B_sa, P_hat, R_hat) := tables in
  (* compute weight *)
  x ← get_z repr_states repr_state;
  y ← get repr_states u_repr_state;
  let dist := metric_lp x y lp_metric scaling in
  z ← fdiv dist bandwidth;
  weight ← kernel_func z kernel_type;
  (* aux variables *)
  n ← get2 N_sa u_repr_state action;
  let prev_N_sa := beta + n in
  let current_N_sa := prev_N_sa + weight in
  (* update weights *)
  N_sa ← set2 N_sa u_repr_state action (n + weight);
  (* update transitions *)
  c ← fdiv prev_N_sa current_N_sa;
  p ← get2 P_hat u_repr_state action;
  let old := take n_representatives p in
  if negb (length old =? n_representatives)%nat then Raise ValueError else
  let new :=
    zip_with (fun d q => d * weight / current_N_sa + c * q)
             dirac_next_s old in
  P_hat ← set2 P_hat u_repr_state action (new ++ drop n_representatives p);
  (* update rewards *)
  wr ← fdiv (weight * reward) current_N_sa;
  c ← fdiv prev_N_sa current_N_sa;
  r ← get2 R_hat u_repr_state action;
  R_hat ← set2 R_hat u_repr_state action (wr + c * r);
  (* update bonus *)
  n ← get2 N_sa u_repr_state action;
  b ← compute_bonus n beta bonus_scale_factor v_max bonus_type;
  B_sa ← set2 B_sa u_repr_state action b;
  Ok (N_sa, B_sa, P_hat, R_hat).

Definition update_model (repr_state : Z) (action : nat) (repr_next_state : Z)
    (reward : R) (n_representatives : nat) (repr_states : list vec)
    (lp_metric : Z) (scaling : vec) (bandwidth : R)
    (bonus_scale_factor beta v_max : R) (bonus_type kernel_type : string)
    (N_sa B_sa : mat) (P_hat : ten) (R_hat : mat)
    : result (mat * mat * ten * mat) :=
  (* aux var for transition update *)
  k ← np_index n_representatives repr_next_state;
  let dirac_next_s := <[k := 1]> (zeros n_representatives) in
  for_loop (range n_representatives)
    (update_step repr_state action reward n_representatives repr_states
       lp_metric scaling bandwidth bonus_scale_factor beta v_max
       bonus_type kernel_type dirac_next_s)
    (N_sa, B_sa, P_hat, R_hat).

(** ** The agent

    [config] holds the attributes that [__init__] fixes once and for all
    (its arguments, and [horizon], [scaling], [v_max], [max_repr], [A],
    [state_dim] as it derives them from the environment); [agent] holds
    the attributes that the methods assign.  The logging attributes and
    [_logging], which only prints, are left out. *)

Record config : Type := {
  n_episodes : nat;
  gamma : R;
  horizon : nat;
  lp_metric : Z;
  kernel_type : string;
  scaling : vec;
  bandwidth : R;
  min_dist : R;
  max_repr : nat;
  bonus_scale_factor : R;
  beta : R;
  bonus_type : string;
  v_max : R;
  A : nat;
  state_dim : nat
}.

(** The environment, an [OnlineModel]: [env.reset()] and
    [env.step(action)] return their value and the environment as they
    leave it. *)
Variable env_t : Type.
Variable env_reset : env_t -> vec * env_t.
Variable env_step : env_t -> nat -> (vec * R * bool) * env_t.

(** The solvers of [rlberry.agents.dynprog.utils].
    [backward_induction(R, P, horizon, gamma)] returns [(Q, V)];
    [backward_induction_in_place(Q, V, R, P, horizon, gamma, vmax)]
    writes into the arrays [Q] and [V] it is given, and here returns
    their new contents. *)
Variable backward_induction : mat -> ten -> nat -> R -> result (ten * mat).
Variable backward_induction_in_place :
  ten -> mat -> mat -> ten -> nat -> R -> R -> result (ten * mat).

Record agent : Type := {
  env : env_t;
  M : nat;
  representative_states : list vec;
  N_sa : mat;
  B_sa : mat;
  R_hat : mat;
  P_hat : ten;
  V : mat;
  Q : ten;
  Q_policy : option ten;
  episode : nat;
  _rewards : vec;
  _cumul_rewards : vec
}.

Definition reset (cfg : config) (self : agent) : agent :=
  {| env := env self;
     M := 0;
     representative_states := zeros2 (max_repr cfg) (state_dim cfg);
     N_sa := zeros2 (max_repr cfg) (A cfg);
     B_sa := full2 (max_repr cfg) (A cfg) (v_max cfg);
     R_hat := zeros2 (max_repr cfg) (A cfg);
     P_hat := zeros3 (max_repr cfg) (A cfg) (max_repr cfg);
     V := zeros2 (horizon cfg) (max_repr cfg);
     Q := zeros3 (horizon cfg) (max_repr cfg) (A cfg);
     Q_policy := None;
     episode := 0;
     _rewards := _rewards self;
     _cumul_rewards := _cumul_rewards self |}.

(** The agent as [__init__] leaves it: every table is [None] until the
    call of [reset] that ends the constructor. *)
Definition new_agent (cfg : config) (e : env_t) : agent :=
  reset cfg
    {| env := e; M := 0; representative_states := []; N_sa := []; B_sa := [];
       R_hat := []; P_hat := []; V := []; Q := []; Q_policy := None;
       episode := 0; _rewards := []; _cumul_rewards := [] |}.

Definition _map_to_repr (cfg : config) (self : agent) (state : vec)
    (accept_new_repr : bool) : result (Z * agent) :=
  '(repr_state, reprs) ←
    map_to_representative state (lp_metric cfg) (representative_states self)
      (M self) (min_dist cfg) (scaling cfg) accept_new_repr;
  (* check if new representative state *)
  let m := if (repr_state =? Z.of_nat (M self))%Z then S (M self) else M self in
  Ok (repr_state,
      {| env := env self; M := m; representative_states := reprs;
         N_sa := N_sa self; B_sa := B_sa self; R_hat := R_hat self;
         P_hat := P_hat self; V := V self; Q := Q self;
         Q_policy := Q_policy self; episode := episode self;
         _rewards := _rewards self; _cumul_rewards := _cumul_rewards self |}).

Definition _update (cfg : config) (self : agent) (state : vec) (action : nat)
    (next_state : vec) (reward : R) : result agent :=
  '(repr_state, self) ← _map_to_repr cfg self state true;
  '(repr_next_state, self) ← _map_to_repr cfg self next_state true;
  '(n_sa, b_sa, p_hat, r_hat) ←
    update_model repr_state action repr_next_state reward (M self)
      (representative_states self) (lp_metric cfg) (scaling cfg)
      (bandwidth cfg) (bonus_scale_factor cfg) (beta cfg) (v_max cfg)
      (bonus_type cfg) (kernel_type cfg)
      (N_sa self) (B_sa self) (P_hat self) (R_hat self);
  Ok {| env := env self; M := M self;
        representative_states := representative_states self;
        N_sa := n_sa; B_sa := b_sa; R_hat := r_hat; P_hat := p_hat;
        V := V self; Q := Q self; Q_policy := Q_policy self;
        episode := episode self; _rewards := _rewards self;
        _cumul_rewards := _cumul_rewards self |}.

(** [q[hh, repr_state, :].argmax()] when there is no discount,
    [q[0, repr_state, :].argmax()] otherwise. *)
Definition greedy (cfg : config) (q : ten) (hh : nat) (repr_state : Z)
    : result nat :=
  if Reqb (gamma cfg) 1 then
    layer ← get q hh; row ← get_z layer repr_state; argmax row
  else
    layer ← get q 0%nat; row ← get_z layer repr_state; argmax row.

(** [Q] is an array from [reset] on, so [assert self.Q is not None]
    holds. *)
Definition _get_action (cfg : config) (self : agent) (state : vec) (hh : nat)
    : result (nat * agent) :=
  '(repr_state, self) ← _map_to_repr cfg self state false;
  action ← greedy cfg (Q self) hh repr_state;
  Ok (action, self).

Definition policy (cfg : config) (self : agent) (state : vec) (hh : nat)
    : result (nat * agent) :=
  match Q_policy self with
  | None => Raise AssertionError
  | Some q_policy =>
      '(repr_state, self) ← _map_to_repr cfg self state false;
      action ← greedy cfg q_policy hh repr_state;
      Ok (action, self)
  end.

(** Slices: [a[:m, :]], [a[:, :m]], [a[:m, :, :m]], and the sum of two
    matrices. *)
Definition rows {T : Type} (m : nat) (a : list T) : list T := take m a.
Definition cols {T : Type} (m : nat) (a : list (list T)) : list (list T) :=
  map (take m) a.
Definition block (m : nat) (a : ten) : ten := map (cols m) (rows m a).
Definition add2 (a b : mat) : mat := zip_with (zip_with Rplus) a b.

(** Writing [v] through the view [a[:, :m]]. *)
Definition set_cols {T : Type} (m : nat) (v a : list (list T))
    : list (list T) :=
  zip_with (fun x y => x ++ drop m y) v a.

Definition set_env (self : agent) (e : env_t) : agent :=
  {| env := e; M := M self;
     representative_states := representative_states self;
     N_sa := N_sa self; B_sa := B_sa self; R_hat := R_hat self;
     P_hat := P_hat self; V := V self; Q := Q self;
     Q_policy := Q_policy self; episode := episode self;
     _rewards := _rewards self; _cumul_rewards := _cumul_rewards self |}.

(** One step of the interaction loop of [_run_episode]; the loop state
    is [(self, state, episode_rewards)]. *)
Definition episode_step (cfg : config) (hh : nat)
    (st : agent * vec * R) : result (agent * vec * R) :=
  let '(self, state, episode_rewards) := st in
  '(action, self) ← _get_action cfg self state hh;
  let '(next_state, reward, done, e) := env_step (env self) action in
  self ← _update cfg (set_env self e) state action next_state reward;
  Ok (self, next_state, episode_rewards + reward).

(** The reward table handed to the solver at the end of an episode. *)
Definition exploration_reward (self : agent) : mat :=
  add2 (rows (M self) (R_hat self)) (rows (M self) (B_sa self)).

Definition _run_episode (cfg : config) (self : agent) : result (R * agent) :=
  (* interact for H steps *)
  let '(state, e) := env_reset (env self) in
  '(self, _, episode_rewards) ←
    for_loop (range (horizon cfg)) (episode_step cfg)
      (set_env self e, state, 0);
  (* run backward induction *)
  '(q, v) ←
    backward_induction_in_place
      (cols (M self) (Q self)) (cols (M self) (V self))
      (exploration_reward self)
      (block (M self) (P_hat self))
      (horizon cfg) (gamma cfg) (v_max cfg);
  (* return sum of rewards collected in the episode *)
  Ok (episode_rewards,
      {| env := env self; M := M self;
         representative_states := representative_states self;
         N_sa := N_sa self; B_sa := B_sa self; R_hat := R_hat self;
         P_hat := P_hat self;
         V := set_cols (M self) v (V self);
         Q := set_cols (M self) q (Q self);
         Q_policy := Q_policy self; episode := episode self;
         _rewards := _rewards self; _cumul_rewards := _cumul_rewards self |}).

(** One iteration of the loop of [fit]. *)
Definition fit_step (cfg : config) (kk : nat) (self : agent) : result agent :=
  '(episode_rewards, self) ← _run_episode cfg self;
  rewards ← set (_rewards self) kk episode_rewards;
  cumul ←
    (if (0 <? kk)%nat then
       prev ← get (_cumul_rewards self) (kk - 1)%nat;
       set (_cumul_rewards self) kk (episode_rewards + prev)
     else Ok (_cumul_rewards self));
  Ok {| env := env self; M := M self;
        representative_states := representative_states self;
        N_sa := N_sa self; B_sa := B_sa self; R_hat := R_hat self;
        P_hat := P_hat self; V := V self; Q := Q self;
        Q_policy := Q_policy self; episode := S (episode self);
        _rewards := rewards; _cumul_rewards := cumul |}.

(** The agent once [fit] has allocated the two reward arrays. *)
Definition fit_init (cfg : config) (self : agent) : agent :=
  {| env := env self; M := M self;
     representative_states := representative_states self;
     N_sa := N_sa self; B_sa := B_sa self; R_hat := R_hat self;
     P_hat := P_hat self; V := V self; Q := Q self;
     Q_policy := Q_policy self; episode := episode self;
     _rewards := zeros (n_episodes cfg);
     _cumul_rewards := zeros (n_episodes cfg) |}.

(** [fit] returns the dictionary [info] as the pair of its two entries,
    ["n_episodes"] and ["episode_rewards"]. *)
Definition fit (cfg : config) (self : agent) : result (nat * vec * agent) :=
  self ← for_loop (range (n_episodes cfg)) (fit_step cfg) (fit_init cfg self);
  (* compute Q function for the recommended policy *)
  '(q, _) ←
    backward_induction (rows (M self) (R_hat self))
      (block (M self) (P_hat self)) (horizon cfg) (gamma cfg);
  Ok (n_episodes cfg, _rewards self,
      {| env := env self; M := M self;
         representative_states := representative_states self;
         N_sa := N_sa self; B_sa := B_sa self; R_hat := R_hat self;
         P_hat := P_hat self; V := V self; Q := Q self;
         Q_policy := Some q; episode := episode self;
         _rewards := _rewards self; _cumul_rewards := _cumul_rewards self |}).

End Model.

Arguments env {env_t} _.
Arguments M {env_t} _.
Arguments representative_states {env_t} _.
Arguments N_sa {env_t} _.
Arguments B_sa {env_t} _.
Arguments R_hat {env_t} _.
Arguments P_hat {env_t} _.
Arguments V {env_t} _.
Arguments Q {env_t} _.
Arguments Q_policy {env_t} _.
Arguments episode {env_t} _.
Arguments _rewards {env_t} _.
Arguments _cumul_rewards {env_t} _.
Arguments reset {env_t} cfg self.
Arguments new_agent {env_t} cfg e.
Arguments set_env {env_t} self e.
Arguments fit_init {env_t} cfg self.
Arguments exploration_reward {env_t} self.
Arguments _map_to_repr metric_lp {env_t} cfg self state accept_new_repr.
Arguments _update metric_lp kernel_func {env_t} cfg self state action next_state reward.
Arguments _get_action metric_lp {env_t} cfg self state hh.
Arguments policy metric_lp {env_t} cfg self state hh.
Arguments episode_step metric_lp kernel_func {env_t} env_step cfg hh st.
Arguments _run_episode metric_lp kernel_func {env_t} env_reset env_step
  backward_induction_in_place cfg self.
Arguments fit_step metric_lp kernel_func {env_t} env_reset env_step
  backward_induction_in_place cfg kk self.
Arguments fit metric_lp kernel_func {env_t} env_reset env_step
  backward_induction backward_induction_in_place cfg self.

(** * Specification

    The predicates in which the properties of the agent are stated. *)

(** The one bonus type that [compute_bonus] implements. *)
Definition simplified_bernstein : string := "simplified_bernstein".

(** [a[-1]] is the last row of [a]. *)
Definition last_row {T : Type} (a : list T) : result T :=
  match last a with
  | Some x => Ok x
  | None => Raise IndexError
  end.

Section Specification.

Variable metric_lp : vec -> vec -> Z -> vec -> R.
Variable kernel_func : R -> string -> result R.
Variable env_t : Type.
Variable cfg : config.

Local Abbreviation agent := (agent env_t).

(** Among the first [n] representatives, the one of index [k] and
    coordinates [rk] is at the minimum distance of [state], and is the
    first one to be. *)
Definition closest (state : vec) (lp_metric : Z) (scaling : vec)
    (representative_states : list vec) (n k : nat) (rk : vec) : Prop :=
  (k < n)%nat /\
  representative_states !! k = Some rk /\
  forall j rj, (j < n)%nat -> representative_states !! j = Some rj ->
    metric_lp state rk lp_metric scaling <= metric_lp state rj lp_metric scaling /\
    ((j < k)%nat ->
     metric_lp state rk lp_metric scaling < metric_lp state rj lp_metric scaling).

(** The minimum distance to the first [n] representatives, which is
    [np.inf] when [n = 0], is strictly greater than [min_dist]. *)
Definition beyond (state : vec) (lp_metric : Z) (scaling : vec)
    (representative_states : list vec) (n : nat) (min_dist : R) : Prop :=
  n = 0%nat \/
  exists k rk,
    closest state lp_metric scaling representative_states n k rk /\
    min_dist < metric_lp state rk lp_metric scaling.

(** The condition under which [map_to_representative] creates a
    representative. *)
Definition create (state : vec) (lp_metric : Z) (scaling : vec)
    (representative_states : list vec) (n : nat) (min_dist : R)
    (accept : bool) : Prop :=
  beyond state lp_metric scaling representative_states n min_dist /\
  (n < length representative_states)%nat /\ accept = true.

(** The state of the scan of [map_to_representative] after [i]
    iterations. *)
Definition scan_inv (state : vec) (lp_metric : Z) (scaling : vec)
    (representative_states : list vec) (i : nat) (acc : dist_bound * Z)
    : Prop :=
  match i with
  | O => acc = (Inf, (-1)%Z)
  | S _ =>
      exists k rk,
        closest state lp_metric scaling representative_states i k rk /\
        acc = (Finite (metric_lp state rk lp_metric scaling), Z.of_nat k)
  end.

(** [greedy] at the row [-1]: the action is read in the last row of the
    table. *)
Definition greedy_last (q : ten) (hh : nat) : result nat :=
  layer ← get q (if Reqb (gamma cfg) 1 then hh else 0%nat);
  row ← last_row layer;
  argmax row.

(** The entry of a pair (state, action) in the three tables: [n] in
    [N_sa], the row [p] in [P_hat], [r] in [R_hat].  The row is a
    sub-distribution of mass [n / (beta + n)] carried by the first [m]
    states, and the reward estimate lies in [[lo, hi]]. *)
Definition entry_ok (lo hi : R) (m : nat) (n : R) (p : vec) (r : R) : Prop :=
  0 <= n /\
  Forall (fun x => 0 <= x) p /\
  sum p = n / (beta cfg + n) /\
  Forall (fun x => x = 0) (drop m p) /\
  lo <= r <= hi.

Definition tables_ok (lo hi : R) (m : nat) (N : mat) (P : ten) (Rh : mat)
    : Prop :=
  forall u a, (u < max_repr cfg)%nat -> (a < A cfg)%nat ->
    exists n p r,
      get2 N u a = Ok n /\ get2 P u a = Ok p /\ get2 Rh u a = Ok r /\
      entry_ok lo hi m n p r.

Definition agent_ok (lo hi : R) (self : agent) : Prop :=
  (M self <= max_repr cfg)%nat /\
  length (representative_states self) = max_repr cfg /\
  tables_ok lo hi (M self) (N_sa self) (P_hat self) (R_hat self).

(** The shape of the two other tables: [B_sa] has an entry for every
    pair, and the rows of [P_hat] have [max_repr] entries. *)
Definition shaped (B : mat) (P : ten) : Prop :=
  forall u a, (u < max_repr cfg)%nat -> (a < A cfg)%nat ->
    (exists b, get2 B u a = Ok b) /\
    (forall p, get2 P u a = Ok p -> length p = max_repr cfg).

Definition agent_wf (lo hi : R) (self : agent) : Prop :=
  agent_ok lo hi self /\ shaped (B_sa self) (P_hat self).

(** Two agents with the same model: they may differ by the environment,
    the value tables and the counters. *)
Definition same_model (self self' : agent) : Prop :=
  M self' = M self /\
  representative_states self' = representative_states self /\
  N_sa self' = N_sa self /\ B_sa self' = B_sa self /\
  P_hat self' = P_hat self /\ R_hat self' = R_hat self.

(** The agents that [reset] and a sequence of calls of [_update] lead
    to, the rewards observed all satisfying [ok_reward]; whatever is
    done to the rest of the agent in between does not matter. *)
Inductive trained (ok_reward : R -> Prop) : agent -> Prop :=
| trained_reset self : trained ok_reward (reset cfg self)
| trained_update self state action next_state reward self' :
    trained ok_reward self ->
    ok_reward reward ->
    _update metric_lp kernel_func cfg self state action next_state reward
    = Ok self' ->
    trained ok_reward self'
| trained_other self self' :
    trained ok_reward self -> same_model self self' ->
    trained ok_reward self'.

(** What the interaction with the environment leaves as it is: the
    value tables, the recommended policy and the counters. *)
Definition same_values (self self' : agent) : Prop :=
  V self' = V self /\ Q self' = Q self /\ Q_policy self' = Q_policy self /\
  episode self' = episode self /\ _rewards self' = _rewards self /\
  _cumul_rewards self' = _cumul_rewards self.

(** The two arrays after [k] iterations of the loop of [fit]. *)
Definition rewards_inv (k : nat) (self : agent) : Prop :=
  length (_rewards self) = n_episodes cfg /\
  length (_cumul_rewards self) = n_episodes cfg /\
  (forall j, (k <= j < n_episodes cfg)%nat -> _cumul_rewards self !! j = Some 0) /\
  ((0 < n_episodes cfg)%nat -> _cumul_rewards self !! 0%nat = Some 0) /\
  (forall j, (1 <= j < k)%nat ->
   exists r c, _rewards self !! j = Some r /\
     _cumul_rewards self !! (j - 1)%nat = Some c /\
     _cumul_rewards self !! j = Some (r + c)).

End Specification.

(** * A run of the agent

    [metric_lp], [kernel_func] and the two solvers live in other modules
    of the package.  To run the agent they are given the definitions
    that the specification describes. *)

(** Modelled from the spec: [metric_lp] of [rlberry.agents.utils.metrics],
    the Lp distance of two element-wise scaled vectors,
    [(Σ |(a_i - b_i) / scaling_i|^p)^(1/p)], for an integer [p >= 1]. *)
Definition metric_lp_spec (x y : vec) (p : Z) (scaling : vec) : R :=
  let d := zip_with (fun ab s => Rabs ((ab.1 - ab.2) / s)) (zip x y) scaling in
  let s := sum (map (fun t => t ^ Z.to_nat p) d) in
  if Reqb s 0 then 0 else Rpower s (1 / IZR p).

(** Modelled from the spec: [kernel_func] of
    [rlberry.agents.kernel_based.kernels], for the "epanechnikov"
    kernel, [max(0, 1 - z^2)] for [z] in [[0, 1]] and 0 beyond; an
    unrecognised kernel type is a fatal error. *)
Definition kernel_func_spec (z : R) (kernel_type : string) : result R :=
  if String.eqb kernel_type "epanechnikov"
  then Ok (if Rltb 1 z then 0 else Rmax 0 (1 - z * z))
  else Raise NotImplementedError.

(** Modelled from the spec: the backward induction of
    [rlberry.agents.dynprog.utils].  [V[horizon, s] = 0],
    [Q[h, s, a] = R[s, a] + gamma * Σ_s' P[s, a, s'] * V[h+1, s']]
    clipped to [[0, v_max]], [V[h, s] = max_a Q[h, s, a]]; both tables
    are computed from scratch.  [solve] returns the tables of the last
    [horizon] steps; [backward_induction] has no [v_max]. *)
Definition clip (x : R) (vmax : dist_bound) : R :=
  match vmax with
  | Inf => Rmax x 0
  | Finite m => Rmin (Rmax x 0) m
  end.

Definition dot (p v : vec) : R := sum (zip_with Rmult p v).

Definition solve_layer (Rw : mat) (P : ten) (gamma : R) (vmax : dist_bound)
    (v_next : vec) : mat :=
  zip_with
    (fun r_s p_s =>
       zip_with (fun r p_sa => clip (r + gamma * dot p_sa v_next) vmax) r_s p_s)
    Rw P.

Fixpoint solve (Rw : mat) (P : ten) (gamma : R) (vmax : dist_bound)
    (horizon : nat) : ten * mat :=
  match horizon with
  | O => ([], [])
  | S h =>
      let '(q, v) := solve Rw P gamma vmax h in
      let v_next := match v with [] => zeros (length Rw) | v0 :: _ => v0 end in
      let q0 := solve_layer Rw P gamma vmax v_next in
      (q0 :: q, map (foldr Rmax 0) q0 :: v)
  end.

Definition backward_induction_spec (Rw : mat) (P : ten) (horizon : nat)
    (gamma : R) : result (ten * mat) :=
  Ok (solve Rw P gamma Inf horizon).

Definition backward_induction_in_place_spec (Qv : ten) (Vv : mat) (Rw : mat)
    (P : ten) (horizon : nat) (gamma vmax : R) : result (ten * mat) :=
  Ok (solve Rw P gamma (Finite vmax) horizon).

(** An environment with one state, whose every step pays 1. *)
Definition demo_reset (e : unit) : vec * unit := ([0], e).
Definition demo_step (e : unit) (action : nat) : (vec * R * bool) * unit :=
  (([0], 1, false), e).

(** Two episodes of one step without discount, one action, room for two
    representatives; the other parameters as [__init__] defaults them. *)
Definition demo_cfg : config :=
  {| n_episodes := 2; gamma := 1; horizon := 1; lp_metric := 2;
     kernel_type := "epanechnikov"; scaling := [1]; bandwidth := 5/100;
     min_dist := 1/10; max_repr := 2; bonus_scale_factor := 1;
     beta := 1/100; bonus_type := "simplified_bernstein"; v_max := 1;
     A := 1; state_dim := 1 |}.

Definition demo_agent : agent unit := new_agent demo_cfg tt.

(** The same configuration with a bonus type that is not implemented. *)
Definition hoeffding_cfg : config :=
  {| n_episodes := 2; gamma := 1; horizon := 1; lp_metric := 2;
     kernel_type := "epanechnikov"; scaling := [1]; bandwidth := 5/100;
     min_dist := 1/10; max_repr := 2; bonus_scale_factor := 1;
     beta := 1/100; bonus_type := "hoeffding"; v_max := 1;
     A := 1; state_dim := 1 |}.

(** The same configuration with no episode at all. *)
Definition idle_cfg : config :=
  {| n_episodes := 0; gamma := 1; horizon := 1; lp_metric := 2;
     kernel_type := "epanechnikov"; scaling := [1]; bandwidth := 5/100;
     min_dist := 1/10; max_repr := 2; bonus_scale_factor := 1;
     beta := 1/100; bonus_type := "simplified_bernstein"; v_max := 1;
     A := 1; state_dim := 1 |}.

(** The agent that [fit] returns when it runs no episode. *)
Definition idle_fitted : agent unit :=
  {| env := tt; M := 0; representative_states := [[0]; [0]];
     N_sa := [[0]; [0]]; B_sa := [[1]; [1]]; R_hat := [[0]; [0]];
     P_hat := [[[0; 0]]; [[0; 0]]];
     V := [[0; 0]]; Q := [[[0]; [0]]]; Q_policy := Some [[]]; episode := 0;
     _rewards := []; _cumul_rewards := [] |}.

(** The agent after the transition [([0], 0, [0], 1)]. *)
Definition demo_agent_1 : agent unit :=
  {| env := tt; M := 1; representative_states := [[0]; [0]];
     N_sa := [[1]; [0]];
     B_sa := [[1 * sqrt (1 / (1/100 + 1)) + (1 + 1/100) * 1 / (1/100 + 1)]; [1]];
     R_hat := [[100/101]; [0]];
     P_hat := [[[100/101; 0]]; [[0; 0]]];
     V := [[0; 0]]; Q := [[[0]; [0]]]; Q_policy := None; episode := 0;
     _rewards := []; _cumul_rewards := [] |}.

(** The agent at the start of [fit], after one episode and after two,
    for any contents of the counter and of the two reward arrays. *)
Definition demo_stage_0 (ep : nat) (rewards cumul : vec) : agent unit :=
  {| env := tt; M := 0; representative_states := [[0]; [0]];
     N_sa := [[0]; [0]]; B_sa := [[1]; [1]]; R_hat := [[0]; [0]];
     P_hat := [[[0; 0]]; [[0; 0]]];
     V := [[0; 0]]; Q := [[[0]; [0]]]; Q_policy := None; episode := ep;
     _rewards := rewards; _cumul_rewards := cumul |}.

Definition demo_stage_1 (ep : nat) (rewards cumul : vec) : agent unit :=
  {| env := tt; M := 1; representative_states := [[0]; [0]];
     N_sa := [[1]; [0]];
     B_sa := [[1 * sqrt (1 / (1/100 + 1)) + (1 + 1/100) * 1 / (1/100 + 1)]; [1]];
     R_hat := [[100/101]; [0]];
     P_hat := [[[100/101; 0]]; [[0; 0]]];
     V := [[1; 0]]; Q := [[[1]; [0]]]; Q_policy := None; episode := ep;
     _rewards := rewards; _cumul_rewards := cumul |}.

Definition demo_stage_2 (ep : nat) (rewards cumul : vec) (q_policy : option ten)
    : agent unit :=
  {| env := tt; M := 1; representative_states := [[0]; [0]];
     N_sa := [[2]; [0]];
     B_sa := [[1 * sqrt (1 / (1/100 + 2)) + (1 + 1/100) * 1 / (1/100 + 2)]; [1]];
     R_hat := [[200/201]; [0]];
     P_hat := [[[200/201; 0]]; [[0; 0]]];
     V := [[1; 0]]; Q := [[[1]; [0]]]; Q_policy := q_policy; episode := ep;
     _rewards := rewards; _cumul_rewards := cumul |}.

(** The agent that [fit] returns. *)
Definition demo_fitted : agent unit :=
  demo_stage_2 2 [1; 1] [0; 1] (Some [[[200/201]]]).

Definition demo_update (self : agent unit) : result (agent unit) :=
  _update metric_lp_spec kernel_func_spec demo_cfg self [0] 0 [0] 1.

Definition demo_run_episode (self : agent unit) : result (R * agent unit) :=
  _run_episode metric_lp_spec kernel_func_spec demo_reset demo_step
    backward_induction_in_place_spec demo_cfg self.

Definition demo_fit (self : agent unit) : result (nat * vec * agent unit) :=
  fit metric_lp_spec kernel_func_spec demo_reset demo_step
    backward_induction_spec backward_induction_in_place_spec demo_cfg self.

(** * Specification of the set of representatives and of the bonuses *)

Section Representation.

Variable metric_lp : vec -> vec -> Z -> vec -> R.
Variable env_t : Type.
Variable cfg : config.

(** Any two of the first [m] representatives are more than [min_dist]
    apart, the distance being the one that [map_to_representative]
    measured when it created the later of the two. *)
Definition separated (representative_states : list vec) (m : nat) : Prop :=
  forall i j ri rj, (i < j)%nat -> (j < m)%nat ->
    representative_states !! i = Some ri ->
    representative_states !! j = Some rj ->
    min_dist cfg < metric_lp rj ri (lp_metric cfg) (scaling cfg).

(** The representatives of [self'] extend those of [self]: the array
    has kept its size, and its first [M self] rows their contents. *)
Definition extends (self self' : agent env_t) : Prop :=
  (M self <= M self')%nat /\
  (M self' <= length (representative_states self'))%nat /\
  length (representative_states self') = length (representative_states self) /\
  forall j, (j < M self)%nat ->
    representative_states self' !! j = representative_states self !! j.

(** The bonus of a pair is the one of [reset], the pair having no
    weight, or the one that [compute_bonus] gives for its weight. *)
Definition bonus_ok (N B : mat) : Prop :=
  forall u a n b, get2 N u a = Ok n -> get2 B u a = Ok b ->
    (n = 0 /\ b = v_max cfg) \/
    compute_bonus n (beta cfg) (bonus_scale_factor cfg) (v_max cfg)
      (bonus_type cfg) = Ok b.

End Representation.

(** * The constructor

    [__init__] checks [gamma], gives [horizon] its default value and
    derives [v_max] from the range of the rewards of the environment.
    [horizon] is the argument, [None] when it is not given;
    [reward_range] is [env.reward_range], an end being [None] when it
    is infinite: the lower end is [-np.inf] or a real, the upper end
    [np.inf] or a real. *)

Definition Rleb (a b : R) : bool := if Rle_dec a b then true else false.

(** [np.ceil] *)
Definition ceil (x : R) : Z := (1 - up (- x))%Z.

(** [r_range]: the width of the range, [np.inf] when an end is
    infinite, which is then clipped to 1. *)
Definition reward_span (reward_range : option R * option R) : R :=
  let r_range :=
    match reward_range with
    | (Some r_lo, Some r_hi) => Finite (r_hi - r_lo)
    | _ => Inf
    end in
  match r_range with
  | Inf => 1
  | Finite r => r
  end.

(** The values that [__init__] gives to [self.horizon] and
    [self.v_max].  Without discount [v_max] is computed from the
    argument [horizon], which is given then: the assertion on [gamma]
    has failed otherwise. *)
Definition init_values (gamma : R) (horizon : option nat)
    (reward_range : option R * option R) : result (nat * R) :=
  (* other checks *)
  if negb (Rleb 0 gamma && Rleb gamma 1) then Raise AssertionError else
  self_horizon ←
    match horizon with
    | None =>
        if negb (Rltb gamma 1) then Raise AssertionError
        else Ok (Z.to_nat (ceil (1 / (1 - gamma))))
    | Some h => Ok h
    end;
  (* maximum value *)
  let r_range := reward_span reward_range in
  v_max ←
    (if Reqb gamma 1 then
       match horizon with
       | Some h => Ok (r_range * INR h)
       | None => Raise AssertionError
       end
     else Ok (r_range * (1 - gamma ^ self_horizon) / (1 - gamma)));
  Ok (self_horizon, v_max).

(** The largest discounted sum of [n] rewards of at most 1:
    [1 + gamma + ... + gamma^(n-1)]. *)
Definition discounted_steps (gamma : R) (n : nat) : R :=
  sum (map (pow gamma) (seq 0 n)).

(** * A second run

    The agent after the transition [([0], 0, [1], 1)]: the two states
    are further apart than [min_dist] and than the bandwidth, so that
    each becomes a representative and the second receives no weight. *)
Definition demo_agent_2 : agent unit :=
  {| env := tt; M := 2; representative_states := [[0]; [1]];
     N_sa := [[1]; [0]];
     B_sa := [[1 * sqrt (1 / (1/100 + 1)) + (1 + 1/100) * 1 / (1/100 + 1)];
              [1 * sqrt (1 / (1/100 + 0)) + (1 + 1/100) * 1 / (1/100 + 0)]];
     R_hat := [[100/101]; [0]];
     P_hat := [[[0; 100/101]]; [[0; 0]]];
     V := [[0; 0]]; Q := [[[0]; [0]]]; Q_policy := None; episode := 0;
     _rewards := []; _cumul_rewards := [] |}.

(** The agent between the two calls of [_map_to_repr] of the first
    transition: the state [[0]] has become the representative 0. *)
Definition demo_agent_mapped : agent unit :=
  {| env := tt; M := 1; representative_states := [[0]; [0]];
     N_sa := [[0]; [0]]; B_sa := [[1]; [1]]; R_hat := [[0]; [0]];
     P_hat := [[[0; 0]]; [[0; 0]]];
     V := [[0; 0]]; Q := [[[0]; [0]]]; Q_policy := None; episode := 0;
     _rewards := []; _cumul_rewards := [] |}.

(** The configuration of the run without room for a representative. *)
Definition no_room_cfg : config :=
  {| n_episodes := 2; gamma := 1; horizon := 1; lp_metric := 2;
     kernel_type := "epanechnikov"; scaling := [1]; bandwidth := 5/100;
     min_dist := 1/10; max_repr := 0; bonus_scale_factor := 1;
     beta := 1/100; bonus_type := "simplified_bernstein"; v_max := 1;
     A := 1; state_dim := 1 |}.

(** * A choice between actions

    Three actions, two steps, two representatives at 0 and 1.  The
    two tables hold values that tell the layers, the rows and the
    actions apart, with a tie in every row of the layers that are
    read. *)
Definition greedy_cfg : config :=
  {| n_episodes := 2; gamma := 1; horizon := 2; lp_metric := 2;
     kernel_type := "epanechnikov"; scaling := [1]; bandwidth := 5/100;
     min_dist := 1/10; max_repr := 2; bonus_scale_factor := 1;
     beta := 1/100; bonus_type := "simplified_bernstein"; v_max := 2;
     A := 3; state_dim := 1 |}.

(** The same configuration with a discount. *)
Definition discounted_cfg : config :=
  {| n_episodes := 2; gamma := 1/2; horizon := 2; lp_metric := 2;
     kernel_type := "epanechnikov"; scaling := [1]; bandwidth := 5/100;
     min_dist := 1/10; max_repr := 2; bonus_scale_factor := 1;
     beta := 1/100; bonus_type := "simplified_bernstein"; v_max := 3/2;
     A := 3; state_dim := 1 |}.

Definition greedy_agent : agent unit :=
  {| env := tt; M := 2; representative_states := [[0]; [1]];
     N_sa := [[0; 0; 0]; [0; 0; 0]];
     B_sa := [[2; 2; 2]; [2; 2; 2]];
     R_hat := [[0; 0; 0]; [0; 0; 0]];
     P_hat := [[[0; 0]; [0; 0]; [0; 0]]; [[0; 0]; [0; 0]; [0; 0]]];
     V := [[4; 6]; [3; 5]];
     Q := [[[4; 1; 4]; [6; 6; 2]]; [[1; 3; 3]; [2; 5; 5]]];
     Q_policy := Some [[[1; 1; 0]; [0; 7; 7]]; [[9; 0; 0]; [8; 0; 0]]];
     episode := 2; _rewards := [0; 0]; _cumul_rewards := [0; 0] |}.

(** * Properties *)

(** ** Comparisons, division and loops *)

Lemma Rltb_spec (a b : R) : Rltb a b = true <-> a < b.
Proof.
  unfold Rltb. destruct (Rlt_dec a b); split; intros; try easy.
Qed.

Lemma Rltb_true (a b : R) : a < b -> Rltb a b = true.
Proof. apply Rltb_spec. Qed.

Lemma Rltb_false (a b : R) : b <= a -> Rltb a b = false.
Proof.
  intros H. destruct (Rltb a b) eqn:E; [|reflexivity].
  apply Rltb_spec in E. lra.
Qed.

Lemma Reqb_spec (a b : R) : Reqb a b = true <-> a = b.
Proof.
  unfold Reqb. destruct (Req_dec_T a b); split; intros; try easy.
Qed.

Lemma Reqb_refl (a : R) : Reqb a a = true.
Proof. now apply Reqb_spec. Qed.

Lemma Reqb_false (a b : R) : a <> b -> Reqb a b = false.
Proof.
  intros H. destruct (Reqb a b) eqn:E; [|reflexivity].
  apply Reqb_spec in E. contradiction.
Qed.

Lemma fdiv_ok (x y : R) : y <> 0 -> fdiv x y = Ok (x / y).
Proof. intros H. unfold fdiv. now rewrite Reqb_false. Qed.

Lemma fdiv_zero (x : R) : fdiv x 0 = Raise ZeroDivisionError.
Proof. unfold fdiv. now rewrite Reqb_refl. Qed.

Lemma for_loop_app {St : Type} (l1 l2 : list nat)
    (body : nat -> St -> result St) (s : St) :
  for_loop (l1 ++ l2) body s = (s' ← for_loop l1 body s; for_loop l2 body s').
Proof.
  revert s. induction l1 as [|i l1 IH]; intros s; simpl; [reflexivity|].
  destruct (body i s) as [s'|e]; simpl; [apply IH | reflexivity].
Qed.

Lemma range_S (n : nat) : range (S n) = range n ++ [n].
Proof. unfold range. now rewrite seq_S. Qed.

Lemma for_loop_S {St : Type} (n : nat) (body : nat -> St -> result St) (s : St) :
  for_loop (range (S n)) body s
  = (s' ← for_loop (range n) body s; body n s').
Proof.
  rewrite range_S, for_loop_app.
  destruct (for_loop (range n) body s) as [s'|e]; simpl; [|reflexivity].
  now destruct (body n s').
Qed.

(** A loop whose body keeps an invariant and never raises under it runs
    to its end and establishes the invariant. *)
Lemma for_loop_inv {St : Type} (I : nat -> St -> Prop) (n : nat)
    (body : nat -> St -> result St) (s : St) :
  I 0%nat s ->
  (forall i x, (i < n)%nat -> I i x -> exists y, body i x = Ok y /\ I (S i) y) ->
  exists y, for_loop (range n) body s = Ok y /\ I n y.
Proof.
  intros H0 Hstep. induction n as [|n IH].
  - exists s. now split.
  - destruct IH as (x & Hx & Ix).
    { intros i y Hi. apply Hstep. lia. }
    destruct (Hstep n x (Nat.lt_succ_diag_r n) Ix) as (y & Hy & Iy).
    exists y. split; [|exact Iy].
    rewrite for_loop_S, Hx. simpl. exact Hy.
Qed.

(** ** The exploration bonus *)

Lemma compute_bonus_value (sum_weights beta bonus_scale_factor v_max : R) :
  beta + sum_weights <> 0 ->
  compute_bonus sum_weights beta bonus_scale_factor v_max simplified_bernstein
  = Ok (bonus_scale_factor * sqrt (1 / (beta + sum_weights))
        + (1 + beta) * v_max / (beta + sum_weights)).
Proof.
  intros Hn. unfold compute_bonus. simpl String.eqb.
  rewrite !fdiv_ok by assumption. reflexivity.
Qed.

Lemma compute_bonus_unknown (sum_weights beta bonus_scale_factor v_max : R)
    (bonus_type : string) :
  bonus_type <> simplified_bernstein ->
  compute_bonus sum_weights beta bonus_scale_factor v_max bonus_type
  = Raise NotImplementedError.
Proof.
  intros H. unfold compute_bonus.
  destruct (String.eqb_spec bonus_type "simplified_bernstein") as [E|E];
    [contradiction | reflexivity].
Qed.

Lemma compute_bonus_zero (beta bonus_scale_factor v_max : R) :
  compute_bonus (- beta) beta bonus_scale_factor v_max simplified_bernstein
  = Raise ZeroDivisionError.
Proof.
  unfold compute_bonus. simpl String.eqb.
  replace (beta + - beta) with 0 by lra. rewrite !fdiv_zero. reflexivity.
Qed.

(** C4. With the bonus type "simplified_bernstein", [beta > 0],
    [bonus_scale_factor >= 0] and [v_max >= 0], [compute_bonus] returns
    [bonus_scale_factor * sqrt(1/n) + (1+beta)*v_max/n] for
    [n = beta + sum_weights], and the more weight has accumulated the
    smaller the bonus: for [0 <= n1 <= n2] the bonus at [n2] is at most
    the bonus at [n1]. *)
Theorem compute_bonus_monotone (beta bonus_scale_factor v_max n1 n2 : R) :
  0 < beta -> 0 <= bonus_scale_factor -> 0 <= v_max -> 0 <= n1 -> n1 <= n2 ->
  exists b1 b2 : R,
    compute_bonus n1 beta bonus_scale_factor v_max simplified_bernstein = Ok b1 /\
    compute_bonus n2 beta bonus_scale_factor v_max simplified_bernstein = Ok b2 /\
    b1 = bonus_scale_factor * sqrt (1 / (beta + n1))
         + (1 + beta) * v_max / (beta + n1) /\
    b2 = bonus_scale_factor * sqrt (1 / (beta + n2))
         + (1 + beta) * v_max / (beta + n2) /\
    b2 <= b1.
Proof.
  intros Hb Hs Hv H1 H12.
  eexists; eexists.
  split; [apply compute_bonus_value; lra|].
  split; [apply compute_bonus_value; lra|].
  split; [reflexivity|]. split; [reflexivity|].
  assert (Hinv : / (beta + n2) <= / (beta + n1))
    by (apply Rinv_le_contravar; lra).
  assert (Hpos : 0 < / (beta + n2)) by (apply Rinv_0_lt_compat; lra).
  apply Rplus_le_compat.
  - apply Rmult_le_compat_l; [assumption|].
    apply sqrt_le_1_alt. unfold Rdiv. lra.
  - unfold Rdiv. apply Rmult_le_compat_l; [|assumption].
    apply Rmult_le_pos; lra.
Qed.

Lemma compute_bonus_monotone_witness :
  exists b1 b2 : R,
    compute_bonus 0 (1/100) 1 1 simplified_bernstein = Ok b1 /\
    compute_bonus 1 (1/100) 1 1 simplified_bernstein = Ok b2 /\
    b2 <= b1.
Proof.
  destruct (compute_bonus_monotone (1/100) 1 1 0 1)
    as (b1 & b2 & E1 & E2 & _ & _ & Hle); try lra.
  exists b1, b2. auto.
Defined.

(** [compute_bonus] raises [NotImplementedError] exactly when the bonus
    type is not "simplified_bernstein"; with "simplified_bernstein" and
    [n = beta + sum_weights > 0] it returns a value, so that for [n > 0]
    it raises if and only if the bonus type is unknown. *)
Lemma compute_bonus_raises
    (sum_weights beta bonus_scale_factor v_max : R) (bonus_type : string) :
  (compute_bonus sum_weights beta bonus_scale_factor v_max bonus_type
   = Raise NotImplementedError <-> bonus_type <> simplified_bernstein) /\
  (bonus_type = simplified_bernstein -> 0 < beta + sum_weights ->
   compute_bonus sum_weights beta bonus_scale_factor v_max bonus_type
   = Ok (bonus_scale_factor * sqrt (1 / (beta + sum_weights))
         + (1 + beta) * v_max / (beta + sum_weights))) /\
  (0 < beta + sum_weights ->
   (raises (compute_bonus sum_weights beta bonus_scale_factor v_max bonus_type)
    <-> bonus_type <> simplified_bernstein)).
Proof.
  assert (Hval : bonus_type = simplified_bernstein -> 0 < beta + sum_weights ->
    compute_bonus sum_weights beta bonus_scale_factor v_max bonus_type
    = Ok (bonus_scale_factor * sqrt (1 / (beta + sum_weights))
          + (1 + beta) * v_max / (beta + sum_weights))).
  { intros -> Hn. apply compute_bonus_value. lra. }
  split; [|split].
  - split.
    + intros Hr ->. unfold compute_bonus in Hr. simpl String.eqb in Hr.
      unfold fdiv in Hr.
      destruct (Reqb (beta + sum_weights) 0); discriminate.
    + apply compute_bonus_unknown.
  - exact Hval.
  - intros Hn. split.
    + intros [e He] Heq. rewrite (Hval Heq Hn) in He. discriminate.
    + intros Hne. exists NotImplementedError.
      now apply compute_bonus_unknown.
Qed.

(** ** The representative-state map *)

Section Representatives.

Variable metric_lp : vec -> vec -> Z -> vec -> R.
Variables (state : vec) (lp_metric : Z) (scaling : vec).
Variable representative_states : list vec.

Local Abbreviation dist row := (metric_lp state row lp_metric scaling).
Local Abbreviation closest :=
  (closest metric_lp state lp_metric scaling representative_states).
Local Abbreviation beyond :=
  (beyond metric_lp state lp_metric scaling representative_states).
Local Abbreviation create :=
  (create metric_lp state lp_metric scaling representative_states).
Local Abbreviation scan_inv :=
  (scan_inv metric_lp state lp_metric scaling representative_states).

Lemma closest_first (row : vec) :
  representative_states !! 0%nat = Some row -> closest 1 0 row.
Proof.
  intros H0. split; [lia|]. split; [exact H0|].
  intros j rj Hj Hrj. assert (j = 0%nat) as -> by lia.
  rewrite H0 in Hrj. injection Hrj as <-. split; [lra | lia].
Qed.

Lemma closest_take (i k : nat) (rk row : vec) :
  closest i k rk -> representative_states !! i = Some row ->
  dist row < dist rk -> closest (S i) i row.
Proof.
  intros (Hk & Hrk & Hmin) Hi Hlt. split; [lia|]. split; [exact Hi|].
  intros j rj Hj Hrj. destruct (Nat.eq_dec j i) as [->|Hne].
  - rewrite Hi in Hrj. injection Hrj as <-. split; [lra | lia].
  - destruct (Hmin j rj) as [Hle _]; [lia | exact Hrj |]. split; intros; lra.
Qed.

Lemma closest_keep (i k : nat) (rk row : vec) :
  closest i k rk -> representative_states !! i = Some row ->
  dist rk <= dist row -> closest (S i) k rk.
Proof.
  intros (Hk & Hrk & Hmin) Hi Hle. split; [lia|]. split; [exact Hrk|].
  intros j rj Hj Hrj. destruct (Nat.eq_dec j i) as [->|Hne].
  - rewrite Hi in Hrj. injection Hrj as <-. split; [lra | lia].
  - apply Hmin; [lia | exact Hrj].
Qed.

Lemma closest_dist_unique (n k k' : nat) (rk rk' : vec) :
  closest n k rk -> closest n k' rk' -> dist rk = dist rk'.
Proof.
  intros (Hk & Hrk & Hmin) (Hk' & Hrk' & Hmin').
  destruct (Hmin k' rk' Hk' Hrk') as [H1 _].
  destruct (Hmin' k rk Hk Hrk) as [H2 _]. lra.
Qed.

(** The scan of [map_to_representative] runs to its end and leaves the
    closest representative, or [(np.inf, -1)] when there is none. *)
Lemma scan_closest (n : nat) :
  (n <= length representative_states)%nat ->
  exists acc,
    for_loop (range n)
      (scan_step metric_lp state lp_metric representative_states scaling)
      (Inf, (-1)%Z) = Ok acc /\ scan_inv n acc.
Proof.
  intros Hn. apply for_loop_inv; [reflexivity|].
  intros i [b am] Hi Hinv.
  destruct (lookup_lt_is_Some_2 representative_states i) as [row Hrow]; [lia|].
  unfold scan_step, get. rewrite Hrow. simpl.
  destruct i as [|i]; simpl in Hinv.
  - injection Hinv as -> ->. simpl. eexists. split; [reflexivity|].
    exists 0%nat, row. split; [now apply closest_first | reflexivity].
  - destruct Hinv as (k & rk & Hc & E). injection E as -> ->. simpl.
    destruct (Rltb (dist row) (dist rk)) eqn:Hlt.
    + apply Rltb_spec in Hlt. eexists. split; [reflexivity|].
      exists (S i), row. split; [|reflexivity]. now apply (closest_take _ k rk).
    + eexists. split; [reflexivity|].
      exists k, rk. split; [|reflexivity].
      apply closest_keep with (row := row); try assumption.
      destruct (Rle_or_lt (dist rk) (dist row)) as [H|H]; [exact H|].
      apply Rltb_spec in H. congruence.
Qed.

Lemma map_to_representative_cases (n : nat) (min_dist : R) (accept : bool) :
  (n <= length representative_states)%nat ->
  let call :=
    map_to_representative metric_lp state lp_metric representative_states n
      min_dist scaling accept in
  (create n min_dist accept /\
   call = Ok (Z.of_nat n, <[n := state]> representative_states)) \/
  (~ create n min_dist accept /\
   exists k rk, closest n k rk /\ call = Ok (Z.of_nat k, representative_states)) \/
  (~ create n min_dist accept /\ n = 0%nat /\
   call = Ok ((-1)%Z, representative_states)).
Proof.
  intros Hn call.
  destruct (scan_closest n Hn) as ([b am] & Hloop & Hinv).
  assert (Hcall : call =
    if gt_bound b min_dist && (n <? length representative_states)%nat && accept
    then Ok (Z.of_nat n, <[n := state]> representative_states)
    else Ok (am, representative_states)).
  { unfold call, map_to_representative. rewrite Hloop. reflexivity. }
  assert (Hfar : gt_bound b min_dist = true <-> beyond n min_dist).
  { destruct n as [|n]; simpl in Hinv.
    - injection Hinv as -> ->. simpl. split; [now left | reflexivity].
    - destruct Hinv as (k & rk & Hc & E). injection E as -> ->. simpl.
      rewrite Rltb_spec. split.
      + intros H. right. now exists k, rk.
      + intros [H | (k' & rk' & Hc' & H)]; [discriminate|].
        now rewrite (closest_dist_unique _ _ _ _ _ Hc Hc'). }
  assert (Hcond : gt_bound b min_dist
                  && (n <? length representative_states)%nat && accept = true
                  <-> create n min_dist accept).
  { unfold create. rewrite !andb_true_iff, Hfar, Nat.ltb_lt. tauto. }
  destruct (gt_bound b min_dist
            && (n <? length representative_states)%nat && accept) eqn:Hc.
  - left. split; [now apply Hcond | exact Hcall].
  - assert (~ create n min_dist accept) as Hno
      by (intros H; apply Hcond in H; discriminate).
    right. destruct n as [|n]; simpl in Hinv.
    + right. injection Hinv as -> ->. auto.
    + left. destruct Hinv as (k & rk & Hck & E). injection E as -> ->.
      split; [exact Hno|]. now exists k, rk.
Qed.

Lemma closest_lt (n k : nat) (rk : vec) : closest n k rk -> (k < n)%nat.
Proof. now intros [H _]. Qed.

(** C2, amended.  [map_to_representative] appends [state] at index
    [n_representatives] and returns that index exactly when the minimum
    distance is strictly greater than [min_dist], the active count is
    strictly below the capacity and [accept_new_repr] is true.  In every
    other case the array is left as it is and the index returned is the
    one of the closest representative, the lowest among ties, however
    far it is, when there is at least one representative; it is [-1]
    when there is none. *)
Theorem map_to_representative_spec (n : nat) (min_dist : R) (accept : bool) :
  (n <= length representative_states)%nat ->
  let call :=
    map_to_representative metric_lp state lp_metric representative_states n
      min_dist scaling accept in
  (create n min_dist accept ->
   call = Ok (Z.of_nat n, <[n := state]> representative_states)) /\
  (~ create n min_dist accept -> (0 < n)%nat ->
   exists k rk, closest n k rk /\ call = Ok (Z.of_nat k, representative_states)) /\
  (~ create n min_dist accept -> n = 0%nat ->
   call = Ok ((-1)%Z, representative_states)).
Proof.
  intros Hn call.
  destruct (map_to_representative_cases n min_dist accept Hn)
    as [[Hc E] | [(Hc & k & rk & Hk & E) | (Hc & Hz & E)]]; fold call in E.
  - split; [intros _; exact E|]. split; intros; contradiction.
  - split; [intros; contradiction|]. split.
    + intros _ _. now exists k, rk.
    + intros _ ->. apply closest_lt in Hk. lia.
  - split; [intros; contradiction|]. split.
    + intros _ Hpos. lia.
    + intros _ _. exact E.
Qed.

End Representatives.

(** ** The agent's map *)

Section AgentMap.

Variable metric_lp : vec -> vec -> Z -> vec -> R.
Variable env_t : Type.
Variable cfg : config.

Local Abbreviation agent := (agent env_t).
Local Abbreviation greedy_last := (greedy_last cfg).

Lemma get_z_minus_one {T : Type} (a : list T) : get_z a (-1) = last_row a.
Proof.
  unfold get_z, last_row, np_index, get.
  destruct a as [|x a] using rev_ind; [reflexivity|].
  rewrite last_snoc, length_app. simpl length.
  replace (0 <=? -1)%Z with false by reflexivity. simpl andb.
  replace (-1 <? 0)%Z with true by reflexivity.
  replace (- Z.of_nat (length a + 1) <=? -1)%Z with true
    by (symmetry; apply Z.leb_le; lia).
  simpl.
  replace (Z.to_nat (Z.of_nat (length a + 1) + -1)) with (length a) by lia.
  now rewrite list_lookup_middle.
Qed.

Lemma last_row_get {T : Type} (a : list T) :
  last_row a = get a (length a - 1).
Proof.
  unfold last_row, get. rewrite last_lookup.
  now replace (Init.Nat.pred (length a)) with (length a - 1)%nat by lia.
Qed.

Lemma agent_eta (self : agent) :
  {| env := env self; M := M self;
     representative_states := representative_states self;
     N_sa := N_sa self; B_sa := B_sa self; R_hat := R_hat self;
     P_hat := P_hat self; V := V self; Q := Q self;
     Q_policy := Q_policy self; episode := episode self;
     _rewards := _rewards self; _cumul_rewards := _cumul_rewards self |} = self.
Proof. now destruct self. Qed.

(** What a call of [_map_to_repr] is in terms of
    [map_to_representative]. *)
Lemma map_to_repr_unfold (self : agent) (state : vec) (accept : bool)
    (idx : Z) (reprs : list vec) :
  map_to_representative metric_lp state (lp_metric cfg)
    (representative_states self) (M self) (min_dist cfg) (scaling cfg) accept
  = Ok (idx, reprs) ->
  exists self',
    _map_to_repr metric_lp cfg self state accept = Ok (idx, self') /\
    M self' = (if (idx =? Z.of_nat (M self))%Z then S (M self) else M self) /\
    representative_states self' = reprs /\
    env self' = env self /\ N_sa self' = N_sa self /\ B_sa self' = B_sa self /\
    R_hat self' = R_hat self /\ P_hat self' = P_hat self /\ V self' = V self /\
    Q self' = Q self /\ Q_policy self' = Q_policy self /\
    episode self' = episode self /\ _rewards self' = _rewards self /\
    _cumul_rewards self' = _cumul_rewards self.
Proof.
  intros E. unfold _map_to_repr. rewrite E. simpl.
  eexists. split; [reflexivity|]. simpl. repeat split; reflexivity.
Qed.


(** With no representative and no creation, the index is [-1] and the
    agent is left as it is. *)
Lemma map_to_repr_none (self : agent) (state : vec) (accept : bool) :
  M self = 0%nat ->
  accept = false \/ length (representative_states self) = 0%nat ->
  map_to_representative metric_lp state (lp_metric cfg)
    (representative_states self) 0 (min_dist cfg) (scaling cfg) accept
  = Ok ((-1)%Z, representative_states self) /\
  _map_to_repr metric_lp cfg self state accept = Ok ((-1)%Z, self).
Proof.
  intros HM Hno.
  assert (E : map_to_representative metric_lp state (lp_metric cfg)
                (representative_states self) 0 (min_dist cfg) (scaling cfg)
                accept = Ok ((-1)%Z, representative_states self)).
  { unfold map_to_representative. simpl.
    destruct Hno as [-> | ->]; [|reflexivity].
    now rewrite andb_false_r. }
  split; [exact E|].
  unfold _map_to_repr. rewrite HM, E. simpl. rewrite <- HM.
  now rewrite agent_eta.
Qed.

Lemma greedy_minus_one (q : ten) (hh : nat) :
  greedy cfg q hh (-1) = greedy_last q hh.
Proof.
  unfold greedy, greedy_last.
  destruct (Reqb (gamma cfg) 1);
    (destruct (get q _) as [layer|e]; simpl;
     [now rewrite get_z_minus_one | reflexivity]).
Qed.

(** The read of the row [-1] of a layer: its last row when it has one,
    an error when it has none. *)
Lemma last_row_cases {T : Type} (layer : list T) :
  (layer = [] -> last_row layer = Raise IndexError) /\
  (forall row, layer !! (length layer - 1)%nat = Some row ->
     last_row layer = Ok row).
Proof.
  split; [now intros ->|].
  intros row Hrow. rewrite last_row_get. unfold get. now rewrite Hrow.
Qed.

Lemma greedy_last_cases (q : ten) (hh : nat) (layer : mat) :
  q !! (if Reqb (gamma cfg) 1 then hh else 0%nat) = Some layer ->
  (layer = [] -> greedy_last q hh = Raise IndexError) /\
  (forall row, layer !! (length layer - 1)%nat = Some row ->
     greedy_last q hh = argmax row).
Proof.
  intros Hl. unfold greedy_last, get. rewrite Hl. cbn [mbind result_bind].
  destruct (last_row_cases layer) as [Hnil Hlast]. split.
  - intros E. now rewrite (Hnil E).
  - intros row Hrow. now rewrite (Hlast row Hrow).
Qed.

(** C8, amended.  With no representative yet, and no creation
    ([accept_new_repr] false, or no capacity), [map_to_representative]
    returns [-1], which is not the index of a representative;
    [_get_action] and [policy] then read the row [-1] of the layer of
    their table, which is its last row when it has one and an
    [IndexError] when it has none.  The layers of [Q] have the
    [max_repr] rows that [reset] gave them: right after [reset] the row
    read is the reserved row [max_repr - 1], all zeros, and the read
    fails when [max_repr = 0].  [Q_policy] has the rows that the final
    solve returned, of which nothing is reserved. *)
Theorem no_representative_minus_one (self : agent) (state : vec) (hh : nat) :
  M self = 0%nat ->
  (forall accept,
     accept = false \/ length (representative_states self) = 0%nat ->
     map_to_representative metric_lp state (lp_metric cfg)
       (representative_states self) (M self) (min_dist cfg) (scaling cfg)
       accept
     = Ok ((-1)%Z, representative_states self)) /\
  ~ (0 <= -1 < Z.of_nat (M self))%Z /\
  _get_action metric_lp cfg self state hh
  = (action ← greedy_last (Q self) hh; Ok (action, self)) /\
  (forall q_policy, Q_policy self = Some q_policy ->
   policy metric_lp cfg self state hh
   = (action ← greedy_last q_policy hh; Ok (action, self))) /\
  (forall layer : mat,
     Q self !! (if Reqb (gamma cfg) 1 then hh else 0%nat) = Some layer ->
     (layer = [] ->
      _get_action metric_lp cfg self state hh = Raise IndexError) /\
     (forall row, layer !! (length layer - 1)%nat = Some row ->
      _get_action metric_lp cfg self state hh
      = (action ← argmax row; Ok (action, self)))) /\
  (forall (q_policy : ten) (layer : mat),
     Q_policy self = Some q_policy ->
     q_policy !! (if Reqb (gamma cfg) 1 then hh else 0%nat) = Some layer ->
     (layer = [] ->
      policy metric_lp cfg self state hh = Raise IndexError) /\
     (forall row, layer !! (length layer - 1)%nat = Some row ->
      policy metric_lp cfg self state hh
      = (action ← argmax row; Ok (action, self)))) /\
  (forall self0 : agent,
     ((if Reqb (gamma cfg) 1 then hh else 0%nat) < horizon cfg)%nat ->
     Q (reset cfg self0) !! (if Reqb (gamma cfg) 1 then hh else 0%nat)
     = Some (zeros2 (max_repr cfg) (A cfg)) /\
     length (zeros2 (max_repr cfg) (A cfg)) = max_repr cfg /\
     ((0 < max_repr cfg)%nat ->
      zeros2 (max_repr cfg) (A cfg) !! (max_repr cfg - 1)%nat
      = Some (zeros (A cfg)) /\
      _get_action metric_lp cfg (reset cfg self0) state hh
      = (action ← argmax (zeros (A cfg)); Ok (action, reset cfg self0))) /\
     (max_repr cfg = 0%nat ->
      _get_action metric_lp cfg (reset cfg self0) state hh
      = Raise IndexError)).
Proof.
  assert (Hact : forall s : agent, M s = 0%nat ->
            _get_action metric_lp cfg s state hh
            = (action ← greedy_last (Q s) hh; Ok (action, s))).
  { intros s Hs. unfold _get_action.
    destruct (map_to_repr_none s state false Hs) as [_ ->]; [now left|].
    simpl. now rewrite greedy_minus_one. }
  assert (Hpol : forall q_policy, M self = 0%nat ->
            Q_policy self = Some q_policy ->
            policy metric_lp cfg self state hh
            = (action ← greedy_last q_policy hh; Ok (action, self))).
  { intros q_policy Hs Hq. unfold policy. rewrite Hq.
    destruct (map_to_repr_none self state false Hs) as [_ ->]; [now left|].
    simpl. now rewrite greedy_minus_one. }
  intros HM. split; [|split; [lia|split; [|split; [|split; [|split]]]]].
  - intros accept Hno. rewrite HM. now apply map_to_repr_none.
  - now apply Hact.
  - intros q_policy. now apply Hpol.
  - intros layer Hl. rewrite (Hact self HM).
    destruct (greedy_last_cases (Q self) hh layer Hl) as [Hnil Hlast]. split.
    + intros E. now rewrite (Hnil E).
    + intros row Hrow. now rewrite (Hlast row Hrow).
  - intros q_policy layer Hq Hl. rewrite (Hpol q_policy HM Hq).
    destruct (greedy_last_cases q_policy hh layer Hl) as [Hnil Hlast]. split.
    + intros E. now rewrite (Hnil E).
    + intros row Hrow. now rewrite (Hlast row Hrow).
  - intros self0 Hh.
    assert (Hl : Q (reset cfg self0) !! (if Reqb (gamma cfg) 1 then hh else 0%nat)
                 = Some (zeros2 (max_repr cfg) (A cfg)))
      by (cbn [Q reset]; unfold zeros3; now apply lookup_replicate_2).
    assert (Hlen : length (zeros2 (max_repr cfg) (A cfg)) = max_repr cfg)
      by (unfold zeros2; apply length_replicate).
    split; [exact Hl|]. split; [exact Hlen|].
    rewrite (Hact (reset cfg self0) eq_refl).
    destruct (greedy_last_cases (Q (reset cfg self0)) hh _ Hl) as [Hnil Hlast].
    split.
    + intros Hm.
      assert (Hrow : zeros2 (max_repr cfg) (A cfg) !! (max_repr cfg - 1)%nat
                     = Some (zeros (A cfg)))
        by (unfold zeros2; apply lookup_replicate_2; lia).
      split; [exact Hrow|]. rewrite (Hlast (zeros (A cfg))); [reflexivity|].
      now rewrite Hlen.
    + intros Hm. rewrite Hnil; [reflexivity|].
      unfold zeros2. now rewrite Hm.
Qed.

End AgentMap.

(** ** Arrays *)

Lemma bind_Ok {T U : Type} (c : result T) (k : T -> result U) (y : U) :
  (x ← c; k x) = Ok y -> exists x, c = Ok x /\ k x = Ok y.
Proof. destruct c as [x|e]; simpl; [eauto | discriminate]. Qed.

(** Splits the first binding of a computation that is known to return. *)
Ltac bind_inv H :=
  let x := fresh "x" in
  let E := fresh "E" in
  apply bind_Ok in H; destruct H as (x & E & H).

Lemma get_spec {T : Type} (a : list T) (i : nat) (x : T) :
  get a i = Ok x <-> a !! i = Some x.
Proof.
  unfold get. destruct (a !! i); split; intros H; try discriminate;
    now injection H as ->.
Qed.

Lemma get_lt {T : Type} (a : list T) (i : nat) :
  (i < length a)%nat -> exists x, get a i = Ok x /\ a !! i = Some x.
Proof.
  intros H. destruct (lookup_lt_is_Some_2 a i H) as [x Hx].
  exists x. split; [now apply get_spec | exact Hx].
Qed.

Lemma set_spec {T : Type} (a a' : list T) (i : nat) (x : T) :
  set a i x = Ok a' <-> (i < length a)%nat /\ a' = <[i := x]> a.
Proof.
  unfold set. destruct (i <? length a)%nat eqn:E.
  - apply Nat.ltb_lt in E. split.
    + intros H. now injection H as <-.
    + now intros [_ ->].
  - apply Nat.ltb_ge in E. split; [discriminate | intros [H _]; lia].
Qed.

Lemma get2_spec {T : Type} (a : list (list T)) (i j : nat) (x : T) :
  get2 a i j = Ok x <-> exists row, a !! i = Some row /\ row !! j = Some x.
Proof.
  unfold get2. split.
  - intros H. bind_inv H. exists x0. now rewrite <- !get_spec.
  - intros (row & Hi & Hj). apply get_spec in Hi. rewrite Hi. simpl.
    now apply get_spec.
Qed.

Lemma set2_spec {T : Type} (a a' : list (list T)) (i j : nat) (x : T) :
  set2 a i j x = Ok a' <->
  exists row, a !! i = Some row /\ (j < length row)%nat /\
              a' = <[i := <[j := x]> row]> a.
Proof.
  unfold set2. split.
  - intros H. bind_inv H. bind_inv H. apply get_spec in E.
    apply set_spec in E0 as [Hj ->]. apply set_spec in H as [_ ->]. eauto.
  - intros (row & Hi & Hj & ->).
    assert (Hlt : (i < length a)%nat) by (eapply lookup_lt_Some; eauto).
    apply get_spec in Hi. rewrite Hi. simpl.
    assert (E : set row j x = Ok (<[j := x]> row)) by now apply set_spec.
    rewrite E. simpl. now apply set_spec.
Qed.

Lemma get2_insert_eq {T : Type} (a : list (list T)) (i j : nat) (row : list T)
    (x : T) :
  a !! i = Some row -> (j < length row)%nat ->
  get2 (<[i := <[j := x]> row]> a) i j = Ok x.
Proof.
  intros Hi Hj. apply get2_spec. exists (<[j := x]> row). split.
  - apply list_lookup_insert_eq. eapply lookup_lt_Some; eauto.
  - now apply list_lookup_insert_eq.
Qed.

Lemma get2_insert_ne {T : Type} (a : list (list T)) (i j i' j' : nat)
    (row : list T) (x : T) :
  a !! i = Some row -> (i <> i' \/ j <> j') ->
  get2 (<[i := <[j := x]> row]> a) i' j' = get2 a i' j'.
Proof.
  intros Hi Hne. unfold get2, get.
  destruct (Nat.eq_dec i i') as [<-|Hii].
  - destruct Hne as [?|Hj]; [contradiction|].
    rewrite list_lookup_insert_eq by (eapply lookup_lt_Some; eauto).
    rewrite Hi. simpl. now rewrite list_lookup_insert_ne.
  - now rewrite list_lookup_insert_ne.
Qed.

(** Sums *)

Lemma sum_app (a b : vec) : sum (a ++ b) = sum a + sum b.
Proof. induction a as [|x a IH]; simpl; [|rewrite IH]; lra. Qed.

Lemma sum_all_zero (a : vec) : Forall (fun x => x = 0) a -> sum a = 0.
Proof. induction 1 as [|x a -> _ IH]; simpl; [|rewrite IH]; lra. Qed.

Lemma sum_take_drop (m : nat) (a : vec) :
  sum a = sum (take m a) + sum (drop m a).
Proof. now rewrite <- sum_app, take_drop. Qed.

Lemma zeros_all_zero (n : nat) : Forall (fun x => x = 0) (zeros n).
Proof. apply Forall_replicate. reflexivity. Qed.

Lemma sum_zeros (n : nat) : sum (zeros n) = 0.
Proof. apply sum_all_zero, zeros_all_zero. Qed.

(** The indicator of [k] among [n] states sums to one. *)
Lemma sum_dirac (n k : nat) : (k < n)%nat -> sum (<[k := 1]> (zeros n)) = 1.
Proof.
  revert k. induction n as [|n IH]; intros k Hk; [lia|].
  destruct k as [|k]; simpl.
  - fold (zeros n). rewrite sum_zeros. lra.
  - fold (zeros n). rewrite IH by lia. lra.
Qed.

Lemma dirac_nonneg (n k : nat) :
  Forall (fun x => 0 <= x) (<[k := 1]> (zeros n)).
Proof.
  apply Forall_insert; [|lra].
  apply Forall_replicate. lra.
Qed.

(** The mass of the mixture of two rows. *)
Lemma sum_mix (w cur c : R) (d q : vec) :
  length d = length q ->
  sum (zip_with (fun x y => x * w / cur + c * y) d q)
  = sum d * w / cur + c * sum q.
Proof.
  revert q. induction d as [|x d IH]; intros [|y q] Hlen; simpl in *;
    try discriminate.
  - unfold Rdiv. lra.
  - rewrite IH by lia. unfold Rdiv. lra.
Qed.

Lemma mix_nonneg (w cur c : R) (d q : vec) :
  0 <= w -> 0 < cur -> 0 <= c ->
  Forall (fun x => 0 <= x) d -> Forall (fun x => 0 <= x) q ->
  Forall (fun x => 0 <= x) (zip_with (fun x y => x * w / cur + c * y) d q).
Proof.
  intros Hw Hcur Hc Hd. revert q.
  induction Hd as [|x d Hx Hd IH]; intros q Hq; [constructor|].
  destruct Hq as [|y q Hy Hq]; simpl; constructor; [|now apply IH].
  assert (0 <= x * w / cur).
  { unfold Rdiv. apply Rmult_le_pos; [now apply Rmult_le_pos|].
    left. now apply Rinv_0_lt_compat. }
  assert (0 <= c * y) by now apply Rmult_le_pos.
  lra.
Qed.

(** ** The model updater *)

Lemma fdiv_inv (x y q : R) : fdiv x y = Ok q -> y <> 0 /\ q = x / y.
Proof.
  unfold fdiv. destruct (Reqb y 0) eqn:E; [discriminate|].
  intros H. injection H as <-. split; [|reflexivity].
  intros ->. now rewrite Reqb_refl in E.
Qed.

Lemma np_index_inv (len : nat) (i : Z) (k : nat) :
  np_index len i = Ok k -> (k < len)%nat.
Proof.
  unfold np_index.
  destruct ((0 <=? i)%Z && (i <? Z.of_nat len)%Z) eqn:E1.
  - intros H. injection H as <-. apply andb_true_iff in E1 as [H1 H2]. lia.
  - destruct ((- Z.of_nat len <=? i)%Z && (i <? 0)%Z) eqn:E2; [|discriminate].
    intros H. injection H as <-. apply andb_true_iff in E2 as [H1 H2]. lia.
Qed.

Lemma np_index_nat (len k : nat) :
  (k < len)%nat -> np_index len (Z.of_nat k) = Ok k.
Proof.
  intros H. unfold np_index.
  replace (0 <=? Z.of_nat k)%Z with true by (symmetry; apply Z.leb_le; lia).
  replace (Z.of_nat k <? Z.of_nat len)%Z with true
    by (symmetry; apply Z.ltb_lt; lia).
  simpl. now rewrite Nat2Z.id.
Qed.

Section Updater.

Variable metric_lp : vec -> vec -> Z -> vec -> R.
Variable kernel_func : R -> string -> result R.

(** What one iteration of the loop of [update_model] does to the row
    [u_repr_state] of the four tables. *)
Lemma update_step_inv (repr_state : Z) (action : nat) (reward : R) (m : nat)
    (repr_states : list vec) (lp : Z) (scaling : vec) (bandwidth : R)
    (bonus_scale_factor beta v_max : R) (bonus_type kernel_type : string)
    (dirac : vec) (i : nat) (N B : mat) (P : ten) (Rh : mat)
    (N' B' : mat) (P' : ten) (Rh' : mat) :
  update_step metric_lp kernel_func repr_state action reward m repr_states lp
    scaling bandwidth bonus_scale_factor beta v_max bonus_type kernel_type
    dirac i (N, B, P, Rh) = Ok (N', B', P', Rh') ->
  exists (w n r b : R) (p rowN rowR rowB : vec) (rowP : mat),
    (exists z, kernel_func z kernel_type = Ok w) /\
    N !! i = Some rowN /\ rowN !! action = Some n /\
    P !! i = Some rowP /\ rowP !! action = Some p /\
    Rh !! i = Some rowR /\ rowR !! action = Some r /\
    B !! i = Some rowB /\ (action < length rowB)%nat /\
    beta + n + w <> 0 /\ length (take m p) = m /\
    compute_bonus (n + w) beta bonus_scale_factor v_max bonus_type = Ok b /\
    N' = <[i := <[action := n + w]> rowN]> N /\
    P' = <[i := <[action :=
            zip_with (fun d q => d * w / (beta + n + w)
                                 + (beta + n) / (beta + n + w) * q)
              dirac (take m p) ++ drop m p]> rowP]> P /\
    Rh' = <[i := <[action := w * reward / (beta + n + w)
                             + (beta + n) / (beta + n + w) * r]> rowR]> Rh /\
    B' = <[i := <[action := b]> rowB]> B.
Proof.
  unfold update_step. intros H.
  bind_inv H. bind_inv H. bind_inv H. rename x1 into z.
  bind_inv H. rename x1 into w.
  bind_inv H. rename x1 into n. apply get2_spec in E3 as (rowN & HN & Hn).
  bind_inv H. rename x1 into N1.
  apply set2_spec in E3 as (rowN' & HN' & Ha & ->).
  rewrite HN in HN'. injection HN' as <-.
  bind_inv H. rename x1 into c. apply fdiv_inv in E3 as [Hcur ->].
  bind_inv H. rename x1 into p. apply get2_spec in E3 as (rowP & HP & Hp).
  destruct (length (take m p) =? m)%nat eqn:Hlen; simpl in H; [|discriminate].
  apply Nat.eqb_eq in Hlen.
  bind_inv H. rename x1 into P1. apply set2_spec in E3 as (rowP' & HP' & _ & ->).
  rewrite HP in HP'. injection HP' as <-.
  bind_inv H. rename x1 into wr. apply fdiv_inv in E3 as [_ ->].
  bind_inv H. rename x1 into c'. apply fdiv_inv in E3 as [_ ->].
  bind_inv H. rename x1 into r. apply get2_spec in E3 as (rowR & HR & Hr).
  bind_inv H. rename x1 into R1. apply set2_spec in E3 as (rowR' & HR' & _ & ->).
  rewrite HR in HR'. injection HR' as <-.
  bind_inv H. rename x1 into n'.
  rewrite get2_insert_eq in E3 by assumption. injection E3 as <-.
  bind_inv H. rename x1 into b.
  bind_inv H. rename x1 into B1. apply set2_spec in E4 as (rowB & HB & Hb & ->).
  injection H as <- <- <- <-.
  exists w, n, r, b, p, rowN, rowR, rowB, rowP.
  repeat (split; [eauto; fail|]). reflexivity.
Qed.

End Updater.

(** ** The estimates *)

Section Estimates.

Variable metric_lp : vec -> vec -> Z -> vec -> R.
Variable kernel_func : R -> string -> result R.
Variable env_t : Type.
Variable cfg : config.

Local Abbreviation agent := (agent env_t).
Local Abbreviation entry_ok := (entry_ok cfg).
Local Abbreviation tables_ok := (tables_ok cfg).
Local Abbreviation agent_ok := (agent_ok env_t cfg).
Local Abbreviation trained := (trained metric_lp kernel_func env_t cfg).

Hypothesis beta_nonneg : 0 <= beta cfg.
Hypothesis kernel_nonneg :
  forall z w, kernel_func z (kernel_type cfg) = Ok w -> 0 <= w.

Variables lo hi : R.
Hypothesis lo_hi : lo <= 0 <= hi.

Lemma entry_ok_mono (m m' : nat) (n : R) (p : vec) (r : R) :
  (m <= m')%nat -> entry_ok lo hi m n p r -> entry_ok lo hi m' n p r.
Proof.
  intros Hm (Hn & Hp & Hs & Hz & Hr). repeat split; try assumption; try lra.
  replace m' with (m + (m' - m))%nat by lia.
  rewrite <- drop_drop. now apply Forall_drop.
Qed.

Lemma tables_ok_mono (m m' : nat) (N : mat) (P : ten) (Rh : mat) :
  (m <= m')%nat -> tables_ok lo hi m N P Rh -> tables_ok lo hi m' N P Rh.
Proof.
  intros Hm H u a Hu Ha. destruct (H u a Hu Ha) as (n & p & r & ? & ? & ? & ?).
  exists n, p, r. eauto using entry_ok_mono.
Qed.

Lemma get2_zeros2 (r c u a : nat) :
  (u < r)%nat -> (a < c)%nat -> get2 (zeros2 r c) u a = Ok 0.
Proof.
  intros Hu Ha. apply get2_spec. exists (zeros c).
  split; now apply lookup_replicate_2.
Qed.

Lemma get2_zeros3 (r c d u a : nat) :
  (u < r)%nat -> (a < c)%nat -> get2 (zeros3 r c d) u a = Ok (zeros d).
Proof.
  intros Hu Ha. apply get2_spec. exists (zeros2 c d).
  split; now apply lookup_replicate_2.
Qed.

Lemma reset_ok (self : agent) : agent_ok lo hi (reset cfg self).
Proof.
  split; [simpl; lia|]. split; [apply length_replicate|].
  intros u a Hu Ha. exists 0, (zeros (max_repr cfg)), 0. simpl.
  split; [now apply get2_zeros2|]. split; [now apply get2_zeros3|].
  split; [now apply get2_zeros2|].
  split; [lra|]. split; [apply Forall_replicate; lra|].
  split; [rewrite sum_zeros; unfold Rdiv; lra|].
  split; [apply zeros_all_zero | exact lo_hi].
Qed.

(** The new entry after one observation of weight [w]. *)
Lemma entry_ok_update (m k : nat) (n w reward r : R) (p : vec) :
  (k < m)%nat -> 0 <= w -> beta cfg + n + w <> 0 ->
  length (take m p) = m -> lo <= reward <= hi ->
  entry_ok lo hi m n p r ->
  entry_ok lo hi m (n + w)
    (zip_with (fun d q => d * w / (beta cfg + n + w)
                          + (beta cfg + n) / (beta cfg + n + w) * q)
       (<[k := 1]> (zeros m)) (take m p) ++ drop m p)
    (w * reward / (beta cfg + n + w)
     + (beta cfg + n) / (beta cfg + n + w) * r).
Proof.
  intros Hk Hw Hcur Hlen Hrew (Hn & Hp & Hs & Hz & Hr).
  assert (Hpos : 0 < beta cfg + n + w) by lra.
  assert (Hc : 0 <= (beta cfg + n) / (beta cfg + n + w)).
  { unfold Rdiv. apply Rmult_le_pos; [lra|].
    left. now apply Rinv_0_lt_compat. }
  assert (Hld : length (<[k := 1]> (zeros m)) = length (take m p)).
  { rewrite length_insert. unfold zeros. now rewrite length_replicate. }
  split; [lra|]. split; [|split; [|split]].
  - apply Forall_app. split; [|now apply Forall_drop].
    apply mix_nonneg; try assumption.
    + apply dirac_nonneg.
    + now apply Forall_take.
  - rewrite sum_app, sum_mix, sum_dirac by assumption.
    rewrite (sum_all_zero (drop m p)) by assumption.
    assert (Ht : sum (take m p) = n / (beta cfg + n)).
    { rewrite <- Hs, (sum_take_drop m p), (sum_all_zero (drop m p)) by assumption.
      lra. }
    rewrite Ht. replace (beta cfg + (n + w)) with (beta cfg + n + w) by lra.
    destruct (Req_dec_T (beta cfg + n) 0) as [E|E].
    + assert (n = 0) as -> by lra. rewrite E. unfold Rdiv. lra.
    + field. split; assumption.
  - rewrite drop_app_length'; [assumption|].
    rewrite length_zip_with, Hld. lia.
  - assert (Hmix : w / (beta cfg + n + w)
                   + (beta cfg + n) / (beta cfg + n + w) = 1)
      by (field; assumption).
    assert (Hw' : 0 <= w / (beta cfg + n + w)).
    { unfold Rdiv. apply Rmult_le_pos; [lra|].
      left. now apply Rinv_0_lt_compat. }
    replace (w * reward / (beta cfg + n + w))
      with (w / (beta cfg + n + w) * reward) by (field; assumption).
    nra.
Qed.

Lemma get2_lookup {T : Type} (a : list (list T)) (i j : nat) (row : list T)
    (x : T) :
  a !! i = Some row -> row !! j = Some x -> get2 a i j = Ok x.
Proof. intros. apply get2_spec. eauto. Qed.

Lemma for_loop_preserves {St : Type} (I : St -> Prop) (l : list nat)
    (body : nat -> St -> result St) (s y : St) :
  (forall i x x', I x -> body i x = Ok x' -> I x') ->
  I s -> for_loop l body s = Ok y -> I y.
Proof.
  intros Hstep. revert s. induction l as [|i l IH]; intros s Hs H; simpl in H.
  - now injection H as <-.
  - bind_inv H. eapply IH; [|exact H]. eapply Hstep; eauto.
Qed.

Lemma update_step_ok (repr_state : Z) (action : nat) (reward : R) (m k : nat)
    (repr_states : list vec) (i : nat) (N B : mat) (P : ten) (Rh : mat)
    (N' B' : mat) (P' : ten) (Rh' : mat) :
  (k < m)%nat -> lo <= reward <= hi ->
  tables_ok lo hi m N P Rh ->
  update_step metric_lp kernel_func repr_state action reward m repr_states
    (lp_metric cfg) (scaling cfg) (bandwidth cfg) (bonus_scale_factor cfg)
    (beta cfg) (v_max cfg) (bonus_type cfg) (kernel_type cfg)
    (<[k := 1]> (zeros m)) i (N, B, P, Rh) = Ok (N', B', P', Rh') ->
  tables_ok lo hi m N' P' Rh'.
Proof.
  intros Hk Hrew Hok Hstep.
  apply update_step_inv in Hstep
    as (w & n & r & b & p & rowN & rowR & rowB & rowP & [z Hw] & HN & Hn & HP
        & Hp & HR & Hr & _ & _ & Hcur & Hlen & _ & -> & -> & -> & _).
  apply kernel_nonneg in Hw.
  intros u a Hu Ha. destruct (Hok u a Hu Ha) as (n0 & p0 & r0 & En & Ep & Er & He).
  destruct (Nat.eq_dec i u) as [->|Hiu]; [destruct (Nat.eq_dec action a) as [->|Haa]|].
  - rewrite (get2_lookup _ _ _ _ _ HN Hn) in En. injection En as <-.
    rewrite (get2_lookup _ _ _ _ _ HP Hp) in Ep. injection Ep as <-.
    rewrite (get2_lookup _ _ _ _ _ HR Hr) in Er. injection Er as <-.
    eexists; eexists; eexists.
    split; [apply get2_insert_eq; eauto using lookup_lt_Some|].
    split; [apply get2_insert_eq; eauto using lookup_lt_Some|].
    split; [apply get2_insert_eq; eauto using lookup_lt_Some|].
    now apply entry_ok_update.
  - exists n0, p0, r0. rewrite !get2_insert_ne by (assumption || now right).
    auto.
  - exists n0, p0, r0. rewrite !get2_insert_ne by (assumption || now left).
    auto.
Qed.

Lemma update_model_ok (repr_state : Z) (action : nat) (repr_next_state : Z)
    (reward : R) (m : nat) (repr_states : list vec) (N B : mat) (P : ten)
    (Rh : mat) (N' B' : mat) (P' : ten) (Rh' : mat) :
  lo <= reward <= hi ->
  tables_ok lo hi m N P Rh ->
  update_model metric_lp kernel_func repr_state action repr_next_state reward
    m repr_states (lp_metric cfg) (scaling cfg) (bandwidth cfg)
    (bonus_scale_factor cfg) (beta cfg) (v_max cfg) (bonus_type cfg)
    (kernel_type cfg) N B P Rh = Ok (N', B', P', Rh') ->
  tables_ok lo hi m N' P' Rh'.
Proof.
  intros Hrew Hok H. unfold update_model in H. bind_inv H.
  apply np_index_inv in E.
  apply (for_loop_preserves
           (fun t : mat * mat * ten * mat =>
              let '(N, _, P, Rh) := t in tables_ok lo hi m N P Rh)) in H;
    [exact H | | exact Hok].
  intros i [[[N0 B0] P0] R0] [[[N1 B1] P1] R1] H0 Hstep.
  eapply update_step_ok; eauto.
Qed.

(** What a call of [_map_to_repr] that returns leaves behind. *)
Lemma map_to_repr_inv (self self' : agent) (state : vec) (accept : bool)
    (idx : Z) :
  (M self <= length (representative_states self))%nat ->
  _map_to_repr metric_lp cfg self state accept = Ok (idx, self') ->
  (M self <= M self' <= S (M self))%nat /\
  (M self' <= length (representative_states self))%nat /\
  length (representative_states self') = length (representative_states self) /\
  (-1 <= idx < Z.of_nat (M self'))%Z /\
  ((0 <= idx)%Z \/ M self' = 0%nat) /\
  (accept = false -> M self' = M self /\
     representative_states self' = representative_states self) /\
  env self' = env self /\ N_sa self' = N_sa self /\ B_sa self' = B_sa self /\
  R_hat self' = R_hat self /\ P_hat self' = P_hat self /\ V self' = V self /\
  Q self' = Q self /\ Q_policy self' = Q_policy self /\
  episode self' = episode self /\ _rewards self' = _rewards self /\
  _cumul_rewards self' = _cumul_rewards self.
Proof.
  intros HM Hcall.
  destruct (map_to_representative_cases metric_lp state (lp_metric cfg)
              (scaling cfg) (representative_states self) (M self)
              (min_dist cfg) accept HM)
    as [[Hc E] | [(Hc & k & rk & Hk & E) | (Hc & Hz & E)]];
    destruct (map_to_repr_unfold metric_lp _ cfg self state accept _ _ E)
      as (self0 & Hcall0 & HM0 & Hreprs & Hrest);
    rewrite Hcall0 in Hcall; injection Hcall as <- <-;
    (split; [|split; [|split; [|split; [|split; [|split; [|exact Hrest]]]]]]).
  all: try (rewrite Hreprs; try apply length_insert; reflexivity).
  - rewrite Z.eqb_refl in HM0. lia.
  - rewrite Z.eqb_refl in HM0. destruct Hc as (_ & Hlt & _). lia.
  - rewrite Z.eqb_refl in HM0. lia.
  - left. lia.
  - intros ->. destruct Hc as (_ & _ & Hacc). discriminate.
  - apply closest_lt in Hk.
    replace (Z.of_nat k =? Z.of_nat (M self))%Z with false in HM0
      by (symmetry; apply Z.eqb_neq; lia). lia.
  - apply closest_lt in Hk.
    replace (Z.of_nat k =? Z.of_nat (M self))%Z with false in HM0
      by (symmetry; apply Z.eqb_neq; lia). lia.
  - apply closest_lt in Hk.
    replace (Z.of_nat k =? Z.of_nat (M self))%Z with false in HM0
      by (symmetry; apply Z.eqb_neq; lia). lia.
  - left. lia.
  - intros _. apply closest_lt in Hk.
    replace (Z.of_nat k =? Z.of_nat (M self))%Z with false in HM0
      by (symmetry; apply Z.eqb_neq; lia). auto.
  - replace (-1 =? Z.of_nat (M self))%Z with false in HM0
      by (symmetry; apply Z.eqb_neq; lia). lia.
  - replace (-1 =? Z.of_nat (M self))%Z with false in HM0
      by (symmetry; apply Z.eqb_neq; lia). lia.
  - replace (-1 =? Z.of_nat (M self))%Z with false in HM0
      by (symmetry; apply Z.eqb_neq; lia). lia.
  - right. replace (-1 =? Z.of_nat (M self))%Z with false in HM0
      by (symmetry; apply Z.eqb_neq; lia). lia.
  - intros _. replace (-1 =? Z.of_nat (M self))%Z with false in HM0
      by (symmetry; apply Z.eqb_neq; lia). auto.
Qed.

Lemma update_ok (self self' : agent) (state : vec) (action : nat)
    (next_state : vec) (reward : R) :
  lo <= reward <= hi ->
  agent_ok lo hi self ->
  _update metric_lp kernel_func cfg self state action next_state reward
  = Ok self' ->
  agent_ok lo hi self'.
Proof.
  intros Hrew (HM & Hlen & Hok) H. unfold _update in H.
  bind_inv H. destruct x as [idx1 self1].
  apply map_to_repr_inv in E as (HM1 & Hcap1 & Hlen1 & _ & _ & _ & _ & EN1 & _
                                 & ER1 & EP1 & _); [|lia].
  bind_inv H. destruct x as [idx2 self2].
  apply map_to_repr_inv in E as (HM2 & Hcap2 & Hlen2 & _ & _ & _ & _ & EN2 & _
                                 & ER2 & EP2 & _); [|lia].
  bind_inv H. destruct x as [[[n_sa b_sa] p_hat] r_hat].
  injection H as <-. unfold agent_ok. simpl.
  split; [lia|]. split; [lia|].
  eapply update_model_ok; [exact Hrew | | exact E].
  rewrite EN2, EP2, ER2, EN1, EP1, ER1.
  apply tables_ok_mono with (m := M self); [lia | exact Hok].
Qed.

Lemma trained_ok (ok_reward : R -> Prop) (self : agent) :
  (forall r, ok_reward r -> lo <= r <= hi) ->
  trained ok_reward self -> agent_ok lo hi self.
Proof.
  intros Hrew. induction 1 as [self | self s a s' r self' _ IH Hr Hup
                              | self self' _ IH Hsame].
  - apply reset_ok.
  - apply (update_ok self self' s a s' r); [now apply Hrew | exact IH | exact Hup].
  - destruct Hsame as (E1 & E2 & E3 & _ & E4 & E5).
    unfold agent_ok. rewrite E1, E2, E3, E4, E5. exact IH.
Qed.

Lemma trained_weaken (ok ok' : R -> Prop) (self : agent) :
  (forall r, ok r -> ok' r) -> trained ok self -> trained ok' self.
Proof.
  intros Himp. induction 1 as [self | self s a s' r self' _ IH Hr Hup
                              | self self' _ IH Hsame].
  - apply trained_reset.
  - apply (trained_update _ _ _ _ _ self s a s' r);
      [exact IH | now apply Himp | exact Hup].
  - now apply (trained_other _ _ _ _ _ self).
Qed.

End Estimates.

(** Every training sequence has bounded rewards. *)
Lemma trained_bounded (metric_lp : vec -> vec -> Z -> vec -> R)
    (kernel_func : R -> string -> result R) (env_t : Type) (cfg : config)
    (self : agent env_t) :
  trained metric_lp kernel_func env_t cfg (fun _ => True) self ->
  exists lo hi, lo <= 0 <= hi /\
    trained metric_lp kernel_func env_t cfg (fun r => lo <= r <= hi) self.
Proof.
  induction 1 as [self | self s a s' r self' _ IH _ Hup
                 | self self' _ IH Hsame].
  - exists 0, 0. split; [lra | constructor].
  - destruct IH as (lo & hi & Hb & IH).
    exists (Rmin lo r), (Rmax hi r).
    pose proof (Rmin_l lo r). pose proof (Rmin_r lo r).
    pose proof (Rmax_l hi r). pose proof (Rmax_r hi r).
    split; [lra|].
    eapply trained_update; [| |exact Hup]; [|simpl; lra].
    eapply trained_weaken; [|exact IH]. simpl. intros; lra.
  - destruct IH as (lo & hi & Hb & IH). exists lo, hi.
    split; [exact Hb|]. eapply trained_other; eauto.
Qed.

(** ** The model updater returns *)

Lemma set2_ok {T : Type} (a : list (list T)) (i j : nat) (row : list T) (x : T) :
  a !! i = Some row -> (j < length row)%nat ->
  set2 a i j x = Ok (<[i := <[j := x]> row]> a).
Proof. intros Hi Hj. apply set2_spec. eauto. Qed.

Lemma for_loop_first_raise {St : Type} (n : nat)
    (body : nat -> St -> result St) (s : St) (e : exn) :
  (0 < n)%nat -> body 0%nat s = Raise e -> for_loop (range n) body s = Raise e.
Proof.
  intros Hn H. destruct n as [|n]; [lia|]. unfold range. simpl.
  now rewrite H.
Qed.

Section Totality.

Variable metric_lp : vec -> vec -> Z -> vec -> R.
Variable kernel_func : R -> string -> result R.
Variable env_t : Type.
Variable cfg : config.

Local Abbreviation agent := (agent env_t).
Local Abbreviation tables_ok := (tables_ok cfg).
Local Abbreviation shaped := (shaped cfg).
Local Abbreviation agent_ok := (agent_ok env_t cfg).
Local Abbreviation agent_wf := (agent_wf env_t cfg).

Hypothesis beta_pos : 0 < beta cfg.
Hypothesis bandwidth_nonzero : bandwidth cfg <> 0.
Hypothesis kernel_total :
  forall z, exists w, kernel_func z (kernel_type cfg) = Ok w /\ 0 <= w.
Hypothesis capacity_pos : (0 < max_repr cfg)%nat.

Variables lo hi : R.
Hypothesis lo_hi : lo <= 0 <= hi.

Lemma kernel_total_nonneg (z w : R) :
  kernel_func z (kernel_type cfg) = Ok w -> 0 <= w.
Proof.
  intros H. destruct (kernel_total z) as (w' & Hw' & Hpos). congruence.
Qed.

Lemma reset_wf (self : agent) : agent_wf lo hi (reset cfg self).
Proof.
  split; [now apply reset_ok|]. intros u a Hu Ha. simpl. split.
  - exists (v_max cfg). apply get2_spec. exists (replicate (A cfg) (v_max cfg)).
    split; now apply lookup_replicate_2.
  - intros p Hp. rewrite get2_zeros3 in Hp by assumption.
    injection Hp as <-. apply length_replicate.
Qed.

(** One iteration of the loop of [update_model], up to the computation
    of the bonus. *)
Lemma update_step_eval (k0 : nat) (action : nat) (reward : R) (m k : nat)
    (repr_states : list vec) (i : nat) (N B : mat) (P : ten) (Rh : mat) :
  (i < m)%nat -> (m <= max_repr cfg)%nat -> (k0 < m)%nat ->
  length repr_states = max_repr cfg -> (action < A cfg)%nat ->
  tables_ok lo hi m N P Rh -> shaped B P ->
  exists (w n : R) (N' : mat) (P' : ten) (Rh' : mat) (rowB : vec),
    0 <= w /\ 0 <= n /\ B !! i = Some rowB /\ (action < length rowB)%nat /\
    (forall u a, (u < max_repr cfg)%nat -> (a < A cfg)%nat ->
       forall p, get2 P' u a = Ok p -> length p = max_repr cfg) /\
    update_step metric_lp kernel_func (Z.of_nat k0) action reward m repr_states
      (lp_metric cfg) (scaling cfg) (bandwidth cfg) (bonus_scale_factor cfg)
      (beta cfg) (v_max cfg) (bonus_type cfg) (kernel_type cfg)
      (<[k := 1]> (zeros m)) i (N, B, P, Rh)
    = (b ← compute_bonus (n + w) (beta cfg) (bonus_scale_factor cfg)
             (v_max cfg) (bonus_type cfg);
       Ok (N', <[i := <[action := b]> rowB]> B, P', Rh')).
Proof.
  intros Hi Hm Hk0 Hlen Ha Hok Hsh.
  destruct (get_lt repr_states k0) as (x & _ & Hx); [lia|].
  destruct (get_lt repr_states i) as (y & Hy & _); [lia|].
  destruct (kernel_total
              (metric_lp x y (lp_metric cfg) (scaling cfg) / bandwidth cfg))
    as (w & Hw & Hwpos).
  destruct (Hok i action) as (n & p & r & HN & HP & HR & Hn & _); [lia | exact Ha|].
  destruct (Hsh i action) as ([b0 HB] & Hlp); [lia | exact Ha|].
  specialize (Hlp p HP).
  apply get2_spec in HN as (rowN & HNi & HNa).
  apply get2_spec in HP as (rowP & HPi & HPa).
  apply get2_spec in HR as (rowR & HRi & HRa).
  apply get2_spec in HB as (rowB & HBi & HBa).
  assert (Hcur : beta cfg + n + w <> 0) by lra.
  assert (Htake : length (take m p) = m) by (rewrite length_take; lia).
  eexists w, n, _, _, _, rowB.
  split; [exact Hwpos|]. split; [exact Hn|]. split; [exact HBi|].
  split; [eapply lookup_lt_Some; eauto|]. split; [|].
  2:{ unfold update_step, get_z.
      rewrite (np_index_nat (length repr_states) k0) by lia.
      cbn [mbind result_bind]. rewrite (proj2 (get_spec _ _ _) Hx), Hy.
      cbn [mbind result_bind]. rewrite fdiv_ok by exact bandwidth_nonzero.
      cbn [mbind result_bind]. rewrite Hw. cbn [mbind result_bind].
      rewrite (get2_lookup _ _ _ _ _ HNi HNa). cbn [mbind result_bind].
      rewrite (set2_ok _ _ _ _ _ HNi (lookup_lt_Some _ _ _ HNa)).
      cbn [mbind result_bind]. rewrite !fdiv_ok by exact Hcur.
      cbn [mbind result_bind]. rewrite (get2_lookup _ _ _ _ _ HPi HPa).
      cbn [mbind result_bind]. rewrite Htake, Nat.eqb_refl. cbn [negb].
      rewrite (set2_ok _ _ _ _ _ HPi (lookup_lt_Some _ _ _ HPa)).
      cbn [mbind result_bind]. rewrite (get2_lookup _ _ _ _ _ HRi HRa).
      cbn [mbind result_bind].
      rewrite (set2_ok _ _ _ _ _ HRi (lookup_lt_Some _ _ _ HRa)).
      cbn [mbind result_bind].
      rewrite (get2_insert_eq _ _ _ _ _ HNi (lookup_lt_Some _ _ _ HNa)).
      cbn [mbind result_bind].
      destruct (compute_bonus _ _ _ _ _) as [b|e]; cbn [mbind result_bind];
        [|reflexivity].
      rewrite (set2_ok _ _ _ _ _ HBi (lookup_lt_Some _ _ _ HBa)).
      reflexivity. }
  intros u a Hu Hau q Hq.
  destruct (Nat.eq_dec i u) as [->|Hiu];
    [destruct (Nat.eq_dec action a) as [->|Haa]|].
  - rewrite (get2_insert_eq _ _ _ _ _ HPi (lookup_lt_Some _ _ _ HPa)) in Hq.
    injection Hq as <-.
    rewrite length_app, length_zip_with, length_insert, length_drop, Htake.
    unfold zeros. rewrite length_replicate. lia.
  - rewrite get2_insert_ne in Hq by (assumption || now right).
    destruct (Hsh u a Hu Hau) as [_ H]. now apply H.
  - rewrite get2_insert_ne in Hq by (assumption || now left).
    destruct (Hsh u a Hu Hau) as [_ H]. now apply H.
Qed.

Lemma update_step_total (k0 : nat) (action : nat) (reward : R) (m k : nat)
    (repr_states : list vec) (i : nat) (N B : mat) (P : ten) (Rh : mat) :
  bonus_type cfg = simplified_bernstein ->
  (i < m)%nat -> (m <= max_repr cfg)%nat -> (k0 < m)%nat -> (k < m)%nat ->
  length repr_states = max_repr cfg -> (action < A cfg)%nat ->
  lo <= reward <= hi ->
  tables_ok lo hi m N P Rh -> shaped B P ->
  exists (N' B' : mat) (P' : ten) (Rh' : mat),
    update_step metric_lp kernel_func (Z.of_nat k0) action reward m repr_states
      (lp_metric cfg) (scaling cfg) (bandwidth cfg) (bonus_scale_factor cfg)
      (beta cfg) (v_max cfg) (bonus_type cfg) (kernel_type cfg)
      (<[k := 1]> (zeros m)) i (N, B, P, Rh) = Ok (N', B', P', Rh') /\
    tables_ok lo hi m N' P' Rh' /\ shaped B' P'.
Proof.
  intros Hbt Hi Hm Hk0 Hk Hlen Ha Hrew Hok Hsh.
  destruct (update_step_eval k0 action reward m k repr_states i N B P Rh
              Hi Hm Hk0 Hlen Ha Hok Hsh)
    as (w & n & N' & P' & Rh' & rowB & Hw & Hn & HB & HaB & HlP & Heval).
  rewrite Hbt, compute_bonus_value in Heval by lra.
  cbn [mbind result_bind] in Heval. rewrite <- Hbt in Heval.
  eexists N', _, P', Rh'. split; [exact Heval|]. split.
  - eapply update_step_ok; [lra | exact kernel_total_nonneg | exact lo_hi
                           | exact Hk | exact Hrew | exact Hok | exact Heval].
  - intros u a Hu Hau. split; [|now apply HlP].
    destruct (Hsh u a Hu Hau) as [[b Hb] _].
    destruct (Nat.eq_dec i u) as [->|Hiu];
      [destruct (Nat.eq_dec action a) as [->|Haa]|].
    + eexists. now apply get2_insert_eq.
    + exists b. rewrite get2_insert_ne by (assumption || now right). exact Hb.
    + exists b. rewrite get2_insert_ne by (assumption || now left). exact Hb.
Qed.

Lemma update_step_unknown (k0 : nat) (action : nat) (reward : R) (m k : nat)
    (repr_states : list vec) (i : nat) (N B : mat) (P : ten) (Rh : mat) :
  bonus_type cfg <> simplified_bernstein ->
  (i < m)%nat -> (m <= max_repr cfg)%nat -> (k0 < m)%nat ->
  length repr_states = max_repr cfg -> (action < A cfg)%nat ->
  tables_ok lo hi m N P Rh -> shaped B P ->
  update_step metric_lp kernel_func (Z.of_nat k0) action reward m repr_states
    (lp_metric cfg) (scaling cfg) (bandwidth cfg) (bonus_scale_factor cfg)
    (beta cfg) (v_max cfg) (bonus_type cfg) (kernel_type cfg)
    (<[k := 1]> (zeros m)) i (N, B, P, Rh) = Raise NotImplementedError.
Proof.
  intros Hbt Hi Hm Hk0 Hlen Ha Hok Hsh.
  destruct (update_step_eval k0 action reward m k repr_states i N B P Rh
              Hi Hm Hk0 Hlen Ha Hok Hsh)
    as (w & n & N' & P' & Rh' & rowB & _ & _ & _ & _ & _ & Heval).
  rewrite Heval, compute_bonus_unknown by exact Hbt. reflexivity.
Qed.

Lemma update_model_total (k0 k1 : nat) (action : nat) (reward : R) (m : nat)
    (repr_states : list vec) (N B : mat) (P : ten) (Rh : mat) :
  bonus_type cfg = simplified_bernstein ->
  (m <= max_repr cfg)%nat -> (k0 < m)%nat -> (k1 < m)%nat ->
  length repr_states = max_repr cfg -> (action < A cfg)%nat ->
  lo <= reward <= hi ->
  tables_ok lo hi m N P Rh -> shaped B P ->
  exists (N' B' : mat) (P' : ten) (Rh' : mat),
    update_model metric_lp kernel_func (Z.of_nat k0) action (Z.of_nat k1)
      reward m repr_states (lp_metric cfg) (scaling cfg) (bandwidth cfg)
      (bonus_scale_factor cfg) (beta cfg) (v_max cfg) (bonus_type cfg)
      (kernel_type cfg) N B P Rh = Ok (N', B', P', Rh') /\
    tables_ok lo hi m N' P' Rh' /\ shaped B' P'.
Proof.
  intros Hbt Hm Hk0 Hk1 Hlen Ha Hrew Hok Hsh.
  unfold update_model. rewrite np_index_nat by exact Hk1.
  cbn [mbind result_bind].
  destruct (for_loop_inv
              (fun (_ : nat) (t : mat * mat * ten * mat) =>
                 let '(N, B, P, Rh) := t in
                 tables_ok lo hi m N P Rh /\ shaped B P)
              m
              (update_step metric_lp kernel_func (Z.of_nat k0) action reward m
                 repr_states (lp_metric cfg) (scaling cfg) (bandwidth cfg)
                 (bonus_scale_factor cfg) (beta cfg) (v_max cfg)
                 (bonus_type cfg) (kernel_type cfg) (<[k1 := 1]> (zeros m)))
              (N, B, P, Rh))
    as ([[[N' B'] P'] Rh'] & Hloop & Hinv).
  - now split.
  - intros i [[[N0 B0] P0] R0] Hi [Hok0 Hsh0].
    destruct (update_step_total k0 action reward m k1 repr_states i N0 B0 P0 R0
                Hbt Hi Hm Hk0 Hk1 Hlen Ha Hrew Hok0 Hsh0)
      as (N1 & B1 & P1 & R1 & Hstep & Hok1 & Hsh1).
    exists (N1, B1, P1, R1). now split.
  - exists N', B', P', Rh'. split; [exact Hloop | exact Hinv].
Qed.

Lemma update_model_unknown (k0 k1 : nat) (action : nat) (reward : R) (m : nat)
    (repr_states : list vec) (N B : mat) (P : ten) (Rh : mat) :
  bonus_type cfg <> simplified_bernstein ->
  (m <= max_repr cfg)%nat -> (k0 < m)%nat -> (k1 < m)%nat ->
  length repr_states = max_repr cfg -> (action < A cfg)%nat ->
  tables_ok lo hi m N P Rh -> shaped B P ->
  update_model metric_lp kernel_func (Z.of_nat k0) action (Z.of_nat k1)
    reward m repr_states (lp_metric cfg) (scaling cfg) (bandwidth cfg)
    (bonus_scale_factor cfg) (beta cfg) (v_max cfg) (bonus_type cfg)
    (kernel_type cfg) N B P Rh = Raise NotImplementedError.
Proof.
  intros Hbt Hm Hk0 Hk1 Hlen Ha Hok Hsh.
  unfold update_model. rewrite np_index_nat by exact Hk1.
  cbn [mbind result_bind]. apply for_loop_first_raise; [lia|].
  apply update_step_unknown; try assumption. lia.
Qed.

(** With [accept_new_repr] true and room for at least one
    representative, [_map_to_repr] returns the index of an active
    representative. *)
Lemma map_to_repr_total (self : agent) (state : vec) :
  (M self <= max_repr cfg)%nat ->
  length (representative_states self) = max_repr cfg ->
  exists (k : nat) (self' : agent),
    _map_to_repr metric_lp cfg self state true = Ok (Z.of_nat k, self') /\
    (k < M self')%nat /\ (M self <= M self' <= max_repr cfg)%nat /\
    length (representative_states self') = max_repr cfg /\
    N_sa self' = N_sa self /\ B_sa self' = B_sa self /\
    R_hat self' = R_hat self /\ P_hat self' = P_hat self.
Proof.
  intros HM Hlen.
  destruct (map_to_representative_cases metric_lp state (lp_metric cfg)
              (scaling cfg) (representative_states self) (M self)
              (min_dist cfg) true)
    as [[Hc E] | [(Hc & k & rk & Hk & E) | (Hc & Hz & E)]]; [lia | | |].
  - destruct (map_to_repr_unfold metric_lp _ cfg self state true _ _ E)
      as (self' & Hcall & HM' & Hreprs & _ & EN & EB & ER & EP & _).
    rewrite Z.eqb_refl in HM'. destruct Hc as (_ & Hlt & _).
    exists (M self), self'. rewrite Hreprs, length_insert.
    repeat split; try assumption; lia.
  - destruct (map_to_repr_unfold metric_lp _ cfg self state true _ _ E)
      as (self' & Hcall & HM' & Hreprs & _ & EN & EB & ER & EP & _).
    apply closest_lt in Hk.
    replace (Z.of_nat k =? Z.of_nat (M self))%Z with false in HM'
      by (symmetry; apply Z.eqb_neq; lia).
    exists k, self'. rewrite Hreprs.
    repeat split; try assumption; lia.
  - exfalso. apply Hc. split; [now left|]. split; [lia | reflexivity].
Qed.

(** [_update] on a well-formed agent, with an action of the action
    space: it returns, and leaves a well-formed agent, when the bonus
    type is known; it raises [NotImplementedError] when it is not. *)
Lemma update_total (self : agent) (state : vec) (action : nat)
    (next_state : vec) (reward : R) :
  agent_wf lo hi self -> (action < A cfg)%nat -> lo <= reward <= hi ->
  (bonus_type cfg = simplified_bernstein ->
   exists self',
     _update metric_lp kernel_func cfg self state action next_state reward
     = Ok self' /\ agent_wf lo hi self') /\
  (bonus_type cfg <> simplified_bernstein ->
   _update metric_lp kernel_func cfg self state action next_state reward
   = Raise NotImplementedError).
Proof.
  intros [(HM & Hlen & Hok) Hsh] Ha Hrew.
  destruct (map_to_repr_total self state HM Hlen)
    as (k0 & self1 & E1 & Hk0 & HM1 & Hlen1 & EN1 & EB1 & ER1 & EP1).
  destruct (map_to_repr_total self1 next_state) as
    (k1 & self2 & E2 & Hk1 & HM2 & Hlen2 & EN2 & EB2 & ER2 & EP2);
    [lia | exact Hlen1 |].
  assert (Hk0' : (k0 < M self2)%nat) by lia.
  assert (Hok2 : tables_ok lo hi (M self2) (N_sa self2) (P_hat self2)
                   (R_hat self2)).
  { rewrite EN2, EP2, ER2, EN1, EP1, ER1.
    apply (tables_ok_mono cfg lo hi (M self)); [lia | exact Hok]. }
  assert (Hsh2 : shaped (B_sa self2) (P_hat self2))
    by (rewrite EB2, EP2, EB1, EP1; exact Hsh).
  split; intros Hbt; unfold _update; rewrite E1; cbn [mbind result_bind];
    rewrite E2; cbn [mbind result_bind].
  - destruct (update_model_total k0 k1 action reward (M self2)
                (representative_states self2) (N_sa self2) (B_sa self2)
                (P_hat self2) (R_hat self2))
      as (N' & B' & P' & Rh' & Hup & Hok' & Hsh'); try assumption; try lia.
    rewrite Hup. cbn [mbind result_bind]. eexists. split; [reflexivity|].
    split; [|exact Hsh']. unfold agent_ok. simpl.
    split; [lia|]. split; [exact Hlen2 | exact Hok'].
  - rewrite update_model_unknown; try assumption; try lia. reflexivity.
Qed.

End Totality.

(** C7.  An unknown bonus type is fatal.  [compute_bonus] raises
    [NotImplementedError] exactly when the bonus type is not
    "simplified_bernstein"; with "simplified_bernstein" and
    [n = beta + sum_weights > 0] it returns a value, so that for [n > 0]
    it raises if and only if the bonus type is unknown.  Nothing checks
    the bonus type before its first use: on a well-formed agent with an
    unknown bonus type, [_update] raises [NotImplementedError], which
    nothing catches. *)
Theorem unknown_bonus_type_fatal :
  (forall (sum_weights beta bonus_scale_factor v_max : R) (bonus_type : string),
     (compute_bonus sum_weights beta bonus_scale_factor v_max bonus_type
      = Raise NotImplementedError <-> bonus_type <> simplified_bernstein) /\
     (bonus_type = simplified_bernstein -> 0 < beta + sum_weights ->
      compute_bonus sum_weights beta bonus_scale_factor v_max bonus_type
      = Ok (bonus_scale_factor * sqrt (1 / (beta + sum_weights))
            + (1 + beta) * v_max / (beta + sum_weights))) /\
     (0 < beta + sum_weights ->
      (raises (compute_bonus sum_weights beta bonus_scale_factor v_max
                 bonus_type)
       <-> bonus_type <> simplified_bernstein))) /\
  (forall (metric_lp : vec -> vec -> Z -> vec -> R)
          (kernel_func : R -> string -> result R) (env_t : Type)
          (cfg : config) (lo hi : R) (self : agent env_t)
          (state : vec) (action : nat) (next_state : vec) (reward : R),
     0 < beta cfg -> bandwidth cfg <> 0 ->
     (forall z, exists w, kernel_func z (kernel_type cfg) = Ok w /\ 0 <= w) ->
     (0 < max_repr cfg)%nat -> lo <= 0 <= hi ->
     agent_wf env_t cfg lo hi self -> (action < A cfg)%nat ->
     lo <= reward <= hi ->
     bonus_type cfg <> simplified_bernstein ->
     _update metric_lp kernel_func cfg self state action next_state reward
     = Raise NotImplementedError).
Proof.
  split.
  - intros. apply compute_bonus_raises.
  - intros metric_lp kernel_func env_t cfg lo hi self state action next_state
      reward Hbeta Hbw Hker Hcap Hlh Hwf Ha Hrew Hbt.
    now apply (update_total metric_lp kernel_func env_t cfg Hbeta Hbw Hker Hcap
                 lo hi Hlh self state action next_state reward Hwf Ha Hrew).
Qed.

(** C1, amended.  With a regularisation constant [beta >= 0] and a
    kernel whose weights are non-negative, after [reset] and any
    sequence of calls of [_update] the row [P_hat[u, a, :]] of an active
    pair has non-negative entries over the active representatives, and
    these sum to [N_sa[u, a] / (beta + N_sa[u, a])]: at most 1, and
    strictly less than 1 when [beta > 0]. *)
Theorem P_hat_row_mass (metric_lp : vec -> vec -> Z -> vec -> R)
    (kernel_func : R -> string -> result R) (env_t : Type) (cfg : config)
    (self : agent env_t) (u a : nat) :
  0 <= beta cfg ->
  (forall z w, kernel_func z (kernel_type cfg) = Ok w -> 0 <= w) ->
  trained metric_lp kernel_func env_t cfg (fun _ => True) self ->
  (u < M self)%nat -> (a < A cfg)%nat ->
  exists n p,
    get2 (N_sa self) u a = Ok n /\ get2 (P_hat self) u a = Ok p /\
    0 <= n /\
    Forall (fun x => 0 <= x) (take (M self) p) /\
    sum (take (M self) p) = n / (beta cfg + n) /\
    sum (take (M self) p) <= 1 /\
    (0 < beta cfg -> sum (take (M self) p) < 1).
Proof.
  intros Hbeta Hker Htr Hu Ha.
  destruct (trained_bounded _ _ _ _ _ Htr) as (lo & hi & Hb & Htr').
  destruct (trained_ok metric_lp kernel_func env_t cfg Hbeta Hker lo hi Hb
              (fun r => lo <= r <= hi) self (fun r H => H) Htr')
    as (HM & _ & Hok).
  destruct (Hok u a) as (n & p & r & En & Ep & _ & Hn & Hp & Hs & Hz & _);
    [lia | exact Ha |].
  exists n, p. split; [exact En|]. split; [exact Ep|]. split; [exact Hn|].
  split; [now apply Forall_take|].
  assert (Ht : sum (take (M self) p) = n / (beta cfg + n)).
  { rewrite <- Hs, (sum_take_drop (M self) p),
      (sum_all_zero (drop (M self) p)) by assumption. lra. }
  rewrite Ht. split; [reflexivity|].
  destruct (Req_dec_T (beta cfg + n) 0) as [E|E].
  - assert (n = 0) as -> by lra. unfold Rdiv. split; intros; lra.
  - assert (Hpos : 0 < beta cfg + n) by lra. split.
    + apply Rmult_le_reg_r with (r := beta cfg + n); [exact Hpos|].
      unfold Rdiv. rewrite Rmult_assoc, Rinv_l by exact E. lra.
    + intros Hb0. apply Rmult_lt_reg_r with (r := beta cfg + n); [exact Hpos|].
      unfold Rdiv. rewrite Rmult_assoc, Rinv_l by exact E. lra.
Qed.

(** C3, amended.  When every observed reward lies in [[r_min, r_max]],
    every entry of [R_hat] stays within [[min(r_min, 0), max(r_max, 0)]]
    after [reset] and any sequence of calls of [_update]; it stays
    within [[r_min, r_max]] when that range contains 0, the value the
    table starts from. *)
Theorem R_hat_bounds (metric_lp : vec -> vec -> Z -> vec -> R)
    (kernel_func : R -> string -> result R) (env_t : Type) (cfg : config)
    (r_min r_max : R) (self : agent env_t) (u a : nat) :
  0 <= beta cfg ->
  (forall z w, kernel_func z (kernel_type cfg) = Ok w -> 0 <= w) ->
  trained metric_lp kernel_func env_t cfg (fun r => r_min <= r <= r_max) self ->
  (u < max_repr cfg)%nat -> (a < A cfg)%nat ->
  exists r,
    get2 (R_hat self) u a = Ok r /\
    Rmin r_min 0 <= r <= Rmax r_max 0 /\
    (r_min <= 0 <= r_max -> r_min <= r <= r_max).
Proof.
  intros Hbeta Hker Htr Hu Ha.
  pose proof (Rmin_l r_min 0). pose proof (Rmin_r r_min 0).
  pose proof (Rmax_l r_max 0). pose proof (Rmax_r r_max 0).
  assert (Hb : Rmin r_min 0 <= 0 <= Rmax r_max 0) by lra.
  destruct (trained_ok metric_lp kernel_func env_t cfg Hbeta Hker
              (Rmin r_min 0) (Rmax r_max 0) Hb
              (fun r => r_min <= r <= r_max) self) as (_ & _ & Hok);
    [intros; lra | exact Htr |].
  destruct (Hok u a Hu Ha) as (n & p & r & _ & _ & Er & _ & _ & _ & _ & Hr).
  exists r. split; [exact Er|]. split; [exact Hr|].
  intros Hzero. rewrite Rmin_left, Rmax_left in Hr by lra. exact Hr.
Qed.

(** ** The agent driver *)

Lemma for_loop_inv_partial {St : Type} (I : nat -> St -> Prop) (n : nat)
    (body : nat -> St -> result St) (s y : St) :
  I 0%nat s ->
  (forall i x x', (i < n)%nat -> I i x -> body i x = Ok x' -> I (S i) x') ->
  for_loop (range n) body s = Ok y -> I n y.
Proof.
  intros H0 Hstep. revert y. induction n as [|n IH]; intros y H.
  - simpl in H. now injection H as <-.
  - rewrite for_loop_S in H. bind_inv H.
    apply (Hstep n x y); [lia | | exact H].
    apply IH; [|exact E]. intros i z z' Hi. apply Hstep. lia.
Qed.

Lemma for_loop_raise {St : Type} (l : list nat)
    (body : nat -> St -> result St) (s : St) (e : exn) :
  for_loop l body s = Raise e -> exists i x, body i x = Raise e.
Proof.
  revert s. induction l as [|i l IH]; intros s H; simpl in H; [discriminate|].
  destruct (body i s) as [s'|e'] eqn:E; simpl in H.
  - now apply IH in H.
  - injection H as ->. eauto.
Qed.

Section Driver.

Variable metric_lp : vec -> vec -> Z -> vec -> R.
Variable kernel_func : R -> string -> result R.
Variable env_t : Type.
Variable env_reset : env_t -> vec * env_t.
Variable env_step : env_t -> nat -> (vec * R * bool) * env_t.
Variable backward_induction : mat -> ten -> nat -> R -> result (ten * mat).
Variable backward_induction_in_place :
  ten -> mat -> mat -> ten -> nat -> R -> R -> result (ten * mat).
Variable cfg : config.

Local Abbreviation agent := (agent env_t).
Local Abbreviation _run_episode' :=
  (_run_episode metric_lp kernel_func env_reset env_step
     backward_induction_in_place cfg).
Local Abbreviation fit_step' :=
  (fit_step metric_lp kernel_func env_reset env_step
     backward_induction_in_place cfg).
Local Abbreviation fit' :=
  (fit metric_lp kernel_func env_reset env_step backward_induction
     backward_induction_in_place cfg).
Local Abbreviation same_values := (same_values env_t).
Local Abbreviation rewards_inv := (rewards_inv env_t cfg).

Lemma same_values_refl (self : agent) : same_values self self.
Proof. repeat split. Qed.

Lemma same_values_trans (a b c : agent) :
  same_values a b -> same_values b c -> same_values a c.
Proof.
  intros (? & ? & ? & ? & ? & ?) (? & ? & ? & ? & ? & ?).
  repeat split; congruence.
Qed.

Lemma map_to_repr_values (self self' : agent) (state : vec) (accept : bool)
    (idx : Z) :
  _map_to_repr metric_lp cfg self state accept = Ok (idx, self') ->
  same_values self self'.
Proof.
  unfold _map_to_repr. intros H. bind_inv H. destruct x as [i reprs].
  injection H as _ <-. repeat split.
Qed.

Lemma update_values (self self' : agent) (state : vec) (action : nat)
    (next_state : vec) (reward : R) :
  _update metric_lp kernel_func cfg self state action next_state reward
  = Ok self' ->
  same_values self self'.
Proof.
  unfold _update. intros H.
  bind_inv H. destruct x as [idx1 self1]. apply map_to_repr_values in E.
  bind_inv H. destruct x as [idx2 self2]. apply map_to_repr_values in E0.
  bind_inv H. destruct x as [[[n b] p] r]. injection H as <-.
  apply (same_values_trans _ _ _ E), (same_values_trans _ _ _ E0).
  repeat split.
Qed.

Lemma get_action_values (self self' : agent) (state : vec) (hh action : nat) :
  _get_action metric_lp cfg self state hh = Ok (action, self') ->
  same_values self self'.
Proof.
  unfold _get_action. intros H.
  bind_inv H. destruct x as [idx self1]. apply map_to_repr_values in E.
  bind_inv H. now injection H as _ <-.
Qed.

Lemma episode_step_values (hh : nat) (self self' : agent) (s s' : vec)
    (er er' : R) :
  episode_step metric_lp kernel_func env_step cfg hh (self, s, er)
  = Ok (self', s', er') ->
  same_values self self'.
Proof.
  unfold episode_step. intros H.
  bind_inv H. destruct x as [action self1]. apply get_action_values in E.
  destruct (env_step (env self1) action) as [[[next_state reward] done] e].
  bind_inv H. apply update_values in E0. injection H as <- _ _.
  apply (same_values_trans _ _ _ E). destruct E0 as (? & ? & ? & ? & ? & ?).
  repeat split; assumption.
Qed.

Lemma interaction_values (l : list nat) (self self' : agent) (s s' : vec)
    (er er' : R) :
  for_loop l (episode_step metric_lp kernel_func env_step cfg) (self, s, er)
  = Ok (self', s', er') ->
  same_values self self'.
Proof.
  intros H.
  apply (for_loop_preserves
           (fun st : agent * vec * R => same_values self st.1.1)) in H;
    [exact H | | apply same_values_refl].
  intros i [[x sx] ex] [[y sy] ey] Hx Hstep. simpl in *.
  apply episode_step_values in Hstep. eapply same_values_trans; eauto.
Qed.

(** A call of [_run_episode] that returns: the interaction leaves the
    agent [self1], then the solver is run on the model of [self1]. *)
Lemma run_episode_inv (self self' : agent) (er : R) :
  _run_episode' self = Ok (er, self') ->
  exists (self1 : agent) (q : ten) (v : mat),
    same_values self self1 /\
    backward_induction_in_place
      (cols (M self1) (Q self1)) (cols (M self1) (V self1))
      (exploration_reward self1) (block (M self1) (P_hat self1))
      (horizon cfg) (gamma cfg) (v_max cfg) = Ok (q, v) /\
    env self' = env self1 /\ M self' = M self1 /\
    representative_states self' = representative_states self1 /\
    N_sa self' = N_sa self1 /\ B_sa self' = B_sa self1 /\
    R_hat self' = R_hat self1 /\ P_hat self' = P_hat self1 /\
    V self' = set_cols (M self1) v (V self1) /\
    Q self' = set_cols (M self1) q (Q self1) /\
    Q_policy self' = Q_policy self /\ episode self' = episode self /\
    _rewards self' = _rewards self /\ _cumul_rewards self' = _cumul_rewards self.
Proof.
  unfold _run_episode. intros H.
  destruct (env_reset (env self)) as [state e].
  bind_inv H. destruct x as [[self1 s1] er1].
  apply interaction_values in E.
  bind_inv H. destruct x as [q v]. injection H as <- <-.
  destruct E as (EV & EQ & EP & Ee & Er & Ec). simpl in *.
  exists self1, q, v. repeat split; try assumption; try reflexivity.
Qed.

(** The entries of the two reward tables that the solvers are given:
    the first [m] rows of a table, and the sum of two tables. *)
Lemma get2_rows (m : nat) (a : mat) (u j : nat) (x : R) :
  get2 (rows m a) u j = Ok x <-> (u < m)%nat /\ get2 a u j = Ok x.
Proof.
  rewrite !get2_spec. unfold rows. split.
  - intros (row & Hrow & Hx). apply lookup_take_Some in Hrow as [Hrow Hu]. eauto.
  - intros (Hu & row & Hrow & Hx). exists row. split; [|exact Hx].
    now apply lookup_take_Some.
Qed.

Lemma get2_add2 (a b : mat) (u j : nat) (x : R) :
  get2 (add2 a b) u j = Ok x <->
  exists r c, get2 a u j = Ok r /\ get2 b u j = Ok c /\ x = r + c.
Proof.
  unfold add2. split.
  - intros H. apply get2_spec in H as (row & Hrow & Hx).
    apply lookup_zip_with_Some in Hrow as (ra & rb & -> & Ha & Hb).
    apply lookup_zip_with_Some in Hx as (r & c & -> & Hr & Hc).
    exists r, c. split; [|split; [|reflexivity]]; apply get2_spec; eauto.
  - intros (r & c & Hr & Hc & ->).
    apply get2_spec in Hr as (ra & Ha & Hr). apply get2_spec in Hc as (rb & Hb & Hc).
    apply get2_spec. exists (zip_with Rplus ra rb). split.
    + apply lookup_zip_with_Some. eauto.
    + apply lookup_zip_with_Some. eauto.
Qed.

(** C6.  The solve that ends an episode is given the bonus-augmented
    reward of the current model, the table whose entry for an active
    representative [u] and an action [a] is [R_hat[u, a] + B_sa[u, a]],
    and writes the exploration tables [Q] and [V]; the one solve that
    ends [fit], which produces [Q_policy], is given [R_hat] alone, the
    table whose entry is [R_hat[u, a]].  Neither table has an entry for
    a representative that is not active. *)
Theorem solver_rewards (self self' : agent) :
  (forall er, _run_episode' self = Ok (er, self') ->
   exists (reward : mat) (q : ten) (v : mat),
     (forall u a x, get2 reward u a = Ok x <->
        (u < M self')%nat /\
        exists r b, get2 (R_hat self') u a = Ok r /\
                    get2 (B_sa self') u a = Ok b /\ x = r + b) /\
     reward = add2 (rows (M self') (R_hat self')) (rows (M self') (B_sa self')) /\
     backward_induction_in_place
       (cols (M self') (Q self)) (cols (M self') (V self))
       reward (block (M self') (P_hat self'))
       (horizon cfg) (gamma cfg) (v_max cfg) = Ok (q, v) /\
     Q self' = set_cols (M self') q (Q self) /\
     V self' = set_cols (M self') v (V self) /\
     Q_policy self' = Q_policy self) /\
  (forall n rewards, fit' self = Ok (n, rewards, self') ->
   exists (reward : mat) (q : ten) (v : mat),
     (forall u a x, get2 reward u a = Ok x <->
        (u < M self')%nat /\ get2 (R_hat self') u a = Ok x) /\
     reward = rows (M self') (R_hat self') /\
     backward_induction
       reward (block (M self') (P_hat self'))
       (horizon cfg) (gamma cfg) = Ok (q, v) /\
     Q_policy self' = Some q).
Proof.
  split.
  - intros er H. apply run_episode_inv in H
      as (self1 & q & v & (EV & EQ & _) & Hsolve & _ & EM & _ & _ & EB & ER & EP
          & HV & HQ & HQp & _).
    eexists _, q, v. split; [|split; [reflexivity|]].
    + intros u a x. rewrite get2_add2. split.
      * intros (r & b & Hr & Hb & ->).
        apply get2_rows in Hr as [Hu Hr]. apply get2_rows in Hb as [_ Hb].
        split; [exact Hu|]. exists r, b. auto.
      * intros (Hu & r & b & Hr & Hb & ->).
        exists r, b. rewrite !get2_rows. auto.
    + unfold exploration_reward in Hsolve.
      rewrite EM, ER, EB, EP, <- EV, <- EQ. auto.
  - intros n rewards H. unfold fit in H.
    bind_inv H. bind_inv H. destruct x0 as [q v]. injection H as _ _ <-.
    eexists _, q, v. split; [|split; [reflexivity|]].
    + intros u a y. apply get2_rows.
    + split; [exact E0 | reflexivity].
Qed.

(** *** The reward arrays *)

Lemma fit_step_inv (kk : nat) (self self' : agent) :
  fit_step' kk self = Ok self' ->
  exists er,
    (kk < length (_rewards self))%nat /\
    _rewards self' = <[kk := er]> (_rewards self) /\
    (kk = 0%nat -> _cumul_rewards self' = _cumul_rewards self) /\
    ((0 < kk)%nat ->
     exists prev, _cumul_rewards self !! (kk - 1)%nat = Some prev /\
       (kk < length (_cumul_rewards self))%nat /\
       _cumul_rewards self' = <[kk := er + prev]> (_cumul_rewards self)) /\
    Q_policy self' = Q_policy self /\ episode self' = S (episode self).
Proof.
  unfold fit_step. intros H. bind_inv H. destruct x as [er self1].
  apply run_episode_inv in E
    as (s1 & q & v & _ & _ & _ & _ & _ & _ & _ & _ & _ & _ & _ & HQp & He & Hr
        & Hc).
  bind_inv H. apply set_spec in E as [Hlt ->].
  bind_inv H. injection H as <-. simpl. rewrite Hr, Hc, HQp, He in *.
  exists er. split; [exact Hlt|]. split; [reflexivity|].
  destruct kk as [|kk]; simpl in E.
  - injection E as <-. repeat split; try reflexivity. intros; lia.
  - bind_inv E. apply get_spec in E0. apply set_spec in E as [Hlt' ->].
    repeat split; try reflexivity; try discriminate.
    intros _. exists x0. replace (S kk - 1)%nat with (kk - 0)%nat by lia.
    split; [exact E0|]. split; [exact Hlt' | reflexivity].
Qed.

Lemma rewards_inv_init (self : agent) : rewards_inv 0 (fit_init cfg self).
Proof.
  unfold rewards_inv, fit_init, zeros. simpl. rewrite !length_replicate.
  repeat split.
  - intros j Hj. apply lookup_replicate_2. lia.
  - intros Hn. now apply lookup_replicate_2.
  - intros j Hj. lia.
Qed.

Lemma rewards_inv_step (k : nat) (self self' : agent) :
  (k < n_episodes cfg)%nat -> rewards_inv k self ->
  fit_step' k self = Ok self' -> rewards_inv (S k) self'.
Proof.
  intros Hk (Hlr & Hlc & Hz & H0 & Hrec) Hstep.
  apply fit_step_inv in Hstep as (er & Hlt & Er & Ec0 & Ec & _).
  unfold rewards_inv. destruct k as [|k].
  - rewrite (Ec0 eq_refl), Er. repeat split.
    + now rewrite length_insert.
    + exact Hlc.
    + intros j Hj. apply Hz. lia.
    + exact H0.
    + intros j Hj. lia.
  - destruct Ec as (prev & Hprev & Hltc & Ec); [lia|].
    rewrite Ec, Er. repeat split.
    + now rewrite length_insert.
    + now rewrite length_insert.
    + intros j Hj. rewrite list_lookup_insert_ne by lia. apply Hz. lia.
    + intros Hn. rewrite list_lookup_insert_ne by lia. now apply H0.
    + intros j Hj. destruct (Nat.eq_dec j (S k)) as [->|Hne].
      * exists er, prev. rewrite !list_lookup_insert_eq by lia.
        rewrite list_lookup_insert_ne by lia. auto.
      * destruct (Hrec j) as (r & c & Hr & Hc & Hrc); [lia|].
        exists r, c. rewrite !list_lookup_insert_ne by lia. auto.
Qed.

Lemma cumul_sum (rewards cumul : vec) (n : nat) :
  length rewards = n -> length cumul = n ->
  ((0 < n)%nat -> cumul !! 0%nat = Some 0) ->
  (forall j, (1 <= j < n)%nat ->
   exists r c, rewards !! j = Some r /\ cumul !! (j - 1)%nat = Some c /\
     cumul !! j = Some (r + c)) ->
  forall kk, (kk < n)%nat ->
    cumul !! kk = Some (sum (take kk (drop 1 rewards))).
Proof.
  intros Hlr Hlc H0 Hrec kk. induction kk as [|kk IH]; intros Hkk.
  - rewrite H0 by lia. reflexivity.
  - destruct (Hrec (S kk)) as (r & c & Hr & Hc & Hrc); [lia|].
    simpl in Hc. rewrite Nat.sub_0_r in Hc. rewrite IH in Hc by lia.
    injection Hc as <-. rewrite Hrc. f_equal.
    assert (Hd : drop 1 rewards !! kk = Some r)
      by (rewrite lookup_drop; exact Hr).
    rewrite (take_S_r _ _ _ Hd), sum_app. simpl. lra.
Qed.

(** C9.  After [fit], [_cumul_rewards[0]] is 0 whatever the reward of
    the first episode, and [_cumul_rewards[kk]] is
    [_rewards[kk] + _cumul_rewards[kk - 1]] for every [kk >= 1]: the
    cumulative reward at [kk] is the sum of the rewards of the episodes
    1 to [kk], the one of episode 0 left out. *)
Theorem cumul_rewards_skip_first (self self' : agent) (n : nat) (rewards : vec) :
  fit' self = Ok (n, rewards, self') ->
  rewards = _rewards self' /\
  length rewards = n_episodes cfg /\
  length (_cumul_rewards self') = n_episodes cfg /\
  ((0 < n_episodes cfg)%nat -> _cumul_rewards self' !! 0%nat = Some 0) /\
  (forall kk, (1 <= kk < n_episodes cfg)%nat ->
   exists r c, _rewards self' !! kk = Some r /\
     _cumul_rewards self' !! (kk - 1)%nat = Some c /\
     _cumul_rewards self' !! kk = Some (r + c)) /\
  (forall kk, (kk < n_episodes cfg)%nat ->
   _cumul_rewards self' !! kk = Some (sum (take kk (drop 1 rewards)))).
Proof.
  unfold fit. intros H. bind_inv H. bind_inv H. destruct x0 as [q v].
  injection H as _ <- <-. simpl.
  apply (for_loop_inv_partial rewards_inv) in E;
    [| apply rewards_inv_init | intros i y y'; apply rewards_inv_step].
  destruct E as (Hlr & Hlc & _ & H0 & Hrec).
  repeat split; try assumption.
  now apply cumul_sum.
Qed.

(** *** The recommended policy *)

Lemma bind_Raise {T U : Type} (c : result T) (k : T -> result U) (e : exn) :
  (x ← c; k x) = Raise e -> c = Raise e \/ exists x, c = Ok x /\ k x = Raise e.
Proof.
  destruct c as [x|e']; simpl; [eauto | intros H; injection H as ->; now left].
Qed.

Lemma get_raise {T : Type} (a : list T) (i : nat) (e : exn) :
  get a i = Raise e -> e = IndexError.
Proof. unfold get. destruct (a !! i); [discriminate | congruence]. Qed.

Lemma get_z_raise {T : Type} (a : list T) (i : Z) (e : exn) :
  get_z a i = Raise e -> e = IndexError.
Proof.
  unfold get_z. intros H. apply bind_Raise in H as [H | (k & _ & H)].
  - unfold np_index in H.
    repeat match type of H with
           | (if ?b then _ else _) = _ => destruct b
           end; congruence.
  - now apply get_raise in H.
Qed.

Lemma argmax_raise (a : vec) (e : exn) : argmax a = Raise e -> e = ValueError.
Proof. destruct a; simpl; [congruence | discriminate]. Qed.

Lemma greedy_raise (q : ten) (hh : nat) (i : Z) (e : exn) :
  greedy cfg q hh i = Raise e -> e <> AssertionError.
Proof.
  unfold greedy. intros H.
  destruct (Reqb (gamma cfg) 1);
    (apply bind_Raise in H as [H | (layer & _ & H)];
     [apply get_raise in H; congruence|];
     apply bind_Raise in H as [H | (row & _ & H)];
     [apply get_z_raise in H; congruence|];
     apply argmax_raise in H; congruence).
Qed.

Lemma map_to_repr_raise (self : agent) (state : vec) (accept : bool) (e : exn) :
  _map_to_repr metric_lp cfg self state accept = Raise e -> e = IndexError.
Proof.
  unfold _map_to_repr, map_to_representative. intros H.
  apply bind_Raise in H as [H | ([i r] & _ & H)]; [|discriminate].
  apply bind_Raise in H as [H | ([d am] & _ & H)].
  - apply for_loop_raise in H as (i & [d am] & H). unfold scan_step in H.
    apply bind_Raise in H as [H | (row & _ & H)].
    + now apply get_raise in H.
    + destruct (lt_bound _ _); discriminate.
  - destruct (_ && _); discriminate.
Qed.

(** [policy] fails on its assertion exactly when [Q_policy] is
    [None]. *)
Lemma policy_assertion (self : agent) (state : vec) (hh : nat) :
  policy metric_lp cfg self state hh = Raise AssertionError
  <-> Q_policy self = None.
Proof.
  unfold policy. destruct (Q_policy self) as [q|]; [|tauto].
  split; [|discriminate]. intros H.
  apply bind_Raise in H as [H | ([i self1] & _ & H)].
  - apply map_to_repr_raise in H. discriminate.
  - apply bind_Raise in H as [H | (a & _ & H)]; [|discriminate].
    now apply greedy_raise in H.
Qed.

Lemma fit_loop_policy (k : nat) (self self' : agent) :
  for_loop (range k) fit_step' self = Ok self' ->
  Q_policy self' = Q_policy self.
Proof.
  intros H.
  apply (for_loop_preserves (fun x : agent => Q_policy x = Q_policy self)) in H;
    [exact H | | reflexivity].
  intros i x x' Hx Hstep. apply fit_step_inv in Hstep as (_ & _ & _ & _ & _ & E & _).
  congruence.
Qed.

(** C10.  [Q_policy] is [None] from [reset] (which ends the
    constructor) until the final solve of [fit] assigns it: [policy]
    raises [AssertionError] on the agent that [reset] or the constructor
    leaves and on the agent that any number of iterations of the loop
    of [fit] lead to from there; on the agent that [fit] returns it does
    not raise [AssertionError]. *)
Theorem policy_needs_fit (self : agent) (e : env_t) (state : vec) (hh : nat) :
  policy metric_lp cfg (reset cfg self) state hh = Raise AssertionError /\
  policy metric_lp cfg (new_agent cfg e) state hh = Raise AssertionError /\
  (forall k self_k,
     for_loop (range k) fit_step' (fit_init cfg (reset cfg self)) = Ok self_k ->
     policy metric_lp cfg self_k state hh = Raise AssertionError) /\
  (forall n rewards self',
     fit' self = Ok (n, rewards, self') ->
     Q_policy self' <> None /\
     policy metric_lp cfg self' state hh <> Raise AssertionError).
Proof.
  split; [now apply policy_assertion|]. split; [now apply policy_assertion|].
  split.
  - intros k self_k H. apply policy_assertion.
    now rewrite (fit_loop_policy _ _ _ H).
  - intros n rewards self' H. unfold fit in H.
    bind_inv H. bind_inv H. destruct x0 as [q v]. injection H as _ _ <-.
    assert (Hq : Q_policy
              {| env := env x; M := M x;
                 representative_states := representative_states x;
                 N_sa := N_sa x; B_sa := B_sa x; R_hat := R_hat x;
                 P_hat := P_hat x; V := V x; Q := Q x; Q_policy := Some q;
                 episode := episode x; _rewards := _rewards x;
                 _cumul_rewards := _cumul_rewards x |} <> None)
      by discriminate.
    split; [exact Hq|]. intros Hp. now apply policy_assertion in Hp.
Qed.

End Driver.

(** ** Training sequences and runs *)

Section Runs.

Variable metric_lp : vec -> vec -> Z -> vec -> R.
Variable kernel_func : R -> string -> result R.
Variable env_t : Type.
Variable env_reset : env_t -> vec * env_t.
Variable env_step : env_t -> nat -> (vec * R * bool) * env_t.
Variable backward_induction : mat -> ten -> nat -> R -> result (ten * mat).
Variable backward_induction_in_place :
  ten -> mat -> mat -> ten -> nat -> R -> R -> result (ten * mat).
Variable cfg : config.
Variable ok_reward : R -> Prop.

Hypothesis beta_nonneg : 0 <= beta cfg.
Hypothesis kernel_nonneg :
  forall z w, kernel_func z (kernel_type cfg) = Ok w -> 0 <= w.
Hypothesis env_rewards :
  forall e action next_state reward done e',
    env_step e action = (next_state, reward, done, e') -> ok_reward reward.

Local Abbreviation agent := (agent env_t).
Local Abbreviation trained := (trained metric_lp kernel_func env_t cfg ok_reward).

Lemma trained_capacity (self : agent) :
  trained self -> (M self <= length (representative_states self))%nat.
Proof.
  intros H.
  apply (trained_weaken _ _ _ _ _ (fun _ => True)) in H; [|now intros].
  destruct (trained_bounded _ _ _ _ _ H) as (lo & hi & Hb & H').
  destruct (trained_ok metric_lp kernel_func env_t cfg beta_nonneg
              kernel_nonneg lo hi Hb (fun r => lo <= r <= hi) self
              (fun r Hr => Hr) H') as (HM & Hlen & _).
  lia.
Qed.

Lemma get_action_trained (self self' : agent) (state : vec) (hh action : nat) :
  trained self ->
  _get_action metric_lp cfg self state hh = Ok (action, self') ->
  trained self'.
Proof.
  intros Htr H. unfold _get_action in H.
  bind_inv H. destruct x as [idx self1]. bind_inv H. injection H as _ <-.
  apply map_to_repr_inv in E
    as (_ & _ & _ & _ & _ & Hsame & _ & EN & EB & ER & EP & _);
    [|now apply trained_capacity].
  destruct (Hsame eq_refl) as [EM Ereprs].
  apply (trained_other _ _ _ _ _ self); [exact Htr|].
  repeat split; assumption.
Qed.

Lemma episode_step_trained (hh : nat) (self self' : agent) (s s' : vec)
    (er er' : R) :
  trained self ->
  episode_step metric_lp kernel_func env_step cfg hh (self, s, er)
  = Ok (self', s', er') ->
  trained self'.
Proof.
  intros Htr H. unfold episode_step in H.
  bind_inv H. destruct x as [action self1].
  apply (get_action_trained _ _ _ _ _ Htr) in E.
  destruct (env_step (env self1) action) as [[[next_state reward] done] e]
    eqn:Hstep.
  bind_inv H. injection H as <- _ _.
  apply (trained_update _ _ _ _ _ (set_env self1 e) s action next_state reward);
    [|eapply env_rewards; eauto | exact E0].
  apply (trained_other _ _ _ _ _ self1); [exact E|].
  repeat split.
Qed.

(** The agent that an episode leaves has been reached by a training
    sequence, and so has the agent that [fit] returns. *)
Lemma run_episode_trained (self self' : agent) (er : R) :
  trained self ->
  _run_episode metric_lp kernel_func env_reset env_step
    backward_induction_in_place cfg self = Ok (er, self') ->
  trained self'.
Proof.
  intros Htr H. unfold _run_episode in H.
  destruct (env_reset (env self)) as [state e].
  bind_inv H. destruct x as [[self1 s1] er1].
  bind_inv H. destruct x as [q v]. injection H as _ <-.
  apply (for_loop_preserves
           (fun st : agent * vec * R => trained st.1.1)) in E.
  - simpl in E. apply (trained_other _ _ _ _ _ self1); [exact E|].
    repeat split.
  - intros i [[x sx] ex] [[y sy] ey] Hx Hstep. simpl in *.
    eapply episode_step_trained; eauto.
  - simpl. apply (trained_other _ _ _ _ _ self); [exact Htr|]. repeat split.
Qed.

Lemma fit_trained (self self' : agent) (n : nat) (rewards : vec) :
  trained self ->
  fit metric_lp kernel_func env_reset env_step backward_induction
    backward_induction_in_place cfg self = Ok (n, rewards, self') ->
  trained self'.
Proof.
  intros Htr H. unfold fit in H.
  bind_inv H. bind_inv H. destruct x0 as [q v]. injection H as _ _ <-.
  apply (for_loop_preserves trained) in E.
  - apply (trained_other _ _ _ _ _ x); [exact E|]. repeat split.
  - intros i y y' Hy Hstep. unfold fit_step in Hstep.
    apply bind_Ok in Hstep as ([er self1] & Hrun & Hstep).
    apply (run_episode_trained _ _ _ Hy) in Hrun.
    apply bind_Ok in Hstep as (rw & _ & Hstep).
    apply bind_Ok in Hstep as (cm & _ & Hstep). injection Hstep as <-.
    apply (trained_other _ _ _ _ _ self1); [exact Hrun|]. repeat split.
  - apply (trained_other _ _ _ _ _ self); [exact Htr|]. repeat split.
Qed.

End Runs.

Lemma metric_1d (x y s : R) :
  metric_lp_spec [x] [y] 2 [s] = Rabs ((x - y) / s).
Proof.
  unfold metric_lp_spec. simpl.
  set (d := Rabs ((x - y) / s)).
  assert (Hd : 0 <= d) by apply Rabs_pos.
  replace (d * (d * 1) + 0) with (d * d) by lra.
  destruct (Reqb (d * d) 0) eqn:E.
  - apply Reqb_spec in E. symmetry. nra.
  - assert (d * d <> 0) by (intros H; apply Reqb_spec in H; congruence).
    assert (0 < d) by nra.
    replace (1 / 2) with (/ 2) by lra.
    rewrite Rpower_sqrt by nra. now apply sqrt_square.
Qed.

Lemma kernel_func_spec_nonneg (z w : R) (kernel_type : string) :
  kernel_func_spec z kernel_type = Ok w -> 0 <= w.
Proof.
  unfold kernel_func_spec.
  destruct (String.eqb kernel_type "epanechnikov"); [|discriminate].
  intros H. injection H as <-.
  destruct (Rltb 1 z); [lra | apply Rmax_l].
Qed.

(** Arithmetic on constants; a square root is only known to be
    non-negative. *)
Ltac rsolve :=
  repeat match goal with
         | |- context [sqrt ?x] =>
             lazymatch goal with
             | _ : 0 <= sqrt x |- _ => fail
             | _ => pose proof (sqrt_pos x)
             end
         end;
  lra.

(** One step of a run: a distance, an absolute value, a division or a
    comparison between constants is replaced by its value. *)
Ltac rstep :=
  match goal with
  | |- context [metric_lp_spec [?x] [?y] 2 [?s]] => rewrite (metric_1d x y s)
  | |- context [Rabs ?a] =>
      first [rewrite (Rabs_pos_eq a) by lra | rewrite (Rabs_left1 a) by lra]
  | |- context [fdiv ?a ?b] => rewrite (fdiv_ok a b) by lra
  | |- context [Rltb ?a ?b] =>
      first [rewrite (Rltb_true a b) by lra
            | rewrite (Rltb_false a b) by lra]
  | |- context [Reqb ?a ?b] =>
      first [rewrite (Reqb_false a b) by lra
            | replace (Reqb a b) with true
                by (symmetry; apply Reqb_spec; lra)]
  | |- context [Rmax ?a ?b] =>
      first [rewrite (Rmax_right a b) by rsolve
            | rewrite (Rmax_left a b) by rsolve]
  | |- context [Rmin ?a ?b] =>
      first [rewrite (Rmin_right a b) by rsolve
            | rewrite (Rmin_left a b) by rsolve]
  end.

Ltac run :=
  repeat (simpl; unfold solve_layer, clip, dot, sum, zeros; try rstep).

(** Equality of two arrays of constants, entry by entry. *)
Ltac vec_eq :=
  repeat match goal with
         | |- @eq R _ _ => first [lra | f_equal]
         | |- @eq (list _) (_ :: _) (_ :: _) => apply (f_equal2 cons)
         | |- @eq (list _) _ _ => reflexivity
         end.

Ltac unfold_agent :=
  unfold demo_fit, demo_run_episode, demo_update, demo_agent, fit, fit_step,
    _run_episode, episode_step, _get_action, _update, _map_to_repr,
    map_to_representative, scan_step, new_agent, reset, fit_init, greedy,
    update_model, update_step, kernel_func_spec, compute_bonus,
    backward_induction_in_place_spec, backward_induction_spec,
    get_z, get2, set2, get, set, np_index.

Lemma demo_update_1 : demo_update demo_agent = Ok demo_agent_1.
Proof.
  unfold_agent. run. unfold demo_agent_1.
  repeat f_equal; vec_eq.
Qed.

(** The first episode: a representative is created, the reward is 1. *)
Lemma demo_episode_1 (ep : nat) (rewards cumul : vec) :
  demo_run_episode (demo_stage_0 ep rewards cumul)
  = Ok (1, demo_stage_1 ep rewards cumul).
Proof.
  unfold_agent. unfold demo_stage_0. run. unfold demo_stage_1.
  apply f_equal, f_equal2; [lra|]. repeat f_equal; vec_eq.
Qed.

Lemma demo_episode_2 (ep : nat) (rewards cumul : vec) :
  demo_run_episode (demo_stage_1 ep rewards cumul)
  = Ok (1, demo_stage_2 ep rewards cumul None).
Proof.
  unfold_agent. unfold demo_stage_1. run. unfold demo_stage_2.
  apply f_equal, f_equal2; [lra|]. repeat f_equal; vec_eq.
Qed.

Lemma demo_fit_step_1 :
  fit_step metric_lp_spec kernel_func_spec demo_reset demo_step
    backward_induction_in_place_spec demo_cfg 0 (demo_stage_0 0 [0; 0] [0; 0])
  = Ok (demo_stage_1 1 [1; 0] [0; 0]).
Proof.
  unfold fit_step. pose proof (demo_episode_1 0 [0; 0] [0; 0]) as H.
  unfold demo_run_episode in H. rewrite H. reflexivity.
Qed.

Lemma demo_fit_step_2 :
  fit_step metric_lp_spec kernel_func_spec demo_reset demo_step
    backward_induction_in_place_spec demo_cfg 1 (demo_stage_1 1 [1; 0] [0; 0])
  = Ok (demo_stage_2 2 [1; 1] [0; 1] None).
Proof.
  unfold fit_step. pose proof (demo_episode_2 1 [1; 0] [0; 0]) as H.
  unfold demo_run_episode in H. rewrite H. simpl.
  unfold demo_stage_2. repeat f_equal. lra.
Qed.

(** The two episodes of [fit] and the final solve. *)
Lemma demo_fit_run : demo_fit demo_agent = Ok (2%nat, [1; 1], demo_fitted).
Proof.
  unfold demo_fit, fit.
  change (fit_init demo_cfg demo_agent) with (demo_stage_0 0 [0; 0] [0; 0]).
  change (range (n_episodes demo_cfg)) with [0%nat; 1%nat].
  cbn [for_loop]. rewrite demo_fit_step_1. cbn [mbind result_bind].
  rewrite demo_fit_step_2. unfold backward_induction_spec. run.
  unfold demo_fitted, demo_stage_2. repeat f_equal. lra.
Qed.

(** The first action of the first episode: there is no representative
    yet, the row [-1] of [Q] is its last reserved row, all zeros. *)
Lemma demo_first_action :
  _get_action metric_lp_spec demo_cfg demo_agent [0] 0 = Ok (0%nat, demo_agent).
Proof. unfold_agent. run. reflexivity. Qed.

Lemma demo_policy_fitted :
  policy metric_lp_spec demo_cfg demo_fitted [0] 0 = Ok (0%nat, demo_fitted).
Proof. unfold policy. unfold_agent. run. reflexivity. Qed.

(** Without any episode [fit] solves a model with no state: [Q_policy]
    has no row, and [policy] fails on its row [-1]. *)
Lemma idle_fit_run :
  fit metric_lp_spec kernel_func_spec demo_reset demo_step
    backward_induction_spec backward_induction_in_place_spec idle_cfg
    (new_agent idle_cfg tt)
  = Ok (0%nat, [], idle_fitted).
Proof. reflexivity. Qed.

Lemma idle_policy :
  policy metric_lp_spec idle_cfg idle_fitted [0] 0 = Raise IndexError.
Proof. unfold policy. unfold_agent. run. reflexivity. Qed.

(** ** The claims on the run *)

Lemma demo_trained (ok_reward : R -> Prop) :
  ok_reward 1 ->
  trained metric_lp_spec kernel_func_spec unit demo_cfg ok_reward demo_agent_1.
Proof.
  intros H.
  apply (trained_update _ _ _ _ _ demo_agent [0] 0%nat [0] 1 demo_agent_1);
    [apply trained_reset | exact H | exact demo_update_1].
Qed.

(** C1 as stated fails: after one transition, the pair (0, 0) has
    received one update of weight 1 and its row sums to 100/101. *)
Lemma P_hat_row_not_distribution :
  demo_update demo_agent = Ok demo_agent_1 /\
  (0 < M demo_agent_1)%nat /\
  get2 (N_sa demo_agent_1) 0 0 = Ok 1 /\
  get2 (P_hat demo_agent_1) 0 0 = Ok [100/101; 0] /\
  sum (take (M demo_agent_1) [100/101; 0]) <> 1.
Proof.
  split; [exact demo_update_1|]. simpl.
  repeat split; try reflexivity; try lia. lra.
Qed.

Lemma P_hat_row_mass_witness :
  exists n p,
    get2 (N_sa demo_agent_1) 0 0 = Ok n /\
    get2 (P_hat demo_agent_1) 0 0 = Ok p /\
    sum (take (M demo_agent_1) p) = n / (beta demo_cfg + n) /\
    sum (take (M demo_agent_1) p) < 1.
Proof.
  destruct (P_hat_row_mass metric_lp_spec kernel_func_spec unit demo_cfg
              demo_agent_1 0 0)
    as (n & p & Hn & Hp & _ & _ & Hs & _ & Hlt).
  - simpl. lra.
  - intros z w. apply kernel_func_spec_nonneg.
  - now apply demo_trained.
  - simpl. lia.
  - simpl. lia.
  - exists n, p. repeat split; try assumption. apply Hlt. simpl. lra.
Defined.

(** C2 as stated fails: with no representative and [accept_new_repr]
    false nothing is created, and the index returned, [-1], is not the
    one of a closest representative, since there is none. *)
Lemma map_to_representative_no_representative :
  map_to_representative metric_lp_spec [0] 2 [[0]; [0]] 0 (1/10) [1] false
  = Ok ((-1)%Z, [[0]; [0]]) /\
  ~ exists k rk, closest metric_lp_spec [0] 2 [1] [[0]; [0]] 0 k rk.
Proof.
  split; [reflexivity|]. intros (k & rk & Hk & _). lia.
Qed.

Lemma map_to_representative_spec_witness :
  exists k rk,
    closest metric_lp_spec [55/100] 2 [1] [[1/10]; [6/10]] 2 k rk /\
    map_to_representative metric_lp_spec [55/100] 2 [[1/10]; [6/10]] 2 (1/2)
      [1] true
    = Ok (Z.of_nat k, [[1/10]; [6/10]]).
Proof.
  destruct (map_to_representative_spec metric_lp_spec [55/100] 2 [1]
              [[1/10]; [6/10]] 2 (1/2) true) as (_ & H & _).
  - simpl. lia.
  - apply H.
    + intros (_ & Hlt & _). simpl in Hlt. lia.
    + lia.
Defined.

(** C3 as stated fails: with rewards in [[1, 2]], the reward 1 observed
    once leaves [R_hat[0, 0] = 100/101], below 1. *)
Lemma R_hat_below_r_min :
  demo_update demo_agent = Ok demo_agent_1 /\
  1 <= 1 <= 2 /\
  get2 (R_hat demo_agent_1) 0 0 = Ok (100/101) /\
  ~ (1 <= 100/101 <= 2).
Proof.
  split; [exact demo_update_1|]. split; [lra|]. split; [reflexivity | lra].
Qed.

Lemma R_hat_bounds_witness :
  exists r, get2 (R_hat demo_agent_1) 0 0 = Ok r /\ 0 <= r <= 1.
Proof.
  destruct (R_hat_bounds metric_lp_spec kernel_func_spec unit demo_cfg 0 1
              demo_agent_1 0 0) as (r & Hr & _ & Hb).
  - simpl. lra.
  - intros z w. apply kernel_func_spec_nonneg.
  - apply demo_trained. lra.
  - simpl. lia.
  - simpl. lia.
  - exists r. split; [exact Hr|]. apply Hb. lra.
Defined.

Lemma kernel_func_spec_total (z : R) :
  exists w, kernel_func_spec z "epanechnikov" = Ok w /\ 0 <= w.
Proof.
  eexists. split; [reflexivity|].
  destruct (Rltb 1 z); [lra | apply Rmax_l].
Qed.

Lemma unknown_bonus_type_fatal_witness :
  compute_bonus 1 (1/100) 1 1 "hoeffding" = Raise NotImplementedError /\
  compute_bonus 1 (1/100) 1 1 simplified_bernstein
  = Ok (1 * sqrt (1 / (1/100 + 1)) + (1 + 1/100) * 1 / (1/100 + 1)) /\
  _update metric_lp_spec kernel_func_spec hoeffding_cfg
    (new_agent hoeffding_cfg tt) [0] 0 [0] 1
  = Raise NotImplementedError.
Proof.
  destruct unknown_bonus_type_fatal as [Hbonus Hupdate].
  split; [|split].
  - apply (Hbonus 1 (1/100) 1 1 "hoeffding"%string). discriminate.
  - apply (Hbonus 1 (1/100) 1 1 simplified_bernstein); [reflexivity | lra].
  - apply (Hupdate metric_lp_spec kernel_func_spec unit hoeffding_cfg 0 1).
    + simpl. lra.
    + simpl. lra.
    + apply kernel_func_spec_total.
    + simpl. lia.
    + lra.
    + apply reset_wf. lra.
    + simpl. lia.
    + lra.
    + discriminate.
Defined.



Lemma solver_rewards_witness :
  demo_run_episode demo_agent = Ok (1, demo_stage_1 0 [] []) /\
  (exists (reward : mat) (q : ten) (v : mat),
     get2 reward 0 0
     = Ok (100/101
           + (1 * sqrt (1 / (1/100 + 1)) + (1 + 1/100) * 1 / (1/100 + 1))) /\
     backward_induction_in_place_spec
       (cols 1 (Q demo_agent)) (cols 1 (V demo_agent)) reward
       (block 1 (P_hat (demo_stage_1 0 [] [])))
       (horizon demo_cfg) (gamma demo_cfg) (v_max demo_cfg) = Ok (q, v) /\
     Q (demo_stage_1 0 [] []) = set_cols 1 q (Q demo_agent)) /\
  demo_fit demo_agent = Ok (2%nat, [1; 1], demo_fitted) /\
  (exists (reward : mat) (q : ten) (v : mat),
     get2 reward 0 0 = Ok (200/201) /\
     backward_induction_spec reward (block 1 (P_hat demo_fitted))
       (horizon demo_cfg) (gamma demo_cfg) = Ok (q, v) /\
     Q_policy demo_fitted = Some q).
Proof.
  pose proof (demo_episode_1 0 [] []) as Hrun.
  pose proof demo_fit_run as Hfit.
  destruct (solver_rewards metric_lp_spec kernel_func_spec unit demo_reset
              demo_step backward_induction_spec
              backward_induction_in_place_spec demo_cfg demo_agent
              (demo_stage_1 0 [] [])) as [H1 _].
  destruct (solver_rewards metric_lp_spec kernel_func_spec unit demo_reset
              demo_step backward_induction_spec
              backward_induction_in_place_spec demo_cfg demo_agent demo_fitted)
    as [_ H2].
  destruct (H1 _ Hrun) as (rw1 & q1 & v1 & He1 & _ & Hs1 & HQ1 & _).
  destruct (H2 _ _ Hfit) as (rw2 & q2 & v2 & He2 & _ & Hs2 & HQ2).
  split; [exact Hrun|]. split; [|split; [exact Hfit|]].
  - exists rw1, q1, v1. split; [|split; [exact Hs1 | exact HQ1]].
    apply He1. split; [simpl; lia|]. eexists _, _.
    split; [reflexivity|]. split; reflexivity.
  - exists rw2, q2, v2. split; [|split; [exact Hs2 | exact HQ2]].
    apply He2. split; [simpl; lia | reflexivity].
Defined.

(** C8 as stated fails: the row [-1] is not always a reserved row.
    Without room for a representative [Q] has no row, and [_get_action]
    fails; after a [fit] that created no representative [Q_policy] has
    the rows of a model without a state, none, and [policy] fails. *)
Lemma minus_one_row_missing :
  M (new_agent no_room_cfg tt) = 0%nat /\
  _get_action metric_lp_spec no_room_cfg (new_agent no_room_cfg tt) [0] 0
  = Raise IndexError /\
  fit metric_lp_spec kernel_func_spec demo_reset demo_step
    backward_induction_spec backward_induction_in_place_spec idle_cfg
    (new_agent idle_cfg tt)
  = Ok (0%nat, [], idle_fitted) /\
  M idle_fitted = 0%nat /\
  policy metric_lp_spec idle_cfg idle_fitted [0] 0 = Raise IndexError.
Proof.
  split; [reflexivity|]. split.
  - unfold_agent. run. reflexivity.
  - split; [exact idle_fit_run|]. split; [reflexivity | exact idle_policy].
Qed.

Lemma no_representative_minus_one_witness :
  _get_action metric_lp_spec demo_cfg demo_agent [0] 0
  = (action ← argmax [0]; Ok (action, demo_agent)) /\
  policy metric_lp_spec idle_cfg idle_fitted [0] 0 = Raise IndexError.
Proof.
  assert (Hh : forall (T : Type) (g : R) (x : T),
            (if Reqb g 1 then x else x) = x)
    by (intros T g x; now destruct (Reqb g 1)).
  split.
  - destruct (no_representative_minus_one metric_lp_spec unit demo_cfg
                demo_agent [0] 0) as (_ & _ & _ & _ & H & _ & _);
      [reflexivity|].
    destruct (H [[0]; [0]]) as [_ Hrow]; [now rewrite Hh|].
    now apply Hrow.
  - destruct (no_representative_minus_one metric_lp_spec unit idle_cfg
                idle_fitted [0] 0) as (_ & _ & _ & _ & _ & H & _);
      [reflexivity|].
    destruct (H [[]] []) as [Hnil _]; [reflexivity | now rewrite Hh|].
    now apply Hnil.
Defined.

Lemma cumul_rewards_skip_first_witness :
  demo_fit demo_agent = Ok (2%nat, [1; 1], demo_fitted) /\
  _cumul_rewards demo_fitted !! 0%nat = Some 0 /\
  _cumul_rewards demo_fitted !! 1%nat = Some (sum (take 1 (drop 1 [1; 1]))).
Proof.
  destruct (cumul_rewards_skip_first metric_lp_spec kernel_func_spec unit
              demo_reset demo_step backward_induction_spec
              backward_induction_in_place_spec demo_cfg demo_agent demo_fitted
              2 [1; 1] demo_fit_run) as (_ & _ & _ & H0 & _ & Hsum).
  split; [exact demo_fit_run|]. split.
  - apply H0. simpl. lia.
  - apply Hsum. simpl. lia.
Defined.

Lemma policy_needs_fit_witness :
  policy metric_lp_spec demo_cfg demo_agent [0] 0 = Raise AssertionError /\
  demo_fit demo_agent = Ok (2%nat, [1; 1], demo_fitted) /\
  policy metric_lp_spec demo_cfg demo_fitted [0] 0 <> Raise AssertionError.
Proof.
  pose proof demo_fit_run as Hfit.
  destruct (policy_needs_fit metric_lp_spec kernel_func_spec unit demo_reset
              demo_step backward_induction_spec
              backward_induction_in_place_spec demo_cfg demo_agent tt [0] 0)
    as (_ & Hnew & _ & Hafter).
  split; [exact Hnew|]. split; [exact Hfit|]. now apply (Hafter _ _ _ Hfit).
Defined.

(** * Further properties *)

Lemma agent_ext {env_t : Type} (a b : agent env_t) :
  env a = env b -> M a = M b ->
  representative_states a = representative_states b ->
  N_sa a = N_sa b -> B_sa a = B_sa b -> R_hat a = R_hat b ->
  P_hat a = P_hat b -> V a = V b -> Q a = Q b -> Q_policy a = Q_policy b ->
  episode a = episode b -> _rewards a = _rewards b ->
  _cumul_rewards a = _cumul_rewards b -> a = b.
Proof. destruct a, b. simpl. intros. subst. reflexivity. Qed.

Section Resolution.

Variable metric_lp : vec -> vec -> Z -> vec -> R.
Variable env_t : Type.
Variable cfg : config.

Local Abbreviation agent := (agent env_t).
Local Abbreviation dist state row :=
  (metric_lp state row (lp_metric cfg) (scaling cfg)).
Local Abbreviation closest state :=
  (closest metric_lp state (lp_metric cfg) (scaling cfg)).
Local Abbreviation create state :=
  (create metric_lp state (lp_metric cfg) (scaling cfg)).
Local Abbreviation separated := (separated metric_lp cfg).
Local Abbreviation extends := (extends env_t).

(** The three outcomes of [_map_to_repr]: a representative is created,
    the closest one is returned and the agent is left as it is, or
    there is none and [-1] is returned. *)
Lemma map_to_repr_outcomes (self : agent) (state : vec) (accept : bool) :
  (M self <= length (representative_states self))%nat ->
  (create state (representative_states self) (M self) (min_dist cfg) accept /\
   exists self',
     _map_to_repr metric_lp cfg self state accept
     = Ok (Z.of_nat (M self), self') /\
     M self' = S (M self) /\
     representative_states self'
     = <[M self := state]> (representative_states self) /\
     N_sa self' = N_sa self /\ B_sa self' = B_sa self /\
     R_hat self' = R_hat self /\ P_hat self' = P_hat self) \/
  (~ create state (representative_states self) (M self) (min_dist cfg) accept /\
   exists k rk,
     closest state (representative_states self) (M self) k rk /\
     _map_to_repr metric_lp cfg self state accept = Ok (Z.of_nat k, self)) \/
  (~ create state (representative_states self) (M self) (min_dist cfg) accept /\
   M self = 0%nat /\
   _map_to_repr metric_lp cfg self state accept = Ok ((-1)%Z, self)).
Proof.
  intros Hcap.
  pose proof (map_to_representative_cases metric_lp state (lp_metric cfg)
                (scaling cfg) (representative_states self) (M self)
                (min_dist cfg) accept Hcap) as Hcases.
  simpl in Hcases.
  destruct Hcases as [[Hc Hcall] | [(Hc & k & rk & Hk & Hcall) | (Hc & Hn & Hcall)]];
    destruct (map_to_repr_unfold _ _ _ _ _ _ _ _ Hcall)
      as (self1 & Hmap & HM & Hr & Hrest).
  - left. split; [exact Hc|]. exists self1. rewrite Z.eqb_refl in HM. tauto.
  - right. left. split; [exact Hc|]. exists k, rk. split; [exact Hk|].
    pose proof (closest_lt _ _ _ _ _ _ _ _ Hk) as Hlt.
    destruct (Z.eqb_spec (Z.of_nat k) (Z.of_nat (M self))) as [E|_]; [lia|].
    rewrite Hmap. do 2 f_equal. apply agent_ext; tauto.
  - right. right. split; [exact Hc|]. split; [exact Hn|].
    destruct (Z.eqb_spec (-1) (Z.of_nat (M self))) as [E|_]; [lia|].
    rewrite Hmap. do 2 f_equal. apply agent_ext; tauto.
Qed.

(** A representative within [min_dist] of the state rules a creation
    out. *)
Lemma near_no_create (state : vec) (reprs : list vec) (n : nat) (accept : bool)
    (j : nat) (rj : vec) :
  (j < n)%nat -> reprs !! j = Some rj -> dist state rj <= min_dist cfg ->
  ~ create state reprs n (min_dist cfg) accept.
Proof.
  intros Hj Hrj Hd ([Hn | (k & rk & Hk & Hlt)] & _); [lia|].
  destruct Hk as (_ & _ & Hmin). destruct (Hmin j rj Hj Hrj) as [Hle _]. lra.
Qed.

(** X1.  A state within [min_dist] of an active representative never
    becomes a representative itself: [_map_to_repr] returns the index of
    the closest active representative, which is within [min_dist] of the
    state too, and leaves the agent as it was, whatever
    [accept_new_repr] is. *)
Theorem near_state_is_mapped (self : agent) (state : vec) (accept : bool)
    (j : nat) (rj : vec) :
  (M self <= length (representative_states self))%nat ->
  (j < M self)%nat -> representative_states self !! j = Some rj ->
  dist state rj <= min_dist cfg ->
  exists k rk,
    closest state (representative_states self) (M self) k rk /\
    dist state rk <= min_dist cfg /\
    _map_to_repr metric_lp cfg self state accept = Ok (Z.of_nat k, self).
Proof.
  intros Hcap Hj Hrj Hd.
  pose proof (near_no_create state _ _ accept j rj Hj Hrj Hd) as Hno.
  destruct (map_to_repr_outcomes self state accept Hcap)
    as [[Hc _] | [(_ & k & rk & Hk & Hcall) | (_ & Hn & _)]];
    [contradiction | | lia].
  exists k, rk. split; [exact Hk|]. split; [|exact Hcall].
  destruct Hk as (_ & _ & Hmin). destruct (Hmin j rj Hj Hrj) as [Hle _]. lra.
Qed.

(** X2.  Once the array of representatives is full, no state is turned
    into a representative any more: [_map_to_repr] returns the index of
    the closest one, however far it is, and leaves the agent as it
    was. *)
Theorem full_capacity_fallback (self : agent) (state : vec) (accept : bool) :
  M self = length (representative_states self) -> (0 < M self)%nat ->
  exists k rk,
    closest state (representative_states self) (M self) k rk /\
    _map_to_repr metric_lp cfg self state accept = Ok (Z.of_nat k, self).
Proof.
  intros Hfull Hpos.
  destruct (map_to_repr_outcomes self state accept)
    as [[(_ & Hlt & _) _] | [(_ & k & rk & Hk & Hcall) | (_ & Hn & _)]];
    [lia | lia | | lia].
  exists k, rk. auto.
Qed.

(** X3.  Resolving a state a second time gives the index of the first
    time and changes nothing: the representative possibly created the
    first time is the one found the second time.  The distance of a
    state to itself is at most [min_dist]. *)
Theorem map_to_repr_twice (self self' : agent) (state : vec) (idx : Z) :
  (M self <= length (representative_states self))%nat ->
  dist state state <= min_dist cfg ->
  _map_to_repr metric_lp cfg self state true = Ok (idx, self') ->
  _map_to_repr metric_lp cfg self' state true = Ok (idx, self').
Proof.
  intros Hcap Hself H.
  destruct (map_to_repr_outcomes self state true Hcap)
    as [(Hc & self1 & Hcall & HM & Hr & _)
       | [(_ & k & rk & _ & Hcall) | (_ & _ & Hcall)]];
    rewrite Hcall in H; injection H as <- <-;
    [|exact Hcall|exact Hcall].
  destruct Hc as (Hbeyond & Hlt & _).
  assert (Hnew : representative_states self1 !! M self = Some state)
    by (rewrite Hr; now apply list_lookup_insert_eq).
  assert (Hcap1 : (M self1 <= length (representative_states self1))%nat)
    by (rewrite Hr, length_insert; lia).
  destruct (map_to_repr_outcomes self1 state true Hcap1)
    as [[Hc1 _] | [(_ & k & rk & Hk & Hcall1) | (_ & Hn & _)]]; [| |lia].
  - exfalso. revert Hc1. apply (near_no_create state _ _ true (M self) state);
      [lia | exact Hnew | exact Hself].
  - assert (k = M self) as ->; [|exact Hcall1].
    destruct Hk as (Hk & Hrk & Hmin).
    destruct (Hmin (M self) state ltac:(lia) Hnew) as [Hle _].
    destruct (decide (k = M self)) as [E|E]; [exact E|exfalso].
    rewrite Hr, list_lookup_insert_ne in Hrk by lia.
    destruct Hbeyond as [Hn | (k0 & r0 & (_ & _ & Hmin0) & Hfar)]; [lia|].
    destruct (Hmin0 k rk ltac:(lia) Hrk) as [Hle0 _]. lra.
Qed.

(** [_map_to_repr] extends the set of representatives, and keeps them
    apart. *)
Lemma map_to_repr_extends (self self' : agent) (state : vec) (accept : bool)
    (idx : Z) :
  (M self <= length (representative_states self))%nat ->
  _map_to_repr metric_lp cfg self state accept = Ok (idx, self') ->
  extends self self' /\ (M self' <= S (M self))%nat /\
  N_sa self' = N_sa self /\ B_sa self' = B_sa self /\
  R_hat self' = R_hat self /\ P_hat self' = P_hat self /\
  (separated (representative_states self) (M self) ->
   separated (representative_states self') (M self')).
Proof.
  intros Hcap H.
  destruct (map_to_repr_outcomes self state accept Hcap)
    as [(Hc & self1 & Hcall & HM & Hr & HN & HB & HR & HP)
       | [(_ & k & rk & _ & Hcall) | (_ & _ & Hcall)]];
    rewrite Hcall in H; injection H as <- <-;
    try (unfold extends; repeat split; auto; lia).
  destruct Hc as (Hbeyond & Hlt & _).
  unfold extends. rewrite HM, Hr, length_insert.
  repeat split; try assumption; try lia.
  - intros j Hj. apply list_lookup_insert_ne. lia.
  - intros Hsep i j ri rj Hij Hj Hri Hrj.
    rewrite list_lookup_insert_ne in Hri by lia.
    destruct (decide (j = M self)) as [->|E].
    + rewrite list_lookup_insert_eq in Hrj by exact Hlt. injection Hrj as <-.
      destruct Hbeyond as [Hn | (k0 & r0 & (_ & _ & Hmin0) & Hfar)]; [lia|].
      destruct (Hmin0 i ri Hij Hri) as [Hle0 _]. lra.
    + rewrite list_lookup_insert_ne in Hrj by lia.
      apply (Hsep i j ri rj); [lia | lia | exact Hri | exact Hrj].
Qed.

Lemma extends_refl (self : agent) :
  (M self <= length (representative_states self))%nat -> extends self self.
Proof. unfold extends. auto. Qed.

Lemma extends_trans (a b c : agent) :
  extends a b -> extends b c -> extends a c.
Proof.
  unfold extends. intros (Hab & _ & Hlab & Hrab) (Hbc & Hcap & Hlbc & Hrbc).
  repeat split; [lia | exact Hcap | congruence |].
  intros j Hj. rewrite Hrbc by lia. now apply Hrab.
Qed.

Lemma extends_same (a b c : agent) :
  M c = M b -> representative_states c = representative_states b ->
  extends a b -> extends a c.
Proof. unfold extends. intros -> ->. auto. Qed.

(** With [accept_new_repr] false, [_map_to_repr] leaves the agent as it
    is. *)
Lemma map_to_repr_read_only (self self' : agent) (state : vec) (idx : Z) :
  (M self <= length (representative_states self))%nat ->
  _map_to_repr metric_lp cfg self state false = Ok (idx, self') ->
  self' = self.
Proof.
  intros Hcap H.
  destruct (map_to_repr_outcomes self state false Hcap)
    as [[(_ & _ & Hacc) _] | [(_ & k & rk & _ & Hcall) | (_ & _ & Hcall)]];
    [discriminate | |]; rewrite Hcall in H; now injection H as _ <-.
Qed.

Lemma get_action_read_only (self self' : agent) (state : vec) (hh action : nat) :
  (M self <= length (representative_states self))%nat ->
  _get_action metric_lp cfg self state hh = Ok (action, self') ->
  self' = self.
Proof.
  intros Hcap H. unfold _get_action in H.
  apply bind_Ok in H as ([idx self1] & Hmap & H).
  apply bind_Ok in H as (a & _ & H). injection H as _ <-.
  now apply (map_to_repr_read_only self self1 state idx).
Qed.

(** X4.  Choosing an action changes nothing in the agent: [_get_action]
    and [policy] return the agent as they received it, whatever the
    state is. *)
Theorem action_selection_read_only (self self' : agent) (state : vec)
    (hh action : nat) :
  (M self <= length (representative_states self))%nat ->
  (_get_action metric_lp cfg self state hh = Ok (action, self') -> self' = self) /\
  (policy metric_lp cfg self state hh = Ok (action, self') -> self' = self).
Proof.
  intros Hcap. split; [now apply get_action_read_only|].
  unfold policy. destruct (Q_policy self) as [q|]; [|discriminate].
  intros H. apply bind_Ok in H as ([idx self1] & Hmap & H).
  apply bind_Ok in H as (a & _ & H). injection H as _ <-.
  now apply (map_to_repr_read_only self self1 state idx).
Qed.

End Resolution.

Section Growth.

Variable metric_lp : vec -> vec -> Z -> vec -> R.
Variable kernel_func : R -> string -> result R.
Variable env_t : Type.
Variable env_reset : env_t -> vec * env_t.
Variable env_step : env_t -> nat -> (vec * R * bool) * env_t.
Variable backward_induction : mat -> ten -> nat -> R -> result (ten * mat).
Variable backward_induction_in_place :
  ten -> mat -> mat -> ten -> nat -> R -> R -> result (ten * mat).
Variable cfg : config.

Local Abbreviation agent := (agent env_t).
Local Abbreviation separated := (separated metric_lp cfg).
Local Abbreviation extends := (extends env_t).
Local Abbreviation trained := (trained metric_lp kernel_func env_t cfg).

Lemma update_extends (self self' : agent) (state : vec) (action : nat)
    (next_state : vec) (reward : R) :
  (M self <= length (representative_states self))%nat ->
  _update metric_lp kernel_func cfg self state action next_state reward
  = Ok self' ->
  extends self self' /\ (M self' <= 2 + M self)%nat /\
  (separated (representative_states self) (M self) ->
   separated (representative_states self') (M self')).
Proof.
  intros Hcap H. unfold _update in H.
  apply bind_Ok in H as ([idx1 self1] & Hmap1 & H).
  apply bind_Ok in H as ([idx2 self2] & Hmap2 & H).
  apply bind_Ok in H as ([[[n b] p] r] & _ & H). injection H as <-. simpl.
  destruct (map_to_repr_extends _ _ _ _ _ _ _ _ Hcap Hmap1)
    as (He1 & Hm1 & _ & _ & _ & _ & Hs1).
  assert (Hcap1 : (M self1 <= length (representative_states self1))%nat)
    by apply He1.
  destruct (map_to_repr_extends _ _ _ _ _ _ _ _ Hcap1 Hmap2)
    as (He2 & Hm2 & _ & _ & _ & _ & Hs2).
  split; [|split; [lia | auto]].
  apply (extends_same env_t self self2); [reflexivity | reflexivity |].
  now apply (extends_trans env_t self self1 self2).
Qed.

Lemma trained_separated (ok_reward : R -> Prop) (self : agent) :
  trained ok_reward self ->
  (M self <= length (representative_states self))%nat /\
  separated (representative_states self) (M self).
Proof.
  induction 1 as [self | self s a s' r self' _ [Hcap Hsep] _ Hup
                 | self self' _ [Hcap Hsep] Hsame].
  - simpl. split; [lia|]. intros i j ri rj _ Hj. lia.
  - destruct (update_extends _ _ _ _ _ _ Hcap Hup) as (He & _ & Hs).
    split; [apply He | auto].
  - destruct Hsame as (-> & -> & _). auto.
Qed.

(** X5.  Whatever the transitions observed since [reset], any two
    active representatives are more than [min_dist] apart: the later of
    the two was created at a distance greater than [min_dist] from the
    earlier one, and neither has moved since. *)
Theorem representatives_separated (self : agent) (i j : nat) (ri rj : vec) :
  trained (fun _ => True) self ->
  (i < j)%nat -> (j < M self)%nat ->
  representative_states self !! i = Some ri ->
  representative_states self !! j = Some rj ->
  min_dist cfg < metric_lp rj ri (lp_metric cfg) (scaling cfg).
Proof.
  intros Htr. destruct (trained_separated _ _ Htr) as [_ Hsep]. apply Hsep.
Qed.

Lemma episode_step_extends (hh : nat) (self self' : agent) (s s' : vec)
    (er er' : R) :
  (M self <= length (representative_states self))%nat ->
  episode_step metric_lp kernel_func env_step cfg hh (self, s, er)
  = Ok (self', s', er') ->
  extends self self'.
Proof.
  intros Hcap H. unfold episode_step in H.
  apply bind_Ok in H as ([a self1] & Hact & H).
  apply get_action_read_only in Hact; [subst self1 | exact Hcap].
  destruct (env_step (env self) a) as [[[ns rw] dn] e].
  apply bind_Ok in H as (self2 & Hup & H). injection H as <- _ _.
  now apply update_extends in Hup as [He _].
Qed.

Lemma run_episode_extends (self self' : agent) (er : R) :
  (M self <= length (representative_states self))%nat ->
  _run_episode metric_lp kernel_func env_reset env_step
    backward_induction_in_place cfg self = Ok (er, self') ->
  extends self self'.
Proof.
  intros Hcap H. unfold _run_episode in H.
  destruct (env_reset (env self)) as [state e].
  apply bind_Ok in H as ([[self1 s1] er1] & Hloop & H).
  apply bind_Ok in H as ([q v] & _ & H). injection H as _ <-.
  apply (extends_same env_t self self1); [reflexivity | reflexivity |].
  apply (for_loop_preserves
           (fun st : agent * vec * R => extends self st.1.1)) in Hloop;
    [exact Hloop | |].
  2: { simpl. apply (extends_same env_t self self); [reflexivity | reflexivity |].
       now apply extends_refl. }
  intros i [[x sx] ex] [[y sy] ey] Hx Hstep. simpl in *.
  apply (extends_trans env_t self x y); [exact Hx|].
  apply episode_step_extends in Hstep; [exact Hstep | apply Hx].
Qed.

(** X6.  Training only ever appends representatives: after [_update],
    after an episode and after [fit], the array of representatives has
    its size, the representatives that were active are where they were,
    with their coordinates, and [M] has not decreased, nor passed the
    size of the array. *)
Theorem representatives_append_only (self self' : agent) :
  (M self <= length (representative_states self))%nat ->
  (forall state action next_state reward,
     _update metric_lp kernel_func cfg self state action next_state reward
     = Ok self' ->
     extends self self' /\ (M self' <= 2 + M self)%nat) /\
  (forall er,
     _run_episode metric_lp kernel_func env_reset env_step
       backward_induction_in_place cfg self = Ok (er, self') ->
     extends self self') /\
  (forall n rewards,
     fit metric_lp kernel_func env_reset env_step backward_induction
       backward_induction_in_place cfg self = Ok (n, rewards, self') ->
     extends self self').
Proof.
  intros Hcap. split; [|split].
  - intros s a s' r H. apply update_extends in H; tauto.
  - intros er. now apply run_episode_extends.
  - intros n rewards H. unfold fit in H.
    apply bind_Ok in H as (self1 & Hloop & H).
    apply bind_Ok in H as ([q v] & _ & H). injection H as _ _ <-.
    apply (extends_same env_t self self1); [reflexivity | reflexivity |].
    apply (for_loop_preserves (fun x : agent => extends self x)) in Hloop;
      [exact Hloop | |].
    2: { apply (extends_same env_t self self); [reflexivity | reflexivity |].
         now apply extends_refl. }
    intros i x y Hx Hstep. unfold fit_step in Hstep.
    apply bind_Ok in Hstep as ([er x1] & Hrun & Hstep).
    apply bind_Ok in Hstep as (rw & _ & Hstep).
    apply bind_Ok in Hstep as (cm & _ & Hstep). injection Hstep as <-.
    apply (extends_same env_t self x1); [reflexivity | reflexivity |].
    apply (extends_trans env_t self x x1); [exact Hx|].
    apply run_episode_extends in Hrun; [exact Hrun | apply Hx].
Qed.

End Growth.

(** ** The greedy action *)

Lemma argmax_from_spec (rest pre : vec) (best : R) (besti : nat) :
  pre !! besti = Some best ->
  (forall j y, pre !! j = Some y -> y <= best) ->
  (forall j y, (j < besti)%nat -> pre !! j = Some y -> y < best) ->
  exists x,
    (pre ++ rest) !! argmax_from best besti (length pre) rest = Some x /\
    (forall j y, (pre ++ rest) !! j = Some y -> y <= x) /\
    (forall j y, (j < argmax_from best besti (length pre) rest)%nat ->
       (pre ++ rest) !! j = Some y -> y < x).
Proof.
  revert pre best besti.
  induction rest as [|x rest IH]; intros pre best besti Hbest Hmax Hfirst.
  - simpl. rewrite app_nil_r. exists best. auto.
  - simpl. replace (pre ++ x :: rest) with ((pre ++ [x]) ++ rest)
      by (now rewrite <- app_assoc).
    replace (S (length pre)) with (length (pre ++ [x]))
      by (rewrite length_app; simpl; lia).
    destruct (Rltb best x) eqn:E.
    + apply Rltb_spec in E. apply IH.
      * rewrite lookup_app_r by lia. now rewrite Nat.sub_diag.
      * intros j y Hj. apply lookup_app_Some in Hj as [Hj | [_ Hj]].
        -- apply Hmax in Hj. lra.
        -- apply list_lookup_singleton_Some in Hj as [_ <-]. lra.
      * intros j y Hlt Hj. rewrite lookup_app_l in Hj by exact Hlt.
        apply Hmax in Hj. lra.
    + assert (Hle : x <= best).
      { destruct (Rle_dec x best) as [H|H]; [exact H|].
        rewrite Rltb_true in E by lra. discriminate. }
      apply IH.
      * apply lookup_app_l_Some. exact Hbest.
      * intros j y Hj. apply lookup_app_Some in Hj as [Hj | [_ Hj]].
        -- now apply Hmax in Hj.
        -- apply list_lookup_singleton_Some in Hj as [_ <-]. exact Hle.
      * intros j y Hlt Hj.
        assert (besti < length pre)%nat by (now apply lookup_lt_Some in Hbest).
        rewrite lookup_app_l in Hj by lia. now apply (Hfirst j).
Qed.

(** [argmax] returns the first index at which the array is maximal. *)
Lemma argmax_spec (a : vec) (i : nat) :
  argmax a = Ok i ->
  exists x,
    a !! i = Some x /\
    (forall j y, a !! j = Some y -> y <= x) /\
    (forall j y, (j < i)%nat -> a !! j = Some y -> y < x).
Proof.
  destruct a as [|x rest]; [discriminate|]. simpl. intros H. injection H as <-.
  apply (argmax_from_spec rest [x] x 0).
  - reflexivity.
  - intros j y Hj. apply list_lookup_singleton_Some in Hj as [_ <-]. lra.
  - intros j y Hj. lia.
Qed.

Section Greedy.

Variable metric_lp : vec -> vec -> Z -> vec -> R.
Variable env_t : Type.
Variable cfg : config.

Local Abbreviation agent := (agent env_t).

(** The row of the table [q] that [greedy] reads at step [hh] for the
    representative [repr_state]: the layer is [hh] without discount, 0
    otherwise. *)
Lemma greedy_spec (q : ten) (hh : nat) (repr_state : Z) (action : nat) :
  greedy cfg q hh repr_state = Ok action ->
  exists (layer : mat) (row : vec) (x : R),
    q !! (if Reqb (gamma cfg) 1 then hh else 0%nat) = Some layer /\
    get_z layer repr_state = Ok row /\
    row !! action = Some x /\
    (forall j y, row !! j = Some y -> y <= x) /\
    (forall j y, (j < action)%nat -> row !! j = Some y -> y < x).
Proof.
  unfold greedy. intros H.
  destruct (Reqb (gamma cfg) 1);
    apply bind_Ok in H as (layer & Hl & H);
    apply bind_Ok in H as (row & Hr & H);
    apply get_spec in Hl; apply argmax_spec in H as (x & Hx);
    exists layer, row, x; auto.
Qed.

(** X7.  The action that [_get_action] returns is greedy for [Q], and
    the one that [policy] returns is greedy for [Q_policy]: in the row
    of the representative of the state, at the layer [hh] without
    discount and at the layer 0 otherwise, the value of the action is
    the largest of the row, and no action before it reaches it. *)
Theorem chosen_action_is_greedy (self self' : agent) (state : vec)
    (hh action : nat) :
  (_get_action metric_lp cfg self state hh = Ok (action, self') ->
   exists (repr_state : Z) (layer : mat) (row : vec) (x : R),
     _map_to_repr metric_lp cfg self state false = Ok (repr_state, self') /\
     Q self' !! (if Reqb (gamma cfg) 1 then hh else 0%nat) = Some layer /\
     get_z layer repr_state = Ok row /\
     row !! action = Some x /\
     (forall j y, row !! j = Some y -> y <= x) /\
     (forall j y, (j < action)%nat -> row !! j = Some y -> y < x)) /\
  (policy metric_lp cfg self state hh = Ok (action, self') ->
   exists (q_policy : ten) (repr_state : Z) (layer : mat) (row : vec) (x : R),
     Q_policy self = Some q_policy /\
     _map_to_repr metric_lp cfg self state false = Ok (repr_state, self') /\
     q_policy !! (if Reqb (gamma cfg) 1 then hh else 0%nat) = Some layer /\
     get_z layer repr_state = Ok row /\
     row !! action = Some x /\
     (forall j y, row !! j = Some y -> y <= x) /\
     (forall j y, (j < action)%nat -> row !! j = Some y -> y < x)).
Proof.
  split.
  - unfold _get_action. intros H.
    apply bind_Ok in H as ([idx self1] & Hmap & H).
    apply bind_Ok in H as (a & Hg & H). injection H as <- <-.
    apply greedy_spec in Hg as (layer & row & x & Hg).
    exists idx, layer, row, x. auto.
  - unfold policy. destruct (Q_policy self) as [q|]; [|discriminate].
    intros H. apply bind_Ok in H as ([idx self1] & Hmap & H).
    apply bind_Ok in H as (a & Hg & H). injection H as <- <-.
    apply greedy_spec in Hg as (layer & row & x & Hg).
    exists q, idx, layer, row, x. auto.
Qed.

End Greedy.

(** ** The tables under [update_model] *)

Lemma get2_insert_lookup {T : Type} (a : list (list T)) (i j : nat)
    (row : list T) (x y : T) :
  a !! i = Some row -> row !! j = Some y ->
  get2 (<[i := <[j := x]> row]> a) i j = Ok x.
Proof.
  intros Hi Hj. apply get2_insert_eq; [exact Hi|]. now apply lookup_lt_Some in Hj.
Qed.

Section Tables.

Variable metric_lp : vec -> vec -> Z -> vec -> R.
Variable kernel_func : R -> string -> result R.

Variables (repr_state : Z) (action : nat) (reward : R) (m : nat).
Variables (repr_states : list vec) (lp : Z) (scaling : vec) (bandwidth : R).
Variables (bonus_scale_factor beta v_max : R) (bonus_type kernel_type : string).

Local Abbreviation update_step' dirac :=
  (update_step metric_lp kernel_func repr_state action reward m repr_states lp
     scaling bandwidth bonus_scale_factor beta v_max bonus_type kernel_type
     dirac).

(** What one iteration of [update_model] does to the four tables: the
    entries of the pair [(i, action)] change, the weight grows by the
    kernel weight [w], the bonus is recomputed from the new weight, the
    row of transitions keeps its length and its columns from [m] on;
    every other entry is left as it is. *)
Lemma update_step_effect (dirac : vec) (i : nat) (N B : mat) (P : ten)
    (Rh : mat) (N' B' : mat) (P' : ten) (Rh' : mat) :
  length dirac = m ->
  update_step' dirac i (N, B, P, Rh) = Ok (N', B', P', Rh') ->
  (forall u a, u <> i \/ a <> action ->
     get2 N' u a = get2 N u a /\ get2 B' u a = get2 B u a /\
     get2 P' u a = get2 P u a /\ get2 Rh' u a = get2 Rh u a) /\
  exists (w n b : R) (p p' : vec),
    (exists z, kernel_func z kernel_type = Ok w) /\
    get2 N i action = Ok n /\ get2 N' i action = Ok (n + w) /\
    compute_bonus (n + w) beta bonus_scale_factor v_max bonus_type = Ok b /\
    get2 B' i action = Ok b /\
    get2 P i action = Ok p /\ get2 P' i action = Ok p' /\
    length p' = length p /\ drop m p' = drop m p.
Proof.
  intros Hd H. apply update_step_inv in H
    as (w & n & r & b & p & rowN & rowR & rowB & rowP & Hw & HN & Hn & HP & Hp
        & HR & Hr & HB & Hb & Hnz & Hlen & Hbonus & -> & -> & -> & ->).
  split.
  - intros u a Hne.
    assert (Hne' : i <> u \/ action <> a) by (destruct Hne; [left|right]; congruence).
    repeat split; now apply get2_insert_ne.
  - exists w, n, b, p. eexists.
    split; [exact Hw|].
    split; [now apply (get2_lookup N i action rowN)|].
    split; [now apply (get2_insert_lookup N i action rowN _ n)|].
    split; [exact Hbonus|].
    split; [now apply get2_insert_eq|].
    split; [now apply (get2_lookup P i action rowP)|].
    split; [now apply (get2_insert_lookup P i action rowP _ p)|].
    assert (Hz : length (zip_with (fun d q => d * w / (beta + n + w)
                                     + (beta + n) / (beta + n + w) * q)
                           dirac (take m p)) = m)
      by (rewrite length_zip_with, Hd, Hlen; lia).
    split.
    + rewrite length_app, Hz, length_drop.
      rewrite length_take in Hlen. lia.
    + rewrite drop_app_length'; [reflexivity | now symmetry].
Qed.

Local Abbreviation update_model' :=
  (update_model metric_lp kernel_func repr_state action).

(** [update_model] leaves the entries of the other actions, and those
    of the rows from [n_representatives] on, as they are. *)
Lemma update_model_other_entries (repr_next_state : Z) (N B : mat) (P : ten)
    (Rh : mat) (N' B' : mat) (P' : ten) (Rh' : mat) :
  update_model' repr_next_state reward m repr_states lp scaling bandwidth
    bonus_scale_factor beta v_max bonus_type kernel_type N B P Rh
  = Ok (N', B', P', Rh') ->
  forall u a, a <> action \/ (m <= u)%nat ->
    get2 N' u a = get2 N u a /\ get2 B' u a = get2 B u a /\
    get2 P' u a = get2 P u a /\ get2 Rh' u a = get2 Rh u a.
Proof.
  unfold update_model. intros H. apply bind_Ok in H as (k & Hk & H).
  refine (for_loop_inv_partial
            (fun i (t : mat * mat * ten * mat) =>
               forall u a, a <> action \/ (i <= u)%nat ->
                 get2 t.1.1.1 u a = get2 N u a /\
                 get2 t.1.1.2 u a = get2 B u a /\
                 get2 t.1.2 u a = get2 P u a /\ get2 t.2 u a = get2 Rh u a)
            m _ _ (N', B', P', Rh') _ _ H).
  - auto.
  - intros i [[[N1 B1] P1] R1] [[[N2 B2] P2] R2] Hi Hout Hstep.
    cbn [fst snd] in *.
    apply update_step_effect in Hstep as [Hother _];
      [|rewrite length_insert; apply length_replicate].
    intros u a Hua.
    destruct (Hother u a) as (-> & -> & -> & ->); [lia|].
    apply Hout. lia.
Qed.

(** X8.  [update_model] only writes the entries of the action taken, in
    the rows of the active representatives: in the four tables, the
    entries of the other actions and those of the rows from
    [n_representatives] on are left as they are, and a row of
    transitions keeps its length and its columns from
    [n_representatives] on. *)
Theorem update_model_locality (repr_next_state : Z) (N B : mat) (P : ten)
    (Rh : mat) (N' B' : mat) (P' : ten) (Rh' : mat) :
  update_model' repr_next_state reward m repr_states lp scaling bandwidth
    bonus_scale_factor beta v_max bonus_type kernel_type N B P Rh
  = Ok (N', B', P', Rh') ->
  (forall u a, a <> action \/ (m <= u)%nat ->
     get2 N' u a = get2 N u a /\ get2 B' u a = get2 B u a /\
     get2 P' u a = get2 P u a /\ get2 Rh' u a = get2 Rh u a) /\
  (forall u a p, get2 P u a = Ok p ->
     exists p', get2 P' u a = Ok p' /\ length p' = length p /\
                drop m p' = drop m p).
Proof.
  intros H. split; [now apply (update_model_other_entries repr_next_state)|].
  unfold update_model in H. apply bind_Ok in H as (k & Hk & H).
  refine (for_loop_inv_partial
            (fun i (t : mat * mat * ten * mat) =>
               forall u a p, get2 P u a = Ok p ->
                 exists p', get2 t.1.2 u a = Ok p' /\ length p' = length p /\
                            drop m p' = drop m p)
            m _ _ (N', B', P', Rh') _ _ H).
  - intros u a p Hp. exists p. auto.
  - intros i [[[N1 B1] P1] R1] [[[N2 B2] P2] R2] Hi Hrow Hstep.
    cbn [fst snd] in *.
    apply update_step_effect in Hstep
      as (Hother & w & n & b & p1 & p2 & _ & _ & _ & _ & _ & Hp1 & Hp2 & Hl & Hdr);
      [|rewrite length_insert; apply length_replicate].
    intros u a p Hp. destruct (Hrow u a p Hp) as (p' & Hp' & Hl' & Hdr').
    destruct (decide (u = i /\ a = action)) as [[-> ->]|Hne].
    + exists p2. rewrite Hp1 in Hp'. injection Hp' as <-.
      split; [exact Hp2|]. split; congruence.
    + exists p'. destruct (Hother u a) as (_ & _ & -> & _); [|auto].
      destruct (decide (u = i)); [right|left]; tauto.
Qed.

End Tables.

Section Weights.

Variable metric_lp : vec -> vec -> Z -> vec -> R.
Variable kernel_func : R -> string -> result R.
Variable env_t : Type.
Variable cfg : config.

Local Abbreviation agent := (agent env_t).
Local Abbreviation bonus_ok := (bonus_ok cfg).
Local Abbreviation trained := (trained metric_lp kernel_func env_t cfg).

(** [_map_to_repr] does not touch the tables of the model. *)
Lemma map_to_repr_tables (self self' : agent) (state : vec) (accept : bool)
    (idx : Z) :
  _map_to_repr metric_lp cfg self state accept = Ok (idx, self') ->
  N_sa self' = N_sa self /\ B_sa self' = B_sa self /\
  R_hat self' = R_hat self /\ P_hat self' = P_hat self.
Proof.
  unfold _map_to_repr. intros H.
  apply bind_Ok in H as ([i reprs] & _ & H). injection H as _ <-. auto.
Qed.

(** [_update] is [update_model] on the tables of the agent, for the
    number of representatives that the two calls of [_map_to_repr]
    leave. *)
Lemma update_inv (self self' : agent) (state : vec) (action : nat)
    (next_state : vec) (reward : R) :
  _update metric_lp kernel_func cfg self state action next_state reward
  = Ok self' ->
  exists (repr_state repr_next_state : Z) (reprs : list vec),
    update_model metric_lp kernel_func repr_state action repr_next_state reward
      (M self') reprs (lp_metric cfg) (scaling cfg) (bandwidth cfg)
      (bonus_scale_factor cfg) (beta cfg) (v_max cfg) (bonus_type cfg)
      (kernel_type cfg) (N_sa self) (B_sa self) (P_hat self) (R_hat self)
    = Ok (N_sa self', B_sa self', P_hat self', R_hat self').
Proof.
  unfold _update. intros H.
  apply bind_Ok in H as ([idx1 self1] & Hmap1 & H).
  apply bind_Ok in H as ([idx2 self2] & Hmap2 & H).
  apply bind_Ok in H as ([[[n b] p] r] & Hup & H). injection H as <-. simpl.
  apply map_to_repr_tables in Hmap1 as (HN1 & HB1 & HR1 & HP1).
  apply map_to_repr_tables in Hmap2 as (HN2 & HB2 & HR2 & HP2).
  rewrite HN2, HB2, HR2, HP2, HN1, HB1, HR1, HP1 in Hup. eauto.
Qed.

Lemma update_model_weights (repr_state : Z) (action : nat)
    (repr_next_state : Z) (reward : R) (m : nat) (repr_states : list vec)
    (N B : mat) (P : ten) (Rh : mat) (N' B' : mat) (P' : ten) (Rh' : mat) :
  update_model metric_lp kernel_func repr_state action repr_next_state reward
    m repr_states (lp_metric cfg) (scaling cfg) (bandwidth cfg)
    (bonus_scale_factor cfg) (beta cfg) (v_max cfg) (bonus_type cfg)
    (kernel_type cfg) N B P Rh = Ok (N', B', P', Rh') ->
  forall u n, get2 N u action = Ok n ->
    ((u < m)%nat ->
     exists z w, kernel_func z (kernel_type cfg) = Ok w /\
                 get2 N' u action = Ok (n + w)) /\
    ((m <= u)%nat -> get2 N' u action = Ok n).
Proof.
  unfold update_model. intros H. apply bind_Ok in H as (k & Hk & H).
  refine (for_loop_inv_partial
           (fun i (t : mat * mat * ten * mat) =>
              forall u n, get2 N u action = Ok n ->
                ((u < i)%nat ->
                 exists z w, kernel_func z (kernel_type cfg) = Ok w /\
                             get2 t.1.1.1 u action = Ok (n + w)) /\
                ((i <= u)%nat -> get2 t.1.1.1 u action = Ok n))
           m _ _ (N', B', P', Rh') _ _ H).
  - simpl. intros u n Hn. split; [lia | auto].
  - intros i [[[N1 B1] P1] R1] [[[N2 B2] P2] R2] Hi Hinv Hstep. simpl in *.
    apply update_step_effect in Hstep
      as (Hother & w & n1 & b & p1 & p2 & [z Hw] & Hn1 & Hn2 & _);
      [|rewrite length_insert; apply length_replicate].
    intros u n Hn. destruct (Hinv u n Hn) as [Hlt Hge].
    destruct (decide (u = i)) as [->|Hne].
    + split; [intros _ | lia].
      rewrite Hge in Hn1 by lia. injection Hn1 as <-. eauto.
    + destruct (Hother u action) as (-> & _); [tauto|].
      split; intros Hu; [apply Hlt | apply Hge]; lia.
Qed.

(** X9.  What [_update] does to the sums of weights: the pairs of the
    action taken with an active representative each receive a weight
    that [kernel_func] returned, and every other pair keeps its sum; so
    no sum of weights ever decreases, the kernel being non-negative. *)
Theorem update_adds_kernel_weights (self self' : agent) (state : vec)
    (action : nat) (next_state : vec) (reward : R) (u a : nat) (n : R) :
  (forall z w, kernel_func z (kernel_type cfg) = Ok w -> 0 <= w) ->
  _update metric_lp kernel_func cfg self state action next_state reward
  = Ok self' ->
  get2 (N_sa self) u a = Ok n ->
  exists n',
    get2 (N_sa self') u a = Ok n' /\ n <= n' /\
    (a = action -> (u < M self')%nat ->
     exists z w, kernel_func z (kernel_type cfg) = Ok w /\ n' = n + w) /\
    (a <> action \/ (M self' <= u)%nat -> n' = n).
Proof.
  intros Hker H Hn.
  apply update_inv in H as (i1 & i2 & reprs & H).
  destruct (decide (a = action)) as [->|Hne].
  - destruct (update_model_weights _ _ _ _ _ _ _ _ _ _ _ _ _ _ H u n Hn)
      as [Hlt Hge].
    destruct (le_lt_dec (M self') u) as [Hu|Hu].
    + exists n. split; [now apply Hge|]. split; [lra|]. split; [lia | auto].
    + destruct (Hlt Hu) as (z & w & Hw & Hn').
      exists (n + w). split; [exact Hn'|].
      pose proof (Hker z w Hw). split; [lra|]. split; [eauto|].
      intros [E|E]; [congruence | lia].
  - destruct (update_model_other_entries _ _ _ _ _ _ _ _ _ _ _ _ _ _ _ _
                _ _ _ _ _ _ _ _ H u a) as (HN & _); [tauto|].
    exists n. split; [congruence|]. split; [lra|]. split; [congruence | auto].
Qed.

Lemma update_step_bonus (repr_state : Z) (action : nat) (reward : R) (m : nat)
    (repr_states : list vec) (dirac : vec) (i : nat) (N B : mat) (P : ten)
    (Rh : mat) (N' B' : mat) (P' : ten) (Rh' : mat) :
  length dirac = m ->
  bonus_ok N B ->
  update_step metric_lp kernel_func repr_state action reward m repr_states
    (lp_metric cfg) (scaling cfg) (bandwidth cfg) (bonus_scale_factor cfg)
    (beta cfg) (v_max cfg) (bonus_type cfg) (kernel_type cfg)
    dirac i (N, B, P, Rh) = Ok (N', B', P', Rh') ->
  bonus_ok N' B'.
Proof.
  intros Hd Hok Hstep.
  apply update_step_effect in Hstep
    as (Hother & w & n1 & b1 & p1 & p2 & _ & _ & Hn2 & Hb & Hb2 & _);
    [|exact Hd].
  intros u a n b Hn Hbb.
  destruct (decide (u = i /\ a = action)) as [[-> ->]|Hne].
  - right. congruence.
  - destruct (Hother u a) as (HN & HB & _).
    { destruct (decide (u = i)); [right|left]; tauto. }
    apply (Hok u a); congruence.
Qed.

Lemma update_bonus (self self' : agent) (state : vec) (action : nat)
    (next_state : vec) (reward : R) :
  bonus_ok (N_sa self) (B_sa self) ->
  _update metric_lp kernel_func cfg self state action next_state reward
  = Ok self' ->
  bonus_ok (N_sa self') (B_sa self').
Proof.
  intros Hok H. apply update_inv in H as (i1 & i2 & reprs & H).
  unfold update_model in H. apply bind_Ok in H as (k & Hk & H).
  apply (for_loop_preserves
           (fun t : mat * mat * ten * mat => bonus_ok t.1.1.1 t.1.1.2)) in H.
  - exact H.
  - intros i [[[N1 B1] P1] R1] [[[N2 B2] P2] R2] Hinv Hstep. simpl in *.
    apply (update_step_bonus _ _ _ _ _ _ _ _ _ _ _ _ _ _ _
             ltac:(rewrite length_insert; apply length_replicate) Hinv Hstep).
  - exact Hok.
Qed.

Lemma get2_replicate {T : Type} (r c u a : nat) (x y : T) :
  get2 (replicate r (replicate c x)) u a = Ok y -> y = x.
Proof.
  intros H. apply get2_spec in H as (row & Hrow & Hy).
  apply lookup_replicate in Hrow as [-> _].
  now apply lookup_replicate in Hy as [-> _].
Qed.

(** X10.  Whatever the transitions observed since [reset], the bonus of
    a pair is either the one that [reset] gave it, [v_max], the pair
    having received no weight, or the value of [compute_bonus] for the
    sum of weights of the pair: the two tables [N_sa] and [B_sa] never
    get out of step. *)
Theorem bonus_follows_weights (self : agent) (u a : nat) (n b : R) :
  trained (fun _ => True) self ->
  get2 (N_sa self) u a = Ok n -> get2 (B_sa self) u a = Ok b ->
  (n = 0 /\ b = v_max cfg) \/
  compute_bonus n (beta cfg) (bonus_scale_factor cfg) (v_max cfg)
    (bonus_type cfg) = Ok b.
Proof.
  intros Htr. revert u a n b. change (bonus_ok (N_sa self) (B_sa self)).
  induction Htr as [self | self s a s' r self' _ IH _ Hup
                   | self self' _ IH Hsame].
  - intros u a n b Hn Hb. left. simpl in *.
    apply get2_replicate in Hn, Hb. auto.
  - now apply (update_bonus self self' s a s' r).
  - destruct Hsame as (_ & _ & -> & -> & _). exact IH.
Qed.

End Weights.

Section Support.

Variable metric_lp : vec -> vec -> Z -> vec -> R.
Variable kernel_func : R -> string -> result R.
Variable env_t : Type.
Variable cfg : config.

Local Abbreviation agent := (agent env_t).

(** X11.  [_update] recomputes the bonus of the action taken for every
    active representative, those that the kernel gives no weight
    included: after the call, the bonus of such a pair is the value of
    [compute_bonus] for its sum of weights, and no longer the [v_max] of
    [reset]. *)
Theorem update_refreshes_bonuses (self self' : agent) (state : vec)
    (action : nat) (next_state : vec) (reward : R) (u : nat) :
  _update metric_lp kernel_func cfg self state action next_state reward
  = Ok self' ->
  (u < M self')%nat ->
  exists n b,
    get2 (N_sa self') u action = Ok n /\ get2 (B_sa self') u action = Ok b /\
    compute_bonus n (beta cfg) (bonus_scale_factor cfg) (v_max cfg)
      (bonus_type cfg) = Ok b.
Proof.
  intros H. apply update_inv in H as (i1 & i2 & reprs & H). revert u.
  unfold update_model in H. apply bind_Ok in H as (k & Hk & H).
  refine (for_loop_inv_partial
            (fun i (t : mat * mat * ten * mat) =>
               forall u, (u < i)%nat ->
                 exists n b,
                   get2 t.1.1.1 u action = Ok n /\
                   get2 t.1.1.2 u action = Ok b /\
                   compute_bonus n (beta cfg) (bonus_scale_factor cfg)
                     (v_max cfg) (bonus_type cfg) = Ok b)
            (M self') _ _ (N_sa self', B_sa self', P_hat self', R_hat self')
            _ _ H).
  - intros u Hu. lia.
  - intros i [[[N1 B1] P1] R1] [[[N2 B2] P2] R2] Hi Hinv Hstep. simpl in *.
    apply update_step_effect in Hstep
      as (Hother & w & n1 & b1 & p1 & p2 & _ & _ & Hn2 & Hb & Hb2 & _);
      [|rewrite length_insert; apply length_replicate].
    intros u Hu. destruct (decide (u = i)) as [->|Hne]; [eauto|].
    destruct (Hother u action) as (-> & -> & _); [tauto|].
    apply Hinv. lia.
Qed.

(** One iteration of [update_model] that adds no weight to a pair
    leaves its two estimates as they are. *)
Lemma update_step_no_weight (repr_state : Z) (action : nat) (reward : R)
    (m : nat) (repr_states : list vec) (dirac : vec) (i : nat) (N B : mat)
    (P : ten) (Rh : mat) (N' B' : mat) (P' : ten) (Rh' : mat) (n : R) :
  length dirac = m ->
  update_step metric_lp kernel_func repr_state action reward m repr_states
    (lp_metric cfg) (scaling cfg) (bandwidth cfg) (bonus_scale_factor cfg)
    (beta cfg) (v_max cfg) (bonus_type cfg) (kernel_type cfg)
    dirac i (N, B, P, Rh) = Ok (N', B', P', Rh') ->
  get2 N i action = Ok n -> get2 N' i action = Ok n ->
  get2 Rh' i action = get2 Rh i action /\ get2 P' i action = get2 P i action.
Proof.
  intros Hd H Hn Hn'. apply update_step_inv in H
    as (w & n0 & r & b & p & rowN & rowR & rowB & rowP & Hw & HN & Hn0 & HP
        & Hp & HR & Hr & HB & Hb & Hnz & Hlen & Hbonus & -> & -> & -> & ->).
  rewrite (get2_lookup N i action rowN n0 HN Hn0) in Hn. injection Hn as ->.
  rewrite (get2_insert_lookup N i action rowN _ n HN Hn0) in Hn'.
  assert (w = 0) as -> by (injection Hn'; lra).
  replace (beta cfg + n + 0) with (beta cfg + n) in * by lra.
  rewrite (get2_lookup Rh i action rowR r HR Hr).
  rewrite (get2_lookup P i action rowP p HP Hp).
  rewrite (get2_insert_lookup Rh i action rowR _ r HR Hr).
  rewrite (get2_insert_lookup P i action rowP _ p HP Hp).
  split; f_equal; [field; exact Hnz|].
  transitivity (take m p ++ drop m p); [|apply take_drop].
  f_equal.
  assert (Hq : forall d q : vec, length d = length q ->
            zip_with (fun x y => x * 0 / (beta cfg + n)
                                 + (beta cfg + n) / (beta cfg + n) * y) d q = q).
  { induction d as [|x d IH]; intros [|y q] Hl; try discriminate; [reflexivity|].
    simpl. f_equal; [field; exact Hnz | apply IH; now injection Hl]. }
  apply Hq. congruence.
Qed.

(** X12.  A transition teaches nothing to the representatives that
    the kernel leaves out: when [_update] adds no weight to a pair, the
    estimates of its reward and of its transitions are left as they
    are. *)
Theorem no_weight_no_change (self self' : agent) (state : vec) (action : nat)
    (next_state : vec) (reward : R) (u : nat) (n : R) :
  _update metric_lp kernel_func cfg self state action next_state reward
  = Ok self' ->
  get2 (N_sa self) u action = Ok n -> get2 (N_sa self') u action = Ok n ->
  get2 (R_hat self') u action = get2 (R_hat self) u action /\
  get2 (P_hat self') u action = get2 (P_hat self) u action.
Proof.
  intros H Hn Hn'. apply update_inv in H as (i1 & i2 & reprs & H).
  destruct (le_lt_dec (M self') u) as [Hu|Hu].
  { destruct (update_model_other_entries _ _ _ _ _ _ _ _ _ _ _ _ _ _ _ _
                _ _ _ _ _ _ _ _ H u action) as (_ & _ & -> & ->); auto. }
  unfold update_model in H. apply bind_Ok in H as (k & Hk & H).
  pose (I := fun (i : nat) (t : mat * mat * ten * mat) =>
               ((i <= u)%nat ->
                get2 t.1.1.1 u action = Ok n /\
                get2 t.2 u action = get2 (R_hat self) u action /\
                get2 t.1.2 u action = get2 (P_hat self) u action) /\
               ((u < i)%nat ->
                get2 t.1.1.1 u action = Ok n ->
                get2 t.2 u action = get2 (R_hat self) u action /\
                get2 t.1.2 u action = get2 (P_hat self) u action)).
  assert (Hinv : I (M self') (N_sa self', B_sa self', P_hat self', R_hat self')).
  { refine (for_loop_inv_partial I (M self') _ _ _ _ _ H); unfold I.
    - simpl. split; [auto | lia].
    - intros i [[[N1 B1] P1] R1] [[[N2 B2] P2] R2] Hi [Hge Hlt] Hstep.
      cbn [fst snd] in *.
      pose proof Hstep as Heff.
      apply update_step_effect in Heff as [Hother _];
        [|rewrite length_insert; apply length_replicate].
      destruct (decide (u = i)) as [->|Hne].
      + split; [lia|]. intros _ Hn2.
        destruct (Hge (Nat.le_refl i)) as (Hn1 & HR1 & HP1).
        apply (update_step_no_weight _ _ _ _ _ _ _ _ _ _ _ _ _ _ _ n) in Hstep;
          [| rewrite length_insert; apply length_replicate | exact Hn1 | exact Hn2].
        destruct Hstep as [-> ->]. auto.
      + destruct (Hother u action) as (-> & _ & -> & ->); [tauto|].
        split; [intros Hu'; apply Hge; lia | intros Hu'; apply Hlt; lia]. }
  destruct Hinv as [_ Hfin]. apply Hfin; [exact Hu | exact Hn'].
Qed.

End Support.

(** ** The rewards collected *)

Section Collected.

Variable metric_lp : vec -> vec -> Z -> vec -> R.
Variable kernel_func : R -> string -> result R.
Variable env_t : Type.
Variable env_reset : env_t -> vec * env_t.
Variable env_step : env_t -> nat -> (vec * R * bool) * env_t.
Variable backward_induction : mat -> ten -> nat -> R -> result (ten * mat).
Variable backward_induction_in_place :
  ten -> mat -> mat -> ten -> nat -> R -> R -> result (ten * mat).
Variable cfg : config.

Variables lo hi : R.
Hypothesis env_rewards :
  forall e action next_state reward done e',
    env_step e action = (next_state, reward, done, e') -> lo <= reward <= hi.

Local Abbreviation agent := (agent env_t).
Local Abbreviation _run_episode' :=
  (_run_episode metric_lp kernel_func env_reset env_step
     backward_induction_in_place cfg).
Local Abbreviation fit' :=
  (fit metric_lp kernel_func env_reset env_step backward_induction
     backward_induction_in_place cfg).

Lemma episode_step_reward (hh : nat) (self self' : agent) (s s' : vec)
    (er er' : R) :
  episode_step metric_lp kernel_func env_step cfg hh (self, s, er)
  = Ok (self', s', er') ->
  er + lo <= er' <= er + hi.
Proof.
  unfold episode_step. intros H.
  apply bind_Ok in H as ([a self1] & _ & H).
  destruct (env_step (env self1) a) as [[[ns rw] dn] e] eqn:E.
  apply bind_Ok in H as (self2 & _ & H). injection H as _ _ <-.
  apply env_rewards in E. lra.
Qed.

Lemma run_episode_reward (self self' : agent) (er : R) :
  _run_episode' self = Ok (er, self') ->
  INR (horizon cfg) * lo <= er <= INR (horizon cfg) * hi.
Proof.
  unfold _run_episode. intros H.
  destruct (env_reset (env self)) as [state e].
  apply bind_Ok in H as ([[self1 s1] er1] & Hloop & H).
  apply bind_Ok in H as ([q v] & _ & H). injection H as <- _.
  refine (for_loop_inv_partial
            (fun i (st : agent * vec * R) => INR i * lo <= st.2 <= INR i * hi)
            (horizon cfg) _ _ (self1, s1, er1) _ _ Hloop).
  - simpl. lra.
  - intros i [[x sx] ex] [[y sy] ey] _ Hx Hstep. cbn [snd] in *.
    apply episode_step_reward in Hstep. rewrite S_INR. lra.
Qed.

(** X13.  The reward of an episode is the sum of [horizon] rewards of
    the environment: when these lie in [[lo, hi]], the value that
    [_run_episode] returns lies in [[horizon * lo, horizon * hi]], and
    so does every entry of the array that [fit] returns, which has one
    entry per episode; [fit] adds [n_episodes] to the counter of
    episodes. *)
Theorem episode_rewards_bounds (self self' : agent) :
  (forall er, _run_episode' self = Ok (er, self') ->
     INR (horizon cfg) * lo <= er <= INR (horizon cfg) * hi) /\
  (forall n rewards, fit' self = Ok (n, rewards, self') ->
     n = n_episodes cfg /\ length rewards = n_episodes cfg /\
     episode self' = (episode self + n_episodes cfg)%nat /\
     forall kk r, rewards !! kk = Some r ->
       INR (horizon cfg) * lo <= r <= INR (horizon cfg) * hi).
Proof.
  split; [intros er; apply run_episode_reward|].
  intros n rewards H. unfold fit in H.
  apply bind_Ok in H as (self1 & Hloop & H).
  apply bind_Ok in H as ([q v] & _ & H). injection H as <- <- <-. simpl.
  split; [reflexivity|].
  assert (Hinv :
    length (_rewards self1) = n_episodes cfg /\
    episode self1 = (episode self + n_episodes cfg)%nat /\
    forall kk r, (kk < n_episodes cfg)%nat -> _rewards self1 !! kk = Some r ->
      INR (horizon cfg) * lo <= r <= INR (horizon cfg) * hi).
  { refine (for_loop_inv_partial
              (fun k (x : agent) =>
                 length (_rewards x) = n_episodes cfg /\
                 episode x = (episode self + k)%nat /\
                 forall kk r, (kk < k)%nat -> _rewards x !! kk = Some r ->
                   INR (horizon cfg) * lo <= r <= INR (horizon cfg) * hi)
              (n_episodes cfg) _ _ self1 _ _ Hloop).
    - simpl. split; [apply length_replicate|]. split; [lia|]. intros; lia.
    - intros k x y Hk (Hlen & Hep & Hb) Hstep. unfold fit_step in Hstep.
      apply bind_Ok in Hstep as ([er x1] & Hrun & Hstep).
      apply bind_Ok in Hstep as (rw & Hrw & Hstep).
      apply bind_Ok in Hstep as (cm & _ & Hstep). injection Hstep as <-. simpl.
      pose proof (run_episode_reward _ _ _ Hrun) as Her.
      apply run_episode_inv in Hrun
        as (x2 & q2 & v2 & _ & _ & _ & _ & _ & _ & _ & _ & _ & _ & _ & _
            & Hep1 & Hrw1 & _).
      rewrite Hrw1 in Hrw. apply set_spec in Hrw as [Hlt ->].
      rewrite length_insert. split; [exact Hlen|]. split; [lia|].
      intros kk r Hkk Hr. destruct (decide (kk = k)) as [->|Hne].
      + rewrite list_lookup_insert_eq in Hr by exact Hlt. now injection Hr as <-.
      + rewrite list_lookup_insert_ne in Hr by congruence.
        apply (Hb kk r); [lia | exact Hr]. }
  destruct Hinv as (Hlen & Hep & Hb).
  split; [exact Hlen|]. split; [exact Hep|].
  intros kk r Hr. apply (Hb kk r); [|exact Hr].
  apply lookup_lt_Some in Hr. lia.
Qed.

End Collected.

(** ** Training goes through *)

Section Progress.

Variable metric_lp : vec -> vec -> Z -> vec -> R.
Variable kernel_func : R -> string -> result R.
Variable env_t : Type.
Variable cfg : config.

Local Abbreviation agent := (agent env_t).
Local Abbreviation shaped := (shaped cfg).
Local Abbreviation trained := (trained metric_lp kernel_func env_t cfg).

Lemma update_shaped (self self' : agent) (state : vec) (action : nat)
    (next_state : vec) (reward : R) :
  shaped (B_sa self) (P_hat self) ->
  _update metric_lp kernel_func cfg self state action next_state reward
  = Ok self' ->
  shaped (B_sa self') (P_hat self').
Proof.
  intros Hsh H. apply update_inv in H as (i1 & i2 & reprs & H).
  unfold update_model in H. apply bind_Ok in H as (k & Hk & H).
  apply (for_loop_preserves
           (fun t : mat * mat * ten * mat => shaped t.1.1.2 t.1.2)) in H.
  - exact H.
  - intros i [[[N1 B1] P1] R1] [[[N2 B2] P2] R2] Hinv Hstep. simpl in *.
    apply update_step_effect in Hstep
      as (Hother & w & n1 & b1 & p1 & p2 & _ & _ & _ & _ & Hb2 & Hp1 & Hp2
          & Hl & _);
      [|rewrite length_insert; apply length_replicate].
    intros u a Hu Ha. destruct (Hinv u a Hu Ha) as [[b Hb] Hp].
    destruct (decide (u = i /\ a = action)) as [[-> ->]|Hne].
    + split; [eauto|]. intros p Hp'. rewrite Hp2 in Hp'. injection Hp' as <-.
      rewrite Hl. now apply Hp.
    + destruct (Hother u a) as (_ & -> & -> & _); [|eauto].
      destruct (decide (u = i)); [right|left]; tauto.
  - exact Hsh.
Qed.

Lemma trained_shaped (ok_reward : R -> Prop) (self : agent) :
  trained ok_reward self -> shaped (B_sa self) (P_hat self).
Proof.
  induction 1 as [self | self s a s' r self' _ IH _ Hup | self self' _ IH Hsame].
  - apply (reset_wf env_t cfg 0 0); lra.
  - now apply (update_shaped self self' s a s' r).
  - destruct Hsame as (_ & _ & _ & -> & -> & _). exact IH.
Qed.

(** X14.  Training goes through: with a positive [beta], a bandwidth
    other than 0, a kernel that returns a non-negative weight for every
    distance, room for one representative at least and the bonus type
    that is implemented, [_update] returns for every transition of an
    action of the environment, whatever the transitions observed since
    [reset]. *)
Theorem update_returns (self : agent) (state : vec) (action : nat)
    (next_state : vec) (reward : R) :
  0 < beta cfg -> bandwidth cfg <> 0 ->
  (forall z, exists w, kernel_func z (kernel_type cfg) = Ok w /\ 0 <= w) ->
  (0 < max_repr cfg)%nat ->
  bonus_type cfg = simplified_bernstein ->
  trained (fun _ => True) self -> (action < A cfg)%nat ->
  exists self',
    _update metric_lp kernel_func cfg self state action next_state reward
    = Ok self' /\
    trained (fun _ => True) self'.
Proof.
  intros Hbeta Hbw Hker Hcap Hbt Htr Ha.
  assert (Hnn : forall z w, kernel_func z (kernel_type cfg) = Ok w -> 0 <= w).
  { intros z w Hw. destruct (Hker z) as (w' & Hw' & Hpos). congruence. }
  pose proof (trained_shaped _ _ Htr) as Hsh.
  destruct (trained_bounded _ _ _ _ _ Htr) as (lo & hi & Hlh & Htr').
  set (lo' := Rmin lo reward). set (hi' := Rmax hi reward).
  assert (Hlo : lo' <= lo /\ lo' <= reward)
    by (split; [apply Rmin_l | apply Rmin_r]).
  assert (Hhi : hi <= hi' /\ reward <= hi')
    by (split; [apply Rmax_l | apply Rmax_r]).
  assert (Hok : agent_ok env_t cfg lo' hi' self).
  { apply (trained_ok metric_lp kernel_func env_t cfg ltac:(lra) Hnn lo' hi'
             ltac:(lra) (fun r => lo <= r <= hi)); [|exact Htr'].
    intros r Hr. lra. }
  destruct (update_total metric_lp kernel_func env_t cfg Hbeta Hbw Hker Hcap
              lo' hi' ltac:(lra) self state action next_state reward
              (conj Hok Hsh) Ha ltac:(lra)) as [Hret _].
  destruct (Hret Hbt) as (self' & Hup & _).
  exists self'. split; [exact Hup|].
  now apply (trained_update _ _ _ _ _ self state action next_state reward self').
Qed.

End Progress.

Section Reached.

Variable metric_lp : vec -> vec -> Z -> vec -> R.
Variable kernel_func : R -> string -> result R.
Variable env_t : Type.
Variable env_reset : env_t -> vec * env_t.
Variable env_step : env_t -> nat -> (vec * R * bool) * env_t.
Variable backward_induction : mat -> ten -> nat -> R -> result (ten * mat).
Variable backward_induction_in_place :
  ten -> mat -> mat -> ten -> nat -> R -> R -> result (ten * mat).
Variable cfg : config.
Variable ok_reward : R -> Prop.

Hypothesis env_rewards :
  forall e action next_state reward done e',
    env_step e action = (next_state, reward, done, e') -> ok_reward reward.

Local Abbreviation agent := (agent env_t).
Local Abbreviation trained := (trained metric_lp kernel_func env_t cfg ok_reward).




End Reached.

(** ** The agent that [reset] leaves *)

Lemma argmax_from_replicate (x : R) (besti i n : nat) :
  argmax_from x besti i (replicate n x) = besti.
Proof.
  revert i. induction n as [|n IH]; intros i; [reflexivity|].
  simpl. rewrite Rltb_false by lra. apply IH.
Qed.

Lemma get_replicate {T : Type} (n i : nat) (x : T) :
  (i < n)%nat -> get (replicate n x) i = Ok x.
Proof.
  intros Hi. apply get_spec. now apply lookup_replicate.
Qed.

Section Fresh.

Variable metric_lp : vec -> vec -> Z -> vec -> R.
Variable env_t : Type.
Variable cfg : config.

Local Abbreviation agent := (agent env_t).

(** X16.  Before any transition is observed every state is given the
    action 0: there is no representative, [Q] is read at its row [-1],
    the last one, which holds zeros, and the first maximum of a constant
    row is its first entry.  Without room for a representative [Q] has
    no row, and the call fails; without an action the row is empty, and
    the call fails. *)
Theorem first_action_is_zero (self : agent) (state : vec) (hh : nat) :
  ((if Reqb (gamma cfg) 1 then hh else 0%nat) < horizon cfg)%nat ->
  ((0 < max_repr cfg)%nat -> (0 < A cfg)%nat ->
   _get_action metric_lp cfg (reset cfg self) state hh
   = Ok (0%nat, reset cfg self)) /\
  (max_repr cfg = 0%nat ->
   _get_action metric_lp cfg (reset cfg self) state hh = Raise IndexError) /\
  ((0 < max_repr cfg)%nat -> A cfg = 0%nat ->
   _get_action metric_lp cfg (reset cfg self) state hh = Raise ValueError).
Proof.
  intros Hh.
  destruct (map_to_repr_none metric_lp env_t cfg (reset cfg self) state false)
    as [_ Hmap]; [reflexivity | now left |].
  assert (Hact :
    _get_action metric_lp cfg (reset cfg self) state hh
    = (action ← (row ← last_row (zeros2 (max_repr cfg) (A cfg)); argmax row);
       Ok (action, reset cfg self))).
  { unfold _get_action. rewrite Hmap. cbn [mbind result_bind].
    rewrite greedy_minus_one. unfold greedy_last.
    cbn [Q reset]. unfold zeros3. rewrite get_replicate by exact Hh.
    reflexivity. }
  rewrite Hact, last_row_get. unfold zeros2. rewrite length_replicate.
  split; [|split].
  - intros Hm Ha. rewrite get_replicate by lia. cbn [mbind result_bind].
    destruct (A cfg) as [|a]; [lia|]. unfold zeros. simpl.
    now rewrite argmax_from_replicate.
  - intros ->. reflexivity.
  - intros Hm ->. rewrite get_replicate by lia. reflexivity.
Qed.

End Fresh.

(** ** The constructor *)

Lemma Rleb_spec (a b : R) : Rleb a b = true <-> a <= b.
Proof.
  unfold Rleb. destruct (Rle_dec a b); split; intros; try lra; discriminate.
Qed.

Lemma ceil_spec (x : R) : IZR (ceil x) - 1 < x <= IZR (ceil x).
Proof.
  unfold ceil. rewrite minus_IZR. destruct (archimed (- x)). lra.
Qed.

Lemma discounted_steps_S (gamma : R) (n : nat) :
  discounted_steps gamma (S n) = discounted_steps gamma n + gamma ^ n.
Proof.
  unfold discounted_steps. rewrite seq_S, map_app, sum_app. simpl. lra.
Qed.

Lemma discounted_steps_closed (gamma : R) (n : nat) :
  gamma <> 1 -> (1 - gamma ^ n) / (1 - gamma) = discounted_steps gamma n.
Proof.
  intros Hg. induction n as [|n IH].
  - unfold discounted_steps. simpl. field. lra.
  - rewrite discounted_steps_S, <- IH. simpl. field. lra.
Qed.

Lemma discounted_steps_one (n : nat) : discounted_steps 1 n = INR n.
Proof.
  induction n as [|n IH]; [reflexivity|].
  rewrite discounted_steps_S, IH, S_INR, pow1. lra.
Qed.

Lemma discounted_steps_bounds (gamma : R) (n : nat) :
  0 <= gamma <= 1 -> 0 <= discounted_steps gamma n <= INR n.
Proof.
  intros Hg. induction n as [|n IH]; [unfold discounted_steps; simpl; lra|].
  rewrite discounted_steps_S, S_INR.
  assert (0 <= gamma ^ n <= 1).
  { split; [apply pow_le; lra|]. rewrite <- (pow1 n). apply pow_incr. lra. }
  lra.
Qed.

(** The values of [init_values], in terms of [reward_span]. *)
Lemma init_values_span (gamma : R) (horizon : option nat)
    (reward_range : option R * option R) :
  0 <= gamma <= 1 -> (horizon = None -> gamma < 1) ->
  exists (h : nat) (v : R),
    init_values gamma horizon reward_range = Ok (h, v) /\
    (forall h0, horizon = Some h0 -> h = h0) /\
    v = reward_span reward_range * discounted_steps gamma h /\
    (0 <= reward_span reward_range ->
     0 <= v <= reward_span reward_range * INR h).
Proof.
  intros Hg Hnone. unfold init_values.
  replace (Rleb 0 gamma) with true by (symmetry; apply Rleb_spec; lra).
  replace (Rleb gamma 1) with true by (symmetry; apply Rleb_spec; lra).
  cbn [andb negb].
  pose proof (discounted_steps_bounds gamma) as Hb.
  destruct horizon as [h|].
  - cbn [mbind result_bind]. destruct (Reqb gamma 1) eqn:E.
    + apply Reqb_spec in E. subst gamma. cbn [mbind result_bind].
      eexists h, _. split; [reflexivity|]. split; [now intros h0 [= ->]|].
      rewrite discounted_steps_one. split; [reflexivity|].
      intros Hr. pose proof (pos_INR h). nra.
    + assert (gamma <> 1) by (intros ->; now rewrite Reqb_refl in E).
      cbn [mbind result_bind].
      eexists h, _. split; [reflexivity|]. split; [now intros h0 [= ->]|].
      assert (Hv : reward_span reward_range * (1 - gamma ^ h) / (1 - gamma)
                   = reward_span reward_range * discounted_steps gamma h).
      { rewrite <- discounted_steps_closed by assumption. field. lra. }
      split; [exact Hv|]. rewrite Hv. intros Hr. specialize (Hb h Hg). nra.
  - specialize (Hnone eq_refl). rewrite Rltb_true by exact Hnone.
    rewrite Reqb_false by lra. cbn [negb mbind result_bind].
    eexists _, _. split; [reflexivity|]. split; [discriminate|].
    set (h := Z.to_nat (ceil (1 / (1 - gamma)))).
    assert (Hv : reward_span reward_range * (1 - gamma ^ h) / (1 - gamma)
                 = reward_span reward_range * discounted_steps gamma h).
    { rewrite <- discounted_steps_closed by lra. field. lra. }
    split; [exact Hv|]. rewrite Hv. intros Hr. specialize (Hb h Hg). nra.
Qed.

(** X17.  [v_max] is the largest value of a policy: the width of the
    range of the rewards, [r_hi - r_lo], or 1 when an end of the range
    is infinite, times [1 + gamma + ... + gamma^(horizon-1)], for a
    discount of 1 and for a smaller one alike; it is at most [horizon]
    times that width.  The sum is [horizon] for the discount 1 and
    [(1 - gamma^horizon) / (1 - gamma)] otherwise. *)
Theorem v_max_is_discounted_range (gamma : R) (horizon : option nat)
    (reward_range : option R * option R) :
  0 <= gamma <= 1 -> (horizon = None -> gamma < 1) ->
  exists (h : nat) (v : R),
    init_values gamma horizon reward_range = Ok (h, v) /\
    (forall h0, horizon = Some h0 -> h = h0) /\
    (forall r_lo r_hi, reward_range = (Some r_lo, Some r_hi) ->
       v = (r_hi - r_lo) * discounted_steps gamma h /\
       (r_lo <= r_hi -> 0 <= v <= (r_hi - r_lo) * INR h)) /\
    (reward_range.1 = None \/ reward_range.2 = None ->
       v = discounted_steps gamma h /\ 0 <= v <= INR h) /\
    (gamma = 1 -> discounted_steps gamma h = INR h) /\
    (gamma <> 1 ->
     discounted_steps gamma h = (1 - gamma ^ h) / (1 - gamma)).
Proof.
  intros Hg Hnone.
  destruct (init_values_span gamma horizon reward_range Hg Hnone)
    as (h & v & Hval & Hh & Hv & Hb).
  exists h, v. split; [exact Hval|]. split; [exact Hh|].
  split; [|split; [|split]].
  - intros r_lo r_hi ->. unfold reward_span in Hv, Hb.
    split; [exact Hv|]. intros Hr. apply Hb. lra.
  - intros Hinf.
    assert (Hone : reward_span reward_range = 1).
    { destruct reward_range as [[r_lo|] [r_hi|]]; try reflexivity.
      destruct Hinf; discriminate. }
    rewrite Hone in Hv, Hb. split; [lra|].
    specialize (Hb ltac:(lra)). lra.
  - intros ->. apply discounted_steps_one.
  - intros Hne. symmetry. now apply discounted_steps_closed.
Qed.

(** X18.  Without a horizon, [__init__] takes the effective horizon of
    the discount, [1 / (1 - gamma)] rounded up: at least 1, and less
    than one step more than [1 / (1 - gamma)]. *)
Theorem default_horizon (gamma : R) (reward_range : option R * option R) :
  0 <= gamma < 1 ->
  exists (h : nat) (v : R),
    init_values gamma None reward_range = Ok (h, v) /\
    (1 <= h)%nat /\
    1 / (1 - gamma) <= INR h < 1 / (1 - gamma) + 1.
Proof.
  intros Hg. unfold init_values.
  replace (Rleb 0 gamma) with true by (symmetry; apply Rleb_spec; lra).
  replace (Rleb gamma 1) with true by (symmetry; apply Rleb_spec; lra).
  rewrite Rltb_true by lra. rewrite Reqb_false by lra.
  cbn [andb negb mbind result_bind].
  eexists _, _. split; [reflexivity|].
  pose proof (ceil_spec (1 / (1 - gamma))) as Hc.
  assert (Hx : 1 <= 1 / (1 - gamma)).
  { apply Rmult_le_reg_r with (1 - gamma); [lra|]. field_simplify; lra. }
  assert (Hz : (1 <= ceil (1 / (1 - gamma)))%Z).
  { apply le_IZR. assert (0 < IZR (ceil (1 / (1 - gamma)))) by lra.
    apply lt_IZR in H. apply IZR_le. lia. }
  split; [lia|]. rewrite INR_IZR_INZ, Z2Nat.id by lia. lra.
Qed.

(** X19.  [__init__] fails on its assertions only: when [gamma] is not
    in [[0, 1]], and when no horizon is given for the discount 1. *)
Theorem init_values_raises (gamma : R) (horizon : option nat)
    (reward_range : option R * option R) (e : exn) :
  init_values gamma horizon reward_range = Raise e <->
  e = AssertionError /\
  (gamma < 0 \/ 1 < gamma \/ (horizon = None /\ gamma = 1)).
Proof.
  unfold init_values.
  destruct (Rleb 0 gamma) eqn:E0; cbn [andb negb].
  - apply Rleb_spec in E0. destruct (Rleb gamma 1) eqn:E1; cbn [negb].
    + apply Rleb_spec in E1. destruct horizon as [h|].
      * cbn [mbind result_bind].
        destruct (Reqb gamma 1); cbn [mbind result_bind];
          (split; [discriminate|]); intros (_ & [H | [H | [H _]]]);
          solve [lra | discriminate].
      * destruct (Rltb gamma 1) eqn:E2; cbn [negb mbind result_bind].
        -- apply Rltb_spec in E2. rewrite Reqb_false by lra.
           cbn [mbind result_bind]. split; [discriminate|].
           intros (_ & [H | [H | [_ H]]]); lra.
        -- assert (gamma = 1).
           { destruct (Rlt_dec gamma 1) as [H|H]; [|lra].
             rewrite Rltb_true in E2 by exact H. discriminate. }
           split; [intros [= <-]; auto | intros [-> _]; reflexivity].
    + assert (1 < gamma).
      { destruct (Rle_dec gamma 1) as [H|H]; [|lra].
        apply Rleb_spec in H. congruence. }
      split; [intros [= <-]; auto | intros [-> _]; reflexivity].
  - assert (gamma < 0).
    { destruct (Rle_dec 0 gamma) as [H|H]; [|lra].
      apply Rleb_spec in H. congruence. }
    split; [intros [= <-]; auto | intros [-> _]; reflexivity].
Qed.

(** ** The properties on the runs *)

Lemma demo_update_2 :
  _update metric_lp_spec kernel_func_spec demo_cfg demo_agent [0] 0 [1] 1
  = Ok demo_agent_2.
Proof.
  unfold_agent. run. unfold demo_agent_2.
  repeat f_equal; vec_eq.
Qed.

Lemma demo_map_1 :
  _map_to_repr metric_lp_spec demo_cfg demo_agent [0] true
  = Ok (0%Z, demo_agent_mapped).
Proof. reflexivity. Qed.

Lemma demo_trained_2 :
  trained metric_lp_spec kernel_func_spec unit demo_cfg (fun _ => True)
    demo_agent_2.
Proof.
  apply (trained_update _ _ _ _ _ demo_agent [0] 0%nat [1] 1 demo_agent_2);
    [apply trained_reset | exact I | exact demo_update_2].
Qed.

Lemma demo_self_distance : metric_lp_spec [0] [0] 2 [1] <= 1/10.
Proof. rewrite metric_1d. rewrite Rabs_pos_eq; lra. Qed.

Lemma demo_step_rewards (e : unit) (action : nat) (next_state : vec)
    (reward : R) (done : bool) (e' : unit) :
  demo_step e action = (next_state, reward, done, e') -> 1 <= reward <= 1.
Proof. unfold demo_step. intros [= _ <- _ _]. lra. Qed.

Lemma near_state_is_mapped_witness :
  exists k rk,
    closest metric_lp_spec [0] 2 [1] [[0]; [0]] 1 k rk /\
    metric_lp_spec [0] rk 2 [1] <= 1/10 /\
    _map_to_repr metric_lp_spec demo_cfg demo_agent_1 [0] true
    = Ok (Z.of_nat k, demo_agent_1).
Proof.
  apply (near_state_is_mapped metric_lp_spec unit demo_cfg demo_agent_1 [0]
           true 0 [0]).
  - simpl. lia.
  - simpl. lia.
  - reflexivity.
  - exact demo_self_distance.
Defined.

Lemma full_capacity_fallback_witness :
  exists k rk,
    closest metric_lp_spec [1/2] 2 [1] [[0]; [1]] 2 k rk /\
    _map_to_repr metric_lp_spec demo_cfg demo_agent_2 [1/2] true
    = Ok (Z.of_nat k, demo_agent_2).
Proof.
  apply (full_capacity_fallback metric_lp_spec unit demo_cfg demo_agent_2
           [1/2] true).
  - reflexivity.
  - simpl. lia.
Defined.

Lemma map_to_repr_twice_witness :
  _map_to_repr metric_lp_spec demo_cfg demo_agent [0] true
  = Ok (0%Z, demo_agent_mapped) /\
  _map_to_repr metric_lp_spec demo_cfg demo_agent_mapped [0] true
  = Ok (0%Z, demo_agent_mapped).
Proof.
  split; [exact demo_map_1|].
  apply (map_to_repr_twice metric_lp_spec unit demo_cfg demo_agent).
  - simpl. lia.
  - exact demo_self_distance.
  - exact demo_map_1.
Defined.

Lemma representatives_separated_witness :
  min_dist demo_cfg < metric_lp_spec [1] [0] 2 [1].
Proof.
  apply (representatives_separated metric_lp_spec kernel_func_spec unit
           demo_cfg demo_agent_2 0 1 [0] [1]).
  - exact demo_trained_2.
  - lia.
  - simpl. lia.
  - reflexivity.
  - reflexivity.
Defined.

Lemma representatives_append_only_witness :
  extends unit demo_agent demo_agent_2 /\ extends unit demo_agent demo_fitted.
Proof.
  split.
  - destruct (representatives_append_only metric_lp_spec kernel_func_spec unit
                demo_reset demo_step backward_induction_spec
                backward_induction_in_place_spec demo_cfg demo_agent
                demo_agent_2) as (H & _ & _).
    + simpl. lia.
    + apply (H [0] 0%nat [1] 1 demo_update_2).
  - destruct (representatives_append_only metric_lp_spec kernel_func_spec unit
                demo_reset demo_step backward_induction_spec
                backward_induction_in_place_spec demo_cfg demo_agent
                demo_fitted) as (_ & _ & H).
    + simpl. lia.
    + apply (H 2%nat [1; 1] demo_fit_run).
Defined.

(** The two calls on the agent with two representatives and three
    actions: the state 9/10 is mapped to the representative 1. *)
Lemma greedy_get_action :
  _get_action metric_lp_spec greedy_cfg greedy_agent [9/10] 1
  = Ok (1%nat, greedy_agent).
Proof. unfold_agent. unfold greedy_agent. run. reflexivity. Qed.

Lemma greedy_policy :
  policy metric_lp_spec discounted_cfg greedy_agent [9/10] 1
  = Ok (1%nat, greedy_agent).
Proof. unfold policy. unfold_agent. unfold greedy_agent. run. reflexivity. Qed.

Lemma greedy_map :
  _map_to_repr metric_lp_spec greedy_cfg greedy_agent [9/10] false
  = Ok (1%Z, greedy_agent).
Proof. unfold_agent. unfold greedy_agent. run. reflexivity. Qed.

Lemma action_selection_read_only_witness :
  (exists action self',
     _get_action metric_lp_spec greedy_cfg greedy_agent [9/10] 1
     = Ok (action, self') /\
     self' = greedy_agent /\ M self' = 2%nat /\
     representative_states self' = [[0]; [1]]) /\
  (exists action self',
     policy metric_lp_spec discounted_cfg greedy_agent [9/10] 1
     = Ok (action, self') /\
     self' = greedy_agent /\ M self' = 2%nat /\
     representative_states self' = [[0]; [1]]).
Proof.
  split.
  - destruct (_get_action metric_lp_spec greedy_cfg greedy_agent [9/10] 1)
      as [[action self']|e] eqn:E;
      [|rewrite greedy_get_action in E; discriminate].
    destruct (action_selection_read_only metric_lp_spec unit greedy_cfg
                greedy_agent self' [9/10] 1 action) as [H _];
      [simpl; lia|].
    exists action, self'. split; [reflexivity|].
    rewrite (H E). repeat split.
  - destruct (policy metric_lp_spec discounted_cfg greedy_agent [9/10] 1)
      as [[action self']|e] eqn:E;
      [|rewrite greedy_policy in E; discriminate].
    destruct (action_selection_read_only metric_lp_spec unit discounted_cfg
                greedy_agent self' [9/10] 1 action) as [_ H];
      [simpl; lia|].
    exists action, self'. split; [reflexivity|].
    rewrite (H E). repeat split.
Defined.

Lemma chosen_action_is_greedy_witness :
  (_get_action metric_lp_spec greedy_cfg greedy_agent [9/10] 1
   = Ok (1%nat, greedy_agent) /\
   exists (layer : mat) (row : vec) (x : R),
     Q greedy_agent !! 1%nat = Some layer /\
     layer !! 1%nat = Some row /\ row = [2; 5; 5] /\
     row !! 1%nat = Some x /\
     (forall j y, row !! j = Some y -> y <= x) /\
     (forall j y, (j < 1)%nat -> row !! j = Some y -> y < x)) /\
  (policy metric_lp_spec discounted_cfg greedy_agent [9/10] 1
   = Ok (1%nat, greedy_agent) /\
   exists (q_policy : ten) (layer : mat) (row : vec) (x : R),
     Q_policy greedy_agent = Some q_policy /\
     q_policy !! 0%nat = Some layer /\
     layer !! 1%nat = Some row /\ row = [0; 7; 7] /\
     row !! 1%nat = Some x /\
     (forall j y, row !! j = Some y -> y <= x) /\
     (forall j y, (j < 1)%nat -> row !! j = Some y -> y < x)).
Proof.
  split.
  - split; [exact greedy_get_action|].
    destruct (chosen_action_is_greedy metric_lp_spec unit greedy_cfg
                greedy_agent greedy_agent [9/10] 1 1) as [H _].
    destruct (H greedy_get_action)
      as (idx & layer & row & x & Hmap & Hl & Hr & Hx & Hmax & Hfirst).
    rewrite greedy_map in Hmap. injection Hmap as <-.
    change (gamma greedy_cfg) with 1 in Hl. rewrite Reqb_refl in Hl.
    pose proof Hl as Hl'. injection Hl' as <-.
    pose proof Hr as Hr'. injection Hr' as <-.
    exists [[1; 3; 3]; [2; 5; 5]], [2; 5; 5], x. auto 10.
  - split; [exact greedy_policy|].
    destruct (chosen_action_is_greedy metric_lp_spec unit discounted_cfg
                greedy_agent greedy_agent [9/10] 1 1) as [_ H].
    destruct (H greedy_policy)
      as (q & idx & layer & row & x & Hq & Hmap & Hl & Hr & Hx & Hmax & Hfirst).
    change (_map_to_repr metric_lp_spec discounted_cfg greedy_agent [9/10] false)
      with (_map_to_repr metric_lp_spec greedy_cfg greedy_agent [9/10] false)
      in Hmap.
    rewrite greedy_map in Hmap. injection Hmap as <-.
    injection Hq as <-.
    change (gamma discounted_cfg) with (1/2) in Hl.
    rewrite Reqb_false in Hl by lra.
    pose proof Hl as Hl'. injection Hl' as <-.
    pose proof Hr as Hr'. injection Hr' as <-.
    eexists _, [[1; 1; 0]; [0; 7; 7]], [0; 7; 7], x.
    split; [reflexivity|]. auto 10.
Defined.

Lemma update_model_locality_witness :
  get2 (N_sa demo_agent_1) 1 0 = get2 (N_sa demo_agent) 1 0 /\
  get2 (B_sa demo_agent_1) 1 0 = get2 (B_sa demo_agent) 1 0 /\
  get2 (P_hat demo_agent_1) 1 0 = get2 (P_hat demo_agent) 1 0 /\
  get2 (R_hat demo_agent_1) 1 0 = get2 (R_hat demo_agent) 1 0.
Proof.
  destruct (update_inv metric_lp_spec kernel_func_spec unit demo_cfg demo_agent
              demo_agent_1 [0] 0 [0] 1 demo_update_1)
    as (i1 & i2 & reprs & H).
  destruct (update_model_locality _ _ _ _ _ _ _ _ _ _ _ _ _ _ _ _ _ _ _ _ _ _
              _ _ H) as [Hloc _].
  apply Hloc. right. simpl. lia.
Defined.

Lemma update_adds_kernel_weights_witness :
  exists n',
    get2 (N_sa demo_agent_2) 1 0 = Ok n' /\ 0 <= n' /\
    (exists z w, kernel_func_spec z "epanechnikov" = Ok w /\ n' = 0 + w).
Proof.
  destruct (update_adds_kernel_weights metric_lp_spec kernel_func_spec unit
              demo_cfg demo_agent demo_agent_2 [0] 0 [1] 1 1 0 0)
    as (n' & Hn' & Hle & Hw & _).
  - intros z w. apply kernel_func_spec_nonneg.
  - exact demo_update_2.
  - reflexivity.
  - exists n'. split; [exact Hn'|]. split; [exact Hle|].
    apply Hw; [reflexivity | simpl; lia].
Defined.

Lemma bonus_follows_weights_witness :
  (0 = 0 /\
   1 * sqrt (1 / (1/100 + 0)) + (1 + 1/100) * 1 / (1/100 + 0) = v_max demo_cfg) \/
  compute_bonus 0 (1/100) 1 1 simplified_bernstein
  = Ok (1 * sqrt (1 / (1/100 + 0)) + (1 + 1/100) * 1 / (1/100 + 0)).
Proof.
  apply (bonus_follows_weights metric_lp_spec kernel_func_spec unit demo_cfg
           demo_agent_2 1 0).
  - exact demo_trained_2.
  - reflexivity.
  - reflexivity.
Defined.

Lemma update_returns_witness :
  exists self',
    _update metric_lp_spec kernel_func_spec demo_cfg demo_agent_2 [3] 0 [4] 5
    = Ok self' /\
    trained metric_lp_spec kernel_func_spec unit demo_cfg (fun _ => True) self'.
Proof.
  apply (update_returns metric_lp_spec kernel_func_spec unit demo_cfg
           demo_agent_2 [3] 0 [4] 5).
  - simpl. lra.
  - simpl. lra.
  - apply kernel_func_spec_total.
  - simpl. lia.
  - reflexivity.
  - exact demo_trained_2.
  - simpl. lia.
Defined.

Lemma episode_rewards_bounds_witness :
  length [1; 1] = n_episodes demo_cfg /\
  episode demo_fitted = (episode demo_agent + n_episodes demo_cfg)%nat /\
  forall kk r, [1; 1] !! kk = Some r ->
    INR (horizon demo_cfg) * 1 <= r <= INR (horizon demo_cfg) * 1.
Proof.
  destruct (episode_rewards_bounds metric_lp_spec kernel_func_spec unit
              demo_reset demo_step backward_induction_spec
              backward_induction_in_place_spec demo_cfg 1 1 demo_step_rewards
              demo_agent demo_fitted) as [_ H].
  destruct (H 2%nat [1; 1] demo_fit_run) as (_ & Hlen & Hep & Hb). auto.
Defined.


Lemma first_action_is_zero_witness :
  _get_action metric_lp_spec demo_cfg (reset demo_cfg demo_fitted) [7] 0
  = Ok (0%nat, reset demo_cfg demo_fitted) /\
  _get_action metric_lp_spec no_room_cfg (reset no_room_cfg demo_fitted) [7] 0
  = Raise IndexError.
Proof.
  assert (Hh : forall g, ((if Reqb g 1 then 0 else 0) < 1)%nat)
    by (intros g; destruct (Reqb g 1); lia).
  split.
  - destruct (first_action_is_zero metric_lp_spec unit demo_cfg demo_fitted
                [7] 0) as (H & _ & _); [apply Hh|].
    apply H; simpl; lia.
  - destruct (first_action_is_zero metric_lp_spec unit no_room_cfg demo_fitted
                [7] 0) as (_ & H & _); [apply Hh|].
    apply H. reflexivity.
Defined.

Lemma v_max_is_discounted_range_witness :
  (exists (h : nat) (v : R),
     init_values (1/2) (Some 2%nat) (Some (-1), Some 3) = Ok (h, v) /\
     h = 2%nat /\ v = (3 - -1) * discounted_steps (1/2) 2 /\ v = 6) /\
  (exists (h : nat) (v : R),
     init_values 1 (Some 2%nat) (None, Some 3) = Ok (h, v) /\
     h = 2%nat /\ v = discounted_steps 1 2 /\ v = 2).
Proof.
  split.
  - destruct (v_max_is_discounted_range (1/2) (Some 2%nat) (Some (-1), Some 3))
      as (h & v & Hval & Hh & Hfin & _ & _ & Hsum); [lra | discriminate |].
    specialize (Hh 2%nat eq_refl). subst h.
    destruct (Hfin (-1) 3 eq_refl) as [Hv _].
    exists 2%nat, v. split; [exact Hval|]. split; [reflexivity|].
    split; [exact Hv|]. rewrite Hv, Hsum by lra. simpl. lra.
  - destruct (v_max_is_discounted_range 1 (Some 2%nat) (None, Some 3))
      as (h & v & Hval & Hh & _ & Hinf & Hsum & _); [lra | discriminate |].
    specialize (Hh 2%nat eq_refl). subst h.
    destruct (Hinf (or_introl eq_refl)) as [Hv _].
    exists 2%nat, v. split; [exact Hval|]. split; [reflexivity|].
    split; [exact Hv|]. rewrite Hv, Hsum by reflexivity. simpl. lra.
Defined.

Lemma default_horizon_witness :
  exists (h : nat) (v : R),
    init_values (1/2) None (None, Some 1) = Ok (h, v) /\
    (1 <= h)%nat /\ 1 / (1 - 1/2) <= INR h < 1 / (1 - 1/2) + 1.
Proof.
  apply (default_horizon (1/2) (None, Some 1)). lra.
Defined.

Lemma update_refreshes_bonuses_witness :
  exists n b,
    get2 (N_sa demo_agent_2) 1 0 = Ok n /\
    get2 (B_sa demo_agent_2) 1 0 = Ok b /\
    compute_bonus n (1/100) 1 1 simplified_bernstein = Ok b.
Proof.
  apply (update_refreshes_bonuses metric_lp_spec kernel_func_spec unit demo_cfg
           demo_agent demo_agent_2 [0] 0 [1] 1 1 demo_update_2).
  simpl. lia.
Defined.

Lemma no_weight_no_change_witness :
  get2 (R_hat demo_agent_2) 1 0 = get2 (R_hat demo_agent) 1 0 /\
  get2 (P_hat demo_agent_2) 1 0 = get2 (P_hat demo_agent) 1 0.
Proof.
  apply (no_weight_no_change metric_lp_spec kernel_func_spec unit demo_cfg
           demo_agent demo_agent_2 [0] 0 [1] 1 1 0 demo_update_2);
    reflexivity.
Defined.
